(** * Asset generation cache of astro: [assets/build/generate.ts]

    A shallow embedding of [prepareAssetsGeneration], [loadImage],
    [generateImagesForPath], [generateImage] and [generateImageInternal],
    together with the parts of the Node.js platform they call: the
    filesystem, [Buffer] base64 conversion, [JSON.stringify] and
    [JSON.parse], the clock and the logger. *)

From Stdlib Require Import ZArith NArith Ascii String List Lia.
From Stdlib.Strings Require Import Byte.
From Stdlib Require Import Decimal DecimalString DecimalZ DecimalPos
  DecimalFacts.
From stdpp Require Import base option gmap strings list.

Set Warnings "-register-all".

Open Scope string_scope.
Open Scope Z_scope.

(** ** Buffers and base64 *)

(** A [Buffer] is a sequence of bytes. *)
Abbreviation Buffer := (list byte).

Definition byteLength (b : Buffer) : Z := Z.of_nat (length b).

Module Base64.

Definition alphabet : string :=
  "ABCDEFGHIJKLMNOPQRSTUVWXYZabcdefghijklmnopqrstuvwxyz0123456789+/".

(** The character of a sextet. *)
Definition char_of (n : N) : ascii :=
  match String.get (N.to_nat n) alphabet with
  | Some c => c
  | None => "="%char
  end.

Definition in_range (lo hi : N) (x : N) : bool :=
  (lo <=? x)%N && (x <=? hi)%N.

(** Node's [unbase64] table: the standard alphabet and the URL-safe
    characters [-] and [_]; every other character is illegal. *)
Definition unbase64 (c : ascii) : option N :=
  let x := N_of_ascii c in
  if in_range 65 90 x then Some (x - 65)%N
  else if in_range 97 122 x then Some (x - 71)%N
  else if in_range 48 57 x then Some (x + 4)%N
  else if (x =? 43)%N || (x =? 45)%N then Some 62%N
  else if (x =? 47)%N || (x =? 95)%N then Some 63%N
  else None.

Definition byte_of (n : N) : byte :=
  match Byte.of_N (n mod 256) with
  | Some b => b
  | None => x00
  end.

(** [buf.toString('base64')] *)
Fixpoint encode (bs : Buffer) : string :=
  match bs with
  | [] => EmptyString
  | [a] =>
      let x := Byte.to_N a in
      String (char_of (x / 4))
        (String (char_of ((x mod 4) * 16)) "==")
  | [a; b] =>
      let x := Byte.to_N a in
      let y := Byte.to_N b in
      String (char_of (x / 4))
        (String (char_of ((x mod 4) * 16 + y / 16))
           (String (char_of ((y mod 16) * 4)) "="))
  | a :: b :: c :: rest =>
      let x := Byte.to_N a in
      let y := Byte.to_N b in
      let z := Byte.to_N c in
      String (char_of (x / 4))
        (String (char_of ((x mod 4) * 16 + y / 16))
           (String (char_of ((y mod 16) * 4 + z / 64))
              (String (char_of (z mod 64)) (encode rest))))
  end%N.

(** The legal characters of a string of ASCII characters up to its first
    [=]: Node's decoder skips illegal characters and stops at the
    padding. *)
Fixpoint sextets (s : string) : list N :=
  match s with
  | EmptyString => []
  | String c r =>
      if Ascii.eqb c "="%char then []
      else match unbase64 c with
           | Some v => v :: sextets r
           | None => sextets r
           end
  end.

Fixpoint bytes_of_sextets (l : list N) : Buffer :=
  match l with
  | a :: b :: c :: d :: rest =>
      byte_of (a * 4 + b / 16)
        :: byte_of ((b mod 16) * 16 + c / 4)
        :: byte_of ((c mod 4) * 64 + d)
        :: bytes_of_sextets rest
  | [a; b; c] =>
      [byte_of (a * 4 + b / 16); byte_of ((b mod 16) * 16 + c / 4)]
  | [a; b] => [byte_of (a * 4 + b / 16)]
  | _ => []
  end%N.

(** [Buffer.from(s, 'base64')] on a string of ASCII characters: never
    throws.  A character outside ASCII is a code unit that Node's decoder
    does not see as the bytes kept here; such strings are not given to
    [decode] (see [Buffer_from_base64]). *)
Definition decode (s : string) : Buffer := bytes_of_sextets (sextets s).

(** Every character of [s] is an ASCII character. *)
Fixpoint is_ascii (s : string) : bool :=
  match s with
  | EmptyString => true
  | String c r => (N_of_ascii c <? 128)%N && is_ascii r
  end.

End Base64.

(** ** Exceptions *)

(** The [code] property of a Node.js system error. *)
Inductive errno : Set :=
| ENOENT | EACCES | EPERM | EISDIR | ENOTDIR | EROFS | ENOSPC | EIO | EMFILE.

Global Instance errno_eq_dec : EqDecision errno.
Proof. solve_decision. Defined.

Definition errno_name (c : errno) : string :=
match c with
| ENOENT => "ENOENT" | EACCES => "EACCES" | EPERM => "EPERM"
| EISDIR => "EISDIR" | ENOTDIR => "ENOTDIR" | EROFS => "EROFS"
| ENOSPC => "ENOSPC" | EIO => "EIO" | EMFILE => "EMFILE"
end.

(** What the code can throw or see thrown.  Text is modelled by its UTF-8
  bytes throughout. *)
Inductive exn : Type :=
| SystemError (code : errno) (syscall : string) (path : string)
  (* thrown by [node:fs]; has a [code] *)
| FileError (code : errno) (syscall : string)
  (* thrown by [node:fs] for a call on an open file; has a [code] and
     no path *)
| SyntaxError (message : string)      (* thrown by [JSON.parse] *)
| TypeError (message : string)        (* thrown by property access on
                                       [null], by [Buffer.from] *)
| ForeignError (message : string)     (* thrown by an external capability:
                                       the image service, the fetch *)
| Error (message : string).           (* [new Error(message)] *)

(** [e.code] ([None] for [undefined]). *)
Definition exn_code (e : exn) : option errno :=
match e with
| SystemError c _ _ => Some c
| FileError c _ => Some c
| _ => None
end.

(** [`${e}`]: the name and the message.  For a system error Node puts a
    description of the code between the code and the system call; it is
    left out here. *)
Definition exn_toString (e : exn) : string :=
match e with
| SystemError c syscall path =>
    "Error: " ++ errno_name c ++ ": " ++ syscall ++ " '" ++ path ++ "'"
| FileError c syscall => "Error: " ++ errno_name c ++ ": " ++ syscall
| SyntaxError m => "SyntaxError: " ++ m
| TypeError m => "TypeError: " ++ m
| ForeignError m => "Error: " ++ m
| Error m => "Error: " ++ m
end.

Inductive Result (A : Type) : Type :=
| Ok (a : A)
| Throw (e : exn).
Arguments Ok {A} a.
Arguments Throw {A} e.

(** ** JSON *)

Module JSON.

(** A parsed JSON text.  A number literal is kept as written, [m * 10^e];
    the double it stands for is taken where the number is used. *)
Inductive json : Type :=
| JNull
| JBool (b : bool)
| JNum (m e : Z)
| JStr (s : string)
| JArr (items : list json)
| JObj (members : list (string * json)).

Definition dquote : ascii := "034"%char.
Definition backslash : ascii := "092"%char.

Definition hex_digit (n : N) : ascii :=
  match String.get (N.to_nat n) "0123456789abcdef" with
  | Some c => c
  | None => "0"%char
  end.

(** [QuoteJSONString], one character. *)
Definition quote_char (c : ascii) : string :=
  let x := N_of_ascii c in
  if (x =? 34)%N then String backslash (String dquote EmptyString)
  else if (x =? 92)%N then String backslash (String backslash EmptyString)
  else if (x =? 8)%N then String backslash "b"
  else if (x =? 12)%N then String backslash "f"
  else if (x =? 10)%N then String backslash "n"
  else if (x =? 13)%N then String backslash "r"
  else if (x =? 9)%N then String backslash "t"
  else if (x <? 32)%N then
    String backslash
      (String "u" (String "0" (String "0"
         (String (hex_digit (x / 16))
            (String (hex_digit (x mod 16)) EmptyString)))))
  else String c EmptyString.

Fixpoint quote_body (s : string) : string :=
  match s with
  | EmptyString => EmptyString
  | String c r => quote_char c ++ quote_body r
  end.

Definition quote (s : string) : string :=
  String dquote (quote_body s ++ String dquote EmptyString).

(** [Number::toString] of an integer. *)
Definition number_toString (n : Z) : string :=
  NilZero.string_of_int (Z.to_int n).

(** [JSON.stringify({ data: d, expires: x })] *)
Definition stringify_entry (d : string) (x : Z) : string :=
  "{" ++ quote "data" ++ ":" ++ quote d ++ ","
      ++ quote "expires" ++ ":" ++ number_toString x ++ "}".

(** *** [JSON.parse] *)

Definition is_ws (c : ascii) : bool :=
  let x := N_of_ascii c in
  (x =? 32)%N || (x =? 9)%N || (x =? 10)%N || (x =? 13)%N.

Fixpoint skip_ws (s : string) : string :=
  match s with
  | String c r => if is_ws c then skip_ws r else s
  | EmptyString => s
  end.

Definition digit_of (c : ascii) : option (uint -> uint) :=
  let x := N_of_ascii c in
  if (x =? 48)%N then Some D0 else if (x =? 49)%N then Some D1
  else if (x =? 50)%N then Some D2 else if (x =? 51)%N then Some D3
  else if (x =? 52)%N then Some D4 else if (x =? 53)%N then Some D5
  else if (x =? 54)%N then Some D6 else if (x =? 55)%N then Some D7
  else if (x =? 56)%N then Some D8 else if (x =? 57)%N then Some D9
  else None.

(** The longest prefix of decimal digits. *)
Fixpoint scan_uint (s : string) : uint * string :=
  match s with
  | String c r =>
      match digit_of c with
      | Some d => let (u, rest) := scan_uint r in (d u, rest)
      | None => (Nil, s)
      end
  | EmptyString => (Nil, s)
  end.

Definition hex_value (c : ascii) : option N :=
  let x := N_of_ascii c in
  if Base64.in_range 48 57 x then Some (x - 48)%N
  else if Base64.in_range 97 102 x then Some (x - 87)%N
  else if Base64.in_range 65 70 x then Some (x - 55)%N
  else None.

(** The UTF-8 bytes of the code unit of a [\uXXXX] escape. *)
Definition utf8_of_unit (n : N) : string :=
  if (n <? 128)%N then String (ascii_of_N n) EmptyString
  else if (n <? 2048)%N then
    String (ascii_of_N (192 + n / 64))
      (String (ascii_of_N (128 + n mod 64)) EmptyString)
  else
    String (ascii_of_N (224 + n / 4096))
      (String (ascii_of_N (128 + (n / 64) mod 64))
         (String (ascii_of_N (128 + n mod 64)) EmptyString)).

Definition unit_of_hex (a b c d : ascii) : option N :=
  match hex_value a, hex_value b, hex_value c, hex_value d with
  | Some x, Some y, Some z, Some w =>
      Some (((x * 16 + y) * 16 + z) * 16 + w)%N
  | _, _, _, _ => None
  end.

(** The text of a string literal after its opening quote, and what
    follows its closing quote. *)
Fixpoint parse_string_body (s : string) : option (string * string) :=
  match s with
  | EmptyString => None
  | String c r =>
      if Ascii.eqb c dquote then Some (EmptyString, r)
      else if Ascii.eqb c backslash then
        match r with
        | String e r' =>
            let simple (x : ascii) :=
              match parse_string_body r' with
              | Some (t, rest) => Some (String x t, rest)
              | None => None
              end in
            if Ascii.eqb e dquote then simple dquote
            else if Ascii.eqb e backslash then simple backslash
            else if Ascii.eqb e "/" then simple "/"%char
            else if Ascii.eqb e "b" then simple "008"%char
            else if Ascii.eqb e "f" then simple "012"%char
            else if Ascii.eqb e "n" then simple "010"%char
            else if Ascii.eqb e "r" then simple "013"%char
            else if Ascii.eqb e "t" then simple "009"%char
            else if Ascii.eqb e "u" then
              match r' with
              | String h1 (String h2 (String h3 (String h4 r''))) =>
                  match unit_of_hex h1 h2 h3 h4,
                        parse_string_body r'' with
                  | Some n, Some (t, rest) =>
                      Some (utf8_of_unit n ++ t, rest)
                  | _, _ => None
                  end
              | _ => None
              end
            else None
        | EmptyString => None
        end
      else if (N_of_ascii c <? 32)%N then None
      else
        match parse_string_body r with
        | Some (t, rest) => Some (String c t, rest)
        | None => None
        end
  end.

Definition is_nil (u : uint) : bool :=
  match u with Nil => true | _ => false end.

(** A JSON integer part has no leading zero. *)
Definition leading_zero (u : uint) : bool :=
  match u with
  | D0 Nil => false
  | D0 _ => true
  | _ => false
  end.

Definition signed (neg : bool) (n : Z) : Z := if neg then - n else n.

(** [int frac? exp?], after the sign. *)
Definition parse_unsigned (neg : bool) (s1 : string)
  : option (json * string) :=
  let (ip, s2) := scan_uint s1 in
  if is_nil ip || leading_zero ip then None
  else
    let frac :=
      match s2 with
      | String c r =>
          if Ascii.eqb c "." then
            let (fp, s3) := scan_uint r in
            if is_nil fp then None else Some (fp, s3)
          else Some (Nil, s2)
      | EmptyString => Some (Nil, s2)
      end in
    match frac with
    | None => None
    | Some (fp, s3) =>
        let mant := signed neg (Z.of_uint (Decimal.app ip fp)) in
        let shift := Z.of_nat (Decimal.nb_digits fp) in
        match s3 with
        | String c r =>
            if Ascii.eqb c "e" || Ascii.eqb c "E" then
              let (eneg, s4) :=
                match r with
                | String c' r' =>
                    if Ascii.eqb c' "-" then (true, r')
                    else if Ascii.eqb c' "+" then (false, r')
                    else (false, r)
                | EmptyString => (false, r)
                end in
              let (ep, s5) := scan_uint s4 in
              if is_nil ep then None
              else Some (JNum mant (signed eneg (Z.of_uint ep) - shift), s5)
            else Some (JNum mant (- shift), s3)
        | EmptyString => Some (JNum mant (- shift), s3)
        end
    end.

(** [-? int frac? exp?] *)
Definition parse_number (s : string) : option (json * string) :=
  match s with
  | String c r =>
      if Ascii.eqb c "-" then parse_unsigned true r
      else parse_unsigned false s
  | EmptyString => None
  end.

(** [expect w s]: [s] without its prefix [w]. *)
Fixpoint expect (w s : string) : option string :=
  match w with
  | EmptyString => Some s
  | String c w' =>
      match s with
      | String c' s' => if Ascii.eqb c c' then expect w' s' else None
      | EmptyString => None
      end
  end.

(** Recursive descent, with fuel for the nesting. *)
Fixpoint parse_value (n : nat) (s : string) {struct n}
  : option (json * string) :=
  match n with
  | O => None
  | S n' =>
      match skip_ws s with
      | EmptyString => None
      | String c r =>
          if Ascii.eqb c "{" then
            match skip_ws r with
            | String c' r' =>
                if Ascii.eqb c' "}" then Some (JObj [], r')
                else parse_members n' [] r
            | EmptyString => None
            end
          else if Ascii.eqb c "[" then
            match skip_ws r with
            | String c' r' =>
                if Ascii.eqb c' "]" then Some (JArr [], r')
                else parse_elements n' [] r
            | EmptyString => None
            end
          else if Ascii.eqb c dquote then
            match parse_string_body r with
            | Some (t, rest) => Some (JStr t, rest)
            | None => None
            end
          else if Ascii.eqb c "t" then
            match expect "rue" r with
            | Some rest => Some (JBool true, rest)
            | None => None
            end
          else if Ascii.eqb c "f" then
            match expect "alse" r with
            | Some rest => Some (JBool false, rest)
            | None => None
            end
          else if Ascii.eqb c "n" then
            match expect "ull" r with
            | Some rest => Some (JNull, rest)
            | None => None
            end
          else parse_number (String c r)
      end
  end
with parse_elements (n : nat) (acc : list json) (s : string) {struct n}
  : option (json * string) :=
  match n with
  | O => None
  | S n' =>
      match parse_value n' s with
      | Some (v, r) =>
          match skip_ws r with
          | String c r' =>
              if Ascii.eqb c "," then parse_elements n' (v :: acc) r'
              else if Ascii.eqb c "]" then Some (JArr (rev (v :: acc)), r')
              else None
          | EmptyString => None
          end
      | None => None
      end
  end
with parse_members (n : nat) (acc : list (string * json)) (s : string)
  {struct n} : option (json * string) :=
  match n with
  | O => None
  | S n' =>
      match skip_ws s with
      | String q r =>
          if Ascii.eqb q dquote then
            match parse_string_body r with
            | Some (k, r1) =>
                match skip_ws r1 with
                | String c r2 =>
                    if Ascii.eqb c ":" then
                      match parse_value n' r2 with
                      | Some (v, r3) =>
                          match skip_ws r3 with
                          | String c' r4 =>
                              if Ascii.eqb c' "," then
                                parse_members n' ((k, v) :: acc) r4
                              else if Ascii.eqb c' "}" then
                                Some (JObj (rev ((k, v) :: acc)), r4)
                              else None
                          | EmptyString => None
                          end
                      | None => None
                      end
                    else None
                | EmptyString => None
                end
            | None => None
            end
          else None
      | EmptyString => None
      end
  end.

(** [JSON.parse(text)]: one value, surrounded by white space only.  The
    message of the [SyntaxError] does not name the offending token as
    V8's does. *)
Definition parse (text : string) : Result json :=
  match parse_value (2 * String.length text + 2) text with
  | Some (v, rest) =>
      match skip_ws rest with
      | EmptyString => Ok v
      | String _ _ =>
          Throw (SyntaxError
                   "Unexpected non-whitespace character after JSON")
      end
  | None => Throw (SyntaxError "Unexpected token in JSON")
  end.

(** The value the code stores: [{ data, expires }]. *)
Definition entry_json (d : string) (x : Z) : json :=
  JObj [("data", JStr d); ("expires", JNum x 0)].

(** Auxiliary predicates on the text that follows a token. *)
Definition cons_parsed (c : ascii) (o : option (string * string))
  : option (string * string) :=
  match o with
  | Some (t, rest) => Some (String c t, rest)
  | None => None
  end.

Definition no_digit_ahead (s : string) : Prop :=
  match s with
  | String c _ => digit_of c = None
  | EmptyString => True
  end.

Definition ends_number (s : string) : Prop :=
  match s with
  | String c _ =>
      digit_of c = None /\ Ascii.eqb c "." = false
      /\ Ascii.eqb c "e" = false /\ Ascii.eqb c "E" = false
  | EmptyString => True
  end.

Definition starts_number (s : string) : bool :=
  match s with
  | String c _ =>
      match digit_of c with Some _ => true | None => Ascii.eqb c "-" end
  | EmptyString => false
  end.

(** *** What the code does with a parsed value *)

(** The member [k] of an object literal; a later duplicate wins. *)
Fixpoint lookup_member (k : string) (ms : list (string * json))
  : option json :=
  match ms with
  | [] => None
  | (k', v) :: rest =>
      match lookup_member k rest with
      | Some v' => Some v'
      | None => if String.eqb k k' then Some v else None
      end
  end.

(** [v.expires] and [v.data] ([k] is one of these two names, which no
    prototype defines): [None] is [undefined]; reading a property of
    [null] throws. *)
Definition get_member (v : json) (k : string) : Result (option json) :=
  match v with
  | JNull =>
      Throw (TypeError ("Cannot read properties of null (reading '"
                          ++ k ++ "')"))
  | JObj ms => Ok (lookup_member k ms)
  | _ => Ok None
  end.

(** The integer that the literal [m * 10^e] denotes, when it denotes
    one. *)
Definition integer_value (m e : Z) : option Z :=
  if 0 <=? e then Some (m * 10 ^ e)
  else if m mod 10 ^ (- e) =? 0 then Some (m / 10 ^ (- e))
  else None.

End JSON.

(** ** The types of [../types.js] and of the build configuration *)

Record ImageMetadata : Type := {
  meta_src : string;
  meta_width : Z;
  meta_height : Z;
  meta_format : string
}.

(** [ImageTransform['src']]: [ImageMetadata | string]. *)
Inductive ImageSrc : Type :=
| SrcMetadata (m : ImageMetadata)
| SrcString (s : string).

(** An [ImageTransform]: its source and the rest of its options, which
    the code passes on untouched. *)
Record ImageTransform : Type := {
  src : ImageSrc;
  params : list (string * string)
}.

(** [config.image], passed on untouched. *)
Record ImageConfig : Type := {
  image_service : string;
  image_domains : list string
}.

Abbreviation URL := string.

(** The fields of [AstroConfig] the code reads. *)
Record AstroConfig : Type := {
  cacheDir : URL;
  outDir : URL;
  build_server : URL;
  build_client : URL;
  build_assets : string;
  image : ImageConfig;
  output : string
}.

(** [{ data: Buffer; expires: number }] *)
Record LoadedImage : Type := {
  data : Buffer;
  expires : Z
}.

(** [LocalImageService.transform]; its result's [data]. *)
Record LocalImageService : Type := {
  transform : Buffer -> ImageTransform -> ImageConfig -> Result Buffer
}.

(** [GenerationData]: [{ cached: true }] or
    [{ cached: false, weight: { before, after } }]. *)
Inductive GenerationData : Type :=
| GenerationDataCached
| GenerationDataUncached (before after : Z).

(** The return value of [prepareAssetsGeneration]; its [logger] is the
    log of the world below. *)
Record Env : Type := {
  useCache : bool;
  assetsCacheDir : URL;
  serverRoot : URL;
  clientRoot : URL;
  imageConfig : ImageConfig;
  assetsFolder : string
}.

(** Modelled from the spec: [isESMImportedImage] of [../internal.js],
    which is not under src/.  A source is local exactly when it is an
    imported [ImageMetadata] and remote when it is a URL string; the casts
    at lines 144-146 rely on it. *)
Definition isESMImportedImage (s : ImageSrc) : bool :=
  match s with
  | SrcMetadata _ => true
  | SrcString _ => false
  end.

(** What the module imports and does not define: functions of other
    modules of the repository, of [node:url], of [kleur], the image
    service and the remote fetch.  They are parameters of the embedding. *)
Record Platform : Type := {
  (** [new URL(relative, base)] *)
  new_URL : string -> URL -> URL;
  (** [join] of [node:path/posix] *)
  path_join : string -> string -> string;
  (** [../../core/path.js] *)
  isRemotePath : string -> bool;
  prependForwardSlash : string -> string;
  (** [../../prerender/utils.js], [../../core/build/common.js] *)
  isServerLikeOutput : AstroConfig -> bool;
  getOutDirWithinCwd : URL -> URL;
  (** [./remote.js]: the bytes and the expiry of a remote image *)
  loadRemoteImage : string -> Result LoadedImage;
  (** [../internal.js] *)
  getConfiguredImageService : Result LocalImageService;
  (** [../../core/build/util.js] and [kleur/colors] *)
  getTimeStat : Z -> Z -> string;
  dim : string -> string;
  green : string -> string;
  (** [x > now] when [x] is a string, an array or an object: ECMAScript's
      [ToPrimitive] and [ToNumber] conversions *)
  coerce_gt : JSON.json -> Z -> Result bool;
  (** [Buffer.from(x, 'base64')] when [x] is an array or an object *)
  Buffer_from_object : JSON.json -> Result Buffer;
  (** [x > now] when [x] is the number [m * 10^e] and is not an integer:
      the comparison of the double nearest to it *)
  fraction_gt : Z -> Z -> Z -> bool;
  (** [Buffer.from(s, 'base64')] when [s] has a character outside
      ASCII *)
  Buffer_from_wide_base64 : string -> Buffer
}.

(** ** The world: filesystem, clock, and a record of every call *)

Inductive event : Type :=
| EvMkdir (dir : URL)
| EvReadFile (path : URL)
| EvCopyFile (from to : URL)
| EvWriteFile (path : URL) (content : Buffer)
| EvLoadImage (path : string)
| EvFetch (url : string)
| EvGetService
| EvTransform (input : Buffer) (options : ImageTransform)
| EvWarn (label message : string)
| EvInfo (message : string).

(** [files]: the regular files and their bytes.  [dirs]: the directories
    that exist.  [read_faults], [write_faults]: the paths that cannot be
    read, or cannot be created or written, with the error code the
    operation fails with (a permission, a full or read-only volume, ...);
    the code tells whether a write fails when the file is opened or once
    it is open.  [clock]: epoch milliseconds, the time value [Date.now()]
    returns: an integer of magnitude at most 8.64e15, which a double
    holds exactly.  [trace]: every call made, oldest first; it holds the
    log. *)
Record World : Type := {
  files : gmap URL Buffer;
  dirs : gset URL;
  read_faults : gmap URL errno;
  write_faults : gmap URL errno;
  clock : Z;
  trace : list event
}.

Definition with_files (f : gmap URL Buffer) (w : World) : World :=
  {| files := f; dirs := dirs w; read_faults := read_faults w;
     write_faults := write_faults w; clock := clock w; trace := trace w |}.

Definition with_dirs (d : gset URL) (w : World) : World :=
  {| files := files w; dirs := d; read_faults := read_faults w;
     write_faults := write_faults w; clock := clock w; trace := trace w |}.

Definition record (ev : event) (w : World) : World :=
  {| files := files w; dirs := dirs w; read_faults := read_faults w;
     write_faults := write_faults w; clock := clock w;
     trace := trace w ++ [ev] |}.

(** A computation: it returns or throws, and leaves a world behind in
    both cases. *)
Definition M (A : Type) : Type := World -> Result A * World.

Definition ret {A} (a : A) : M A := fun w => (Ok a, w).

Definition throw {A} (e : exn) : M A := fun w => (Throw e, w).

Definition bind {A B} (m : M A) (k : A -> M B) : M B :=
  fun w =>
    match m w with
    | (Ok a, w') => k a w'
    | (Throw e, w') => (Throw e, w')
    end.

Definition lift {A} (r : Result A) : M A := fun w => (r, w).

Definition emit (ev : event) : M unit := fun w => (Ok tt, record ev w).

(** [try { body } catch (e) { handler }] *)
Definition try_catch {A} (body : M A) (handler : exn -> M A) : M A :=
  fun w =>
    match body w with
    | (Ok a, w') => (Ok a, w')
    | (Throw e, w') => handler e w'
    end.

(** [try { body } catch (e) { handler } finally { final }]: [final] runs
    on every exit of the first two blocks, and what it throws replaces
    their outcome. *)
Definition try_catch_finally {A} (body : M A) (handler : exn -> M A)
  (final : M unit) : M A :=
  fun w =>
    let (r, w1) := try_catch body handler w in
    match final w1 with
    | (Ok _, w2) => (r, w2)
    | (Throw e, w2) => (Throw e, w2)
    end.

Declare Scope js_scope.
Delimit Scope js_scope with js.
Notation "x <- m ;; k" := (bind m (fun x => k))
  (at level 100, m at next level, right associativity) : js_scope.
Notation "m ;;; k" := (bind m (fun _ => k))
  (at level 100, right associativity) : js_scope.

(** [basename] of [node:path/posix]: the last segment of a path, its
    trailing slashes dropped. *)
Definition is_slash (c : ascii) : bool := Ascii.eqb c "/".

Fixpoint drop_slashes (l : list ascii) : list ascii :=
  match l with
  | c :: r => if is_slash c then drop_slashes r else l
  | [] => []
  end.

Fixpoint take_segment (l : list ascii) : list ascii :=
  match l with
  | c :: r => if is_slash c then [] else c :: take_segment r
  | [] => []
  end.

Definition basename (path : string) : string :=
  string_of_list_ascii
    (rev (take_segment (drop_slashes (rev (list_ascii_of_string path))))).

(** [Date.now()] *)
Definition Date_now : M Z := fun w => (Ok (clock w), w).

(** [logger.warn(label, message)], [logger.info(null, message)] *)
Definition logger_warn (label message : string) : M unit :=
  emit (EvWarn label message).

Definition logger_info (message : string) : M unit :=
  emit (EvInfo message).

(** A file's text and its bytes.  Text is kept as its UTF-8 bytes, so
    both directions copy the bytes; an ill-formed sequence is not replaced
    as Node's decoder would. *)
Definition utf8_encode (s : string) : Buffer := list_byte_of_string s.
Definition utf8_decode (b : Buffer) : string := string_of_list_byte b.

(** ** The module [assets/build/generate.ts] *)

Section Generate.

Context (P : Platform).

Open Scope js_scope.

(** *** [node:fs] *)

(** The directory of a file: [new URL('./', file)]. *)
Definition parent (file : URL) : URL := new_URL P "./" file.

Definition fault_at (faults : World -> gmap URL errno) (path : URL)
  (syscall : string) : M unit :=
  fun w =>
    match faults w !! path with
    | Some code => (Throw (SystemError code syscall path), w)
    | None => (Ok tt, w)
    end.

(** The directories above [dir], nearest first: [new URL('../', dir)]
    for as long as it goes up. *)
Fixpoint ancestors (fuel : nat) (dir : URL) : list URL :=
  match fuel with
  | O => []
  | S n =>
      let up := new_URL P "../" dir in
      if String.eqb up dir then [] else up :: ancestors n up
  end.

(** [dir] and the directories above it. *)
Definition with_ancestors (dir : URL) : gset URL :=
  list_to_set (dir :: ancestors (String.length dir) dir).

(** [fs.promises.mkdir(dir, { recursive: true })]: [dir] is created
    together with every directory above it that is missing. *)
Definition mkdir_recursive (dir : URL) : M unit :=
  emit (EvMkdir dir) ;;;
  fault_at write_faults dir "mkdir" ;;;
  fun w => (Ok tt, with_dirs (with_ancestors dir ∪ dirs w) w).

(** Opening [path] for reading. *)
Definition open_read (path : URL) (syscall : string) : M Buffer :=
  fault_at read_faults path syscall ;;;
  fun w =>
    match files w !! path with
    | Some content => (Ok content, w)
    | None => (Throw (SystemError ENOENT syscall path), w)
    end.

(** A write can fail when the file is opened or created (a permission,
    a read-only volume, ...), or once it is open, when the bytes are
    written (the volume is full, the device fails). *)
Definition fails_once_open (code : errno) : bool :=
  match code with
  | ENOSPC | EIO => true
  | _ => false
  end.

Definition open_fault (w : World) (path : URL) : option errno :=
  match write_faults w !! path with
  | Some code => if fails_once_open code then None else Some code
  | None => None
  end.

Definition write_fault (w : World) (path : URL) : option errno :=
  match write_faults w !! path with
  | Some code => if fails_once_open code then Some code else None
  | None => None
  end.

(** Opening [path] to write it: its directory must exist. *)
Definition open_write (path : URL) (syscall : string) : M unit :=
  fun w =>
    match open_fault w path with
    | Some code => (Throw (SystemError code syscall path), w)
    | None =>
        if decide (parent path ∈ dirs w) then (Ok tt, w)
        else (Throw (SystemError ENOENT syscall path), w)
    end.

(** [fs.promises.readFile(path)], [readFileSync(path, 'utf-8')] *)
Definition readFile (path : URL) : M Buffer :=
  emit (EvReadFile path) ;;; open_read path "open".

Definition readFileSync_utf8 (path : URL) : M string :=
  content <- readFile path ;; ret (utf8_decode content).

(** [fs.promises.writeFile(path, content)]: the file is opened with the
    flag [w], which creates or empties it, then written.  When the write
    fails the file stays, empty; the error is that of the call on the
    open file. *)
Definition writeFile (path : URL) (content : Buffer) : M unit :=
  emit (EvWriteFile path content) ;;;
  open_write path "open" ;;;
  fun w =>
    match write_fault w path with
    | Some code =>
        (Throw (FileError code "write"),
         with_files (<[path := []]> (files w)) w)
    | None => (Ok tt, with_files (<[path := content]> (files w)) w)
    end.

(** [fs.promises.copyFile(from, to)]: the source is opened, then the
    destination; when both are one file it is left alone; otherwise the
    destination is emptied and written.  When the copy fails once the
    destination is open, [libuv] removes the destination. *)
Definition copyFile (from to : URL) : M unit :=
  emit (EvCopyFile from to) ;;;
  content <- open_read from "copyfile" ;;
  open_write to "copyfile" ;;;
  fun w =>
    if decide (from = to) then (Ok tt, w)
    else
      match write_fault w to with
      | Some code =>
          (Throw (SystemError code "copyfile" to),
           with_files (delete to (files w)) w)
      | None => (Ok tt, with_files (<[to := content]> (files w)) w)
      end.

(** How [writeFile(path, _)] fails where the faults are [faults] and the
    directories are [d], if it does: the error thrown, and whether the
    file has been created or emptied by then. *)
Definition write_failure (faults : gmap URL errno) (d : gset URL)
  (path : URL) : option (exn * bool) :=
  match faults !! path with
  | Some code =>
      if fails_once_open code then
        if decide (parent path ∈ d)
        then Some (FileError code "write", true)
        else Some (SystemError ENOENT "open" path, false)
      else Some (SystemError code "open" path, false)
  | None =>
      if decide (parent path ∈ d) then None
      else Some (SystemError ENOENT "open" path, false)
  end.

(** *** Values read back from a cache entry *)

(** [x > Date.now()] for a member [x] of a parsed entry.  [now] is a
    time value.  For a number that is an integer the comparison is the
    exact one: the double nearest to an integer lies on the same side of
    a time value as the integer. *)
Definition js_gt (x : option JSON.json) (now : Z) : Result bool :=
  match x with
  | None => Ok false
  | Some JSON.JNull => Ok (now <? 0)
  | Some (JSON.JBool b) => Ok (now <? (if b then 1 else 0))
  | Some (JSON.JNum m e) =>
      match JSON.integer_value m e with
      | Some v => Ok (now <? v)
      | None => Ok (fraction_gt P m e now)
      end
  | Some v => coerce_gt P v now
  end.

(** [Buffer.from(x, 'base64')] for a member [x] of a parsed entry. *)
Definition Buffer_from_base64 (x : option JSON.json) : Result Buffer :=
  match x with
  | Some (JSON.JStr s) =>
      if Base64.is_ascii s then Ok (Base64.decode s)
      else Ok (Buffer_from_wide_base64 P s)
  | Some (JSON.JArr items) => Buffer_from_object P (JSON.JArr items)
  | Some (JSON.JObj ms) => Buffer_from_object P (JSON.JObj ms)
  | _ =>
      Throw (TypeError
        "The first argument must be of type string or an instance of Buffer, ArrayBuffer, or Array or an Array-like Object.")
  end.

(** *** [prepareAssetsGeneration] (lines 29-64) *)

Definition prepareAssetsGeneration (config : AstroConfig) : M Env :=
  let assetsCacheDir := new_URL P "assets/" (cacheDir config) in
  useCache <-
    try_catch
      (mkdir_recursive assetsCacheDir ;;; ret true)
      (fun err =>
         logger_warn "astro:assets"
           ("An error was encountered while creating the cache directory. Proceeding without caching. Error: "
              ++ exn_toString err) ;;;
         ret false) ;;
  let roots :=
    if isServerLikeOutput P config
    then (build_server config, build_client config)
    else (getOutDirWithinCwd P (outDir config), outDir config) in
  ret {| useCache := useCache;
         assetsCacheDir := assetsCacheDir;
         serverRoot := fst roots;
         clientRoot := snd roots;
         imageConfig := image config;
         assetsFolder := build_assets config |}.

(** *** [loadImage] (lines 206-224) *)

Definition loadImage (path : string) (env : Env) : M LoadedImage :=
  emit (EvLoadImage path) ;;;
  if isRemotePath P path then
    emit (EvFetch path) ;;;
    remoteImage <- lift (loadRemoteImage P path) ;;
    ret {| data := data remoteImage; expires := expires remoteImage |}
  else
    content <-
      readFile
        (new_URL P
           ("." ++ prependForwardSlash P
                     (path_join P (assetsFolder env) (basename path)))
           (serverRoot env)) ;;
    ret {| data := content; expires := 0 |}.

(** *** [generateImageInternal] (lines 101-195) *)

(** The name of the cache entry (line 110). *)
Definition cacheFile (filepath : string) (isLocalImage : bool) : string :=
  basename filepath ++ (if isLocalImage then EmptyString else ".json").

(** The [catch] clause of lines 133-138: an error whose [code] is
    [ENOENT] is let through ("If the cache file doesn't exist, just move
    on, and we'll generate it"), any other is wrapped and rethrown. *)
Definition catchCacheError (e : exn) : M (option GenerationData) :=
  if decide (exn_code e = Some ENOENT) then ret None
  else
    throw (Error
      ("An error was encountered while reading the cache file. Error: "
         ++ exn_toString e)).

(** Lines 113-138, "Check if we have a cached entry first": [Some] is
    the value returned from inside the [try], [None] is falling out of
    the statement. *)
Definition cacheLookup (isLocalImage : bool)
  (cachedFileURL finalFileURL : URL) : M (option GenerationData) :=
  try_catch
    (if isLocalImage then
       copyFile cachedFileURL finalFileURL ;;;
       ret (Some GenerationDataCached)
     else
       text <- readFileSync_utf8 cachedFileURL ;;
       JSONData <- lift (JSON.parse text) ;;
       entry_expires <- lift (JSON.get_member JSONData "expires") ;;
       now <- Date_now ;;
       unexpired <- lift (js_gt entry_expires now) ;;
       if (unexpired : bool) then
         entry_data <- lift (JSON.get_member JSONData "data") ;;
         content <- lift (Buffer_from_base64 entry_data) ;;
         writeFile finalFileURL content ;;;
         ret (Some GenerationDataCached)
       else ret None)
    catchCacheError.

(** The text of a remote-backed entry (lines 170-173). *)
Definition remoteEntryText (content : Buffer) (expiry : Z) : string :=
  JSON.stringify_entry (Base64.encode content) expiry.

(** Lines 162-185: the cache entry, then the final file in [finally]. *)
Definition writeCacheAndFinal (env : Env) (isLocalImage : bool)
  (cachedFileURL finalFileURL : URL) (content : Buffer) (expiry : Z)
  : M unit :=
  try_catch_finally
    (if useCache env then
       if isLocalImage then writeFile cachedFileURL content
       else
         writeFile cachedFileURL
           (utf8_encode (remoteEntryText content expiry))
     else ret tt)
    (fun e =>
       logger_warn "astro:assets"
         ("An error was encountered while creating the cache directory. Proceeding without caching. Error: "
            ++ exn_toString e))
    (writeFile finalFileURL content).

(** [Math.trunc(byteLength / 1024)] *)
Definition kilobytes (b : Buffer) : Z := Z.quot (byteLength b) 1024.

Definition finalFileURL_of (env : Env) (filepath : string) : URL :=
  new_URL P ("." ++ filepath) (clientRoot env).

Definition cachedFileURL_of (env : Env) (filepath : string)
  (options : ImageTransform) : URL :=
  new_URL P (cacheFile filepath (isESMImportedImage (src options)))
    (assetsCacheDir env).

(** Lines 143-146 and 157: the options handed to the service. *)
Definition originalImagePath (options : ImageTransform) : string :=
  match src options with
  | SrcMetadata m => meta_src m
  | SrcString s => s
  end.

Definition serviceOptions (options : ImageTransform) : ImageTransform :=
  {| src := SrcString (originalImagePath options);
     params := params options |}.

(** Lines 140-194: what follows a lookup that found nothing to reuse. *)
Definition regenerate (env : Env) (originalImage : LoadedImage)
  (options : ImageTransform) (isLocalImage : bool)
  (cachedFileURL finalFileURL : URL) : M GenerationData :=
  let finalFolderURL := new_URL P "./" finalFileURL in
  mkdir_recursive finalFolderURL ;;;
  let resultData_expires := expires originalImage in
  emit EvGetService ;;;
  imageService <- lift (getConfiguredImageService P) ;;
  emit (EvTransform (data originalImage) (serviceOptions options)) ;;;
  resultData_data <-
    lift (transform imageService (data originalImage)
            (serviceOptions options) (imageConfig env)) ;;
  writeCacheAndFinal env isLocalImage cachedFileURL finalFileURL
    resultData_data resultData_expires ;;;
  ret (GenerationDataUncached
         (kilobytes (data originalImage))
         (kilobytes resultData_data)).

Definition generateImageInternal (env : Env) (originalImage : LoadedImage)
  (filepath : string) (options : ImageTransform) : M GenerationData :=
  let isLocalImage := isESMImportedImage (src options) in
  let finalFileURL := finalFileURL_of env filepath in
  let cachedFileURL := cachedFileURL_of env filepath options in
  cached <- cacheLookup isLocalImage cachedFileURL finalFileURL ;;
  match cached with
  | Some generationData => ret generationData
  | None =>
      regenerate env originalImage options isLocalImage
        cachedFileURL finalFileURL
  end.

(** *** [generateImage] (lines 80-99) *)

Definition statsText (generationData : GenerationData) : string :=
  match generationData with
  | GenerationDataCached => "(reused cache entry)"
  | GenerationDataUncached before after =>
      "(before: " ++ JSON.number_toString before ++ "kB, after: "
        ++ JSON.number_toString after ++ "kB)"
  end.

(** [performance.now()] reads the clock of the world.  The test
    [if (!generationData) return] never fires: [generateImageInternal]
    returns an object on every path that returns. *)
Definition generateImage (env : Env) (originalImage : LoadedImage)
  (filepath : string) (options : ImageTransform) : M unit :=
  timeStart <- Date_now ;;
  generationData <-
    generateImageInternal env originalImage filepath options ;;
  timeEnd <- Date_now ;;
  let timeChange := getTimeStat P timeStart timeEnd in
  let timeIncrease := "(+" ++ timeChange ++ ")" in
  logger_info
    ("  " ++ green P "▶" ++ " " ++ filepath ++ " "
       ++ dim P (statsText generationData) ++ " " ++ dim P timeIncrease).

(** *** [generateImagesForPath] (lines 66-78) *)

(** A function handed to [queue.add]: the closure over the loaded image,
    the final path and the transform. *)
Record Job : Type := {
  job_image : LoadedImage;
  job_filepath : string;
  job_options : ImageTransform
}.

(** The value of an entry of the [transforms] map. *)
Record TransformEntry : Type := {
  finalPath : string;
  entry_transform : ImageTransform
}.

(** The queue is the list of the functions added to it, oldest first;
    the [transforms] map is iterated in insertion order.  [p-queue] may
    start a function as soon as it is added; that is after the [await] of
    [loadImage] all the same. *)
Definition generateImagesForPath (originalFilePath : string)
  (transforms : list (string * TransformEntry)) (env : Env)
  (queue : list Job) : M (list Job) :=
  originalImageData <- loadImage originalFilePath env ;;
  ret (queue ++
       map (fun kv =>
              {| job_image := originalImageData;
                 job_filepath := finalPath (snd kv);
                 job_options := entry_transform (snd kv) |})
           transforms)%list.

(** Running a queued function. *)
Definition run_job (env : Env) (j : Job) : M unit :=
  generateImage env (job_image j) (job_filepath j) (job_options j).

(** The queue run to its end, one job after the other: the outcome of
    each job, and the world they leave. *)
Fixpoint run_queue (env : Env) (queue : list Job) (w : World)
  : list (Result unit) * World :=
  match queue with
  | [] => ([], w)
  | j :: rest =>
      let (r, w1) := run_job env j w in
      let (rs, w2) := run_queue env rest w1 in
      (r :: rs, w2)
  end.

End Generate.

(** ** Vocabulary of the statements *)

(** The error thrown at line 135 for the caught [e]. *)
Definition cacheReadError (e : exn) : exn :=
  Error ("An error was encountered while reading the cache file. Error: "
           ++ exn_toString e).

(** The warning logged at lines 178-181 for the caught [e]. *)
Definition cacheWriteWarning (e : exn) : event :=
  EvWarn "astro:assets"
    ("An error was encountered while creating the cache directory. Proceeding without caching. Error: "
       ++ exn_toString e).

(** Calls of the Source Loader in a trace: [loadImage] and the fetch it
    delegates to. *)
Definition is_load (ev : event) : bool :=
  match ev with
  | EvLoadImage _ => true
  | _ => false
  end.

Definition is_fetch (ev : event) : bool :=
  match ev with
  | EvFetch _ => true
  | _ => false
  end.

Definition is_transform (ev : event) : bool :=
  match ev with
  | EvGetService | EvTransform _ _ => true
  | _ => false
  end.

Definition count (p : event -> bool) (t : list event) : nat :=
  length (filter (fun ev => p ev = true) t).

(** Two worlds with the same files, directories, faults and clock. *)
Definition same_store (w w' : World) : Prop :=
  files w' = files w /\ dirs w' = dirs w
  /\ read_faults w' = read_faults w /\ write_faults w' = write_faults w
  /\ clock w' = clock w.

(** [env] with its [useCache] flag set to [b]. *)
Definition set_useCache (b : bool) (env : Env) : Env :=
  {| useCache := b;
     assetsCacheDir := assetsCacheDir env;
     serverRoot := serverRoot env;
     clientRoot := clientRoot env;
     imageConfig := imageConfig env;
     assetsFolder := assetsFolder env |}.

(** A computation that makes no call of the kind [p]. *)
Definition silent (p : event -> bool) {A} (m : M A) : Prop :=
  forall w, count p (trace (snd (m w))) = count p (trace w).

(** The ways a remote-backed entry cannot be read back, with what is
    thrown inside the [try]: the read fails with a code other than
    [ENOENT]; the text is not JSON; the text is the JSON value [null]. *)
Inductive unreadable (w : World) (cached : URL) : exn -> Prop :=
| unreadable_fault code :
    read_faults w !! cached = Some code ->
    code <> ENOENT ->
    unreadable w cached (SystemError code "open" cached)
| unreadable_syntax bytes e :
    read_faults w !! cached = None ->
    files w !! cached = Some bytes ->
    JSON.parse (utf8_decode bytes) = Throw e ->
    unreadable w cached e
| unreadable_null bytes e :
    read_faults w !! cached = None ->
    files w !! cached = Some bytes ->
    JSON.parse (utf8_decode bytes) = Ok JSON.JNull ->
    JSON.get_member JSON.JNull "expires" = Throw e ->
    unreadable w cached e.

(** [p] selects calls of the Source Loader only. *)
Definition loader_only (p : event -> bool) : Prop :=
  forall ev, p ev = true -> is_load ev = true \/ is_fetch ev = true.

(** The world at another time. *)
Definition with_clock (now : Z) (w : World) : World :=
  {| files := files w; dirs := dirs w; read_faults := read_faults w;
     write_faults := write_faults w; clock := now; trace := trace w |}.

(** What a job on the cache entry [cached] and the final file [final]
    may have done to the world: files other than these two are as they
    were, no directory outside [made] has been created, and the record
    of calls has only grown. *)
Definition job_frame (cached final : URL) (made : gset URL)
  (w w' : World) : Prop :=
  (forall p, p <> cached -> p <> final -> files w' !! p = files w !! p)
  /\ (dirs w' = dirs w \/ dirs w' = made ∪ dirs w)
  /\ exists evs, trace w' = (trace w ++ evs)%list.

(** Lines of the info log, and invocations of the transform. *)
Definition is_info (ev : event) : bool :=
  match ev with
  | EvInfo _ => true
  | _ => false
  end.

Definition is_transform_call (ev : event) : bool :=
  match ev with
  | EvTransform _ _ => true
  | _ => false
  end.

(** The filesystem calls and the warnings. *)
Definition is_bookkeeping (ev : event) : bool :=
  match ev with
  | EvMkdir _ | EvReadFile _ | EvCopyFile _ _ | EvWriteFile _ _
  | EvWarn _ _ => true
  | _ => false
  end.

(** [p] selects neither a filesystem call nor a warning. *)
Definition ignores_bookkeeping (p : event -> bool) : Prop :=
  forall ev, is_bookkeeping ev = true -> p ev = false.

(** A file name: a string without a slash. *)
Definition has_no_slash (s : string) : bool :=
  forallb (fun c => negb (is_slash c)) (list_ascii_of_string s).

(** ** A small concrete platform and concrete worlds

    They serve to run the definitions on explicit inputs. *)

Module Demo.

Fixpoint drop_segment (l : list ascii) : list ascii :=
  match l with
  | c :: r => if is_slash c then l else drop_segment r
  | [] => []
  end.

(** The directory part of a URL, with its final slash. *)
Definition dir_of (u : URL) : URL :=
  string_of_list_ascii (rev (drop_segment (rev (list_ascii_of_string u)))).

Definition strip_dot_slash (rel : string) : string :=
  match rel with
  | String "." (String "/" r) => r
  | _ => rel
  end.

Definition drop_last_slash (l : list ascii) : list ascii :=
  match l with
  | c :: r => if is_slash c then r else l
  | [] => []
  end.

(** The directory above a directory; the root is its own. *)
Definition up_of (dir : URL) : URL :=
  if String.eqb dir "file:///" then dir
  else
    string_of_list_ascii
      (rev (drop_segment (drop_last_slash (rev (list_ascii_of_string dir))))).

(** Resolution of the relative references the module builds, and of
    [../]. *)
Definition resolve (rel : string) (base : URL) : URL :=
  if String.eqb rel "../" then up_of (dir_of base)
  else dir_of base ++ strip_dot_slash rel.

(** A service that reverses the bytes, and one that rejects its input. *)
Definition reversing : LocalImageService :=
  {| transform := fun input _ _ => Ok (rev input) |}.

Definition rejecting : LocalImageService :=
  {| transform := fun _ _ _ =>
       Throw (ForeignError "Unsupported image format") |}.

Definition remote_png : LoadedImage :=
  {| data := [x89; x50; x4e; x47; x0d]; expires := 5000 |}.

Definition platform (service : LocalImageService) : Platform :=
  {| new_URL := resolve;
     path_join := fun a b => a ++ "/" ++ b;
     isRemotePath := fun p => String.prefix "http" p;
     prependForwardSlash := fun p =>
       if String.prefix "/" p then p else "/" ++ p;
     isServerLikeOutput := fun c => String.eqb (output c) "server";
     getOutDirWithinCwd := fun u => u;
     loadRemoteImage := fun _ => Ok remote_png;
     getConfiguredImageService := Ok service;
     getTimeStat := fun a b => JSON.number_toString (b - a) ++ "ms";
     dim := fun s => s;
     green := fun s => s;
     coerce_gt := fun _ _ => Ok false;
     Buffer_from_object := fun _ => Ok [];
     fraction_gt := fun _ _ _ => false;
     Buffer_from_wide_base64 := fun _ => [] |}.

Definition node : Platform := platform reversing.

Definition sharp_config : ImageConfig :=
  {| image_service := "astro/assets/services/sharp"; image_domains := [] |}.

Definition config : AstroConfig :=
  {| cacheDir := "file:///site/node_modules/.astro/";
     outDir := "file:///site/dist/";
     build_server := "file:///site/dist/server/";
     build_client := "file:///site/dist/client/";
     build_assets := "_astro";
     image := sharp_config;
     output := "static" |}.

Definition cache_dir : URL := "file:///site/node_modules/.astro/assets/".
Definition out_dir : URL := "file:///site/dist/_astro/".

Definition env (caching : bool) : Env :=
  {| useCache := caching;
     assetsCacheDir := cache_dir;
     serverRoot := "file:///site/dist/";
     clientRoot := "file:///site/dist/";
     imageConfig := sharp_config;
     assetsFolder := "_astro" |}.

(** A local source and a remote one, with one transform each. *)
Definition penguin : ImageMetadata :=
  {| meta_src := "/_astro/penguin.abc123.png";
     meta_width := 400; meta_height := 300; meta_format := "png" |}.

Definition local_options : ImageTransform :=
  {| src := SrcMetadata penguin; params := [("width", "100")] |}.

Definition remote_options : ImageTransform :=
  {| src := SrcString "https://example.com/cat.png";
     params := [("width", "100")] |}.

Definition local_image : LoadedImage :=
  {| data := [x01; x02; x03; x04]; expires := 0 |}.

(** A source of 2048 bytes. *)
Definition big_image : LoadedImage :=
  {| data := repeat x2a 2048; expires := 0 |}.

Definition local_filepath : string := "/_astro/penguin.abc123_Z1.webp".
Definition remote_filepath : string := "/_astro/cat_Z2.webp".

Definition local_final : URL :=
  "file:///site/dist/_astro/penguin.abc123_Z1.webp".
Definition local_cached : URL :=
  "file:///site/node_modules/.astro/assets/penguin.abc123_Z1.webp".
Definition remote_final : URL := "file:///site/dist/_astro/cat_Z2.webp".
Definition remote_cached : URL :=
  "file:///site/node_modules/.astro/assets/cat_Z2.webp.json".

(** A world at time [now] with the given files, both directories in
    place and nothing failing. *)
Definition world (now : Z) (fs : gmap URL Buffer) : World :=
  {| files := fs;
     dirs := {[cache_dir; out_dir]};
     read_faults := ∅;
     write_faults := ∅;
     clock := now;
     trace := [] |}.

(** The same with writes to [path] failing with [code]. *)
Definition world_unwritable (now : Z) (fs : gmap URL Buffer) (path : URL)
  (code : errno) : World :=
  {| files := fs;
     dirs := {[cache_dir; out_dir]};
     read_faults := ∅;
     write_faults := {[path := code]};
     clock := now;
     trace := [] |}.

(** The same with reads of [path] failing with [code]. *)
Definition world_unreadable (now : Z) (fs : gmap URL Buffer) (path : URL)
  (code : errno) : World :=
  {| files := fs;
     dirs := {[cache_dir; out_dir]};
     read_faults := {[path := code]};
     write_faults := ∅;
     clock := now;
     trace := [] |}.

(** A world whose output directory has not been created. *)
Definition world_without_out_dir (now : Z) (fs : gmap URL Buffer) : World :=
  {| files := fs;
     dirs := {[cache_dir]};
     read_faults := ∅;
     write_faults := ∅;
     clock := now;
     trace := [] |}.

(** Worlds with a cache entry in place. *)
Definition world_with_local_entry (now : Z) : World :=
  world now {[local_cached := [xca; xfe]]}.

Definition world_with_remote_text (now : Z) (text : string) : World :=
  world now {[remote_cached := utf8_encode text]}.


(** A platform whose image service cannot be loaded. *)
Definition without_service : Platform :=
  {| new_URL := resolve;
     path_join := fun a b => a ++ "/" ++ b;
     isRemotePath := fun p => String.prefix "http" p;
     prependForwardSlash := fun p =>
       if String.prefix "/" p then p else "/" ++ p;
     isServerLikeOutput := fun c => String.eqb (output c) "server";
     getOutDirWithinCwd := fun u => u;
     loadRemoteImage := fun _ => Ok remote_png;
     getConfiguredImageService :=
       Throw (ForeignError "Could not find the image service");
     getTimeStat := fun a b => JSON.number_toString (b - a) ++ "ms";
     dim := fun s => s;
     green := fun s => s;
     coerce_gt := fun _ _ => Ok false;
     Buffer_from_object := fun _ => Ok [];
     fraction_gt := fun _ _ _ => false;
     Buffer_from_wide_base64 := fun _ => [] |}.

(** The same transform at another width. *)
Definition wider_options : ImageTransform :=
  {| src := SrcMetadata penguin; params := [("width", "200")] |}.

(** An entry that has an expiry and no data. *)
Definition entry_without_data : string :=
  "{" ++ JSON.quote "expires" ++ ":5000}".

End Demo.

(** * Facts *)

(** ** Base64: decoding inverts encoding *)

Module Base64Facts.
Import Base64.

Lemma char_of_spec n :
  (n < 64)%N ->
  unbase64 (char_of n) = Some n
  /\ Ascii.eqb (char_of n) "="%char = false.
Proof.
  intros Hn.
  assert (Hall : forallb (fun k =>
            match unbase64 (char_of k) with
            | Some v => (v =? k)%N
            | None => false
            end && negb (Ascii.eqb (char_of k) "="%char))
          (map N.of_nat (seq 0 64)) = true) by (vm_compute; reflexivity).
  rewrite forallb_forall in Hall.
  specialize (Hall n).
  assert (Hin : In n (map N.of_nat (seq 0 64))).
  { apply in_map_iff. exists (N.to_nat n). split; [lia|].
    apply in_seq. lia. }
  apply Hall in Hin.
  apply andb_prop in Hin as [Hu He].
  destruct (unbase64 (char_of n)) as [v|]; [|discriminate].
  apply N.eqb_eq in Hu. subst v.
  apply negb_true_iff in He. auto.
Qed.

Lemma byte_of_to_N b : byte_of (Byte.to_N b) = b.
Proof.
  unfold byte_of.
  pose proof (Byte.to_N_bounded b) as Hb.
  rewrite N.mod_small by lia.
  now rewrite Byte.of_to_N.
Qed.

Lemma byte_of_eq n b : n = Byte.to_N b -> byte_of n = b.
Proof. intros ->. apply byte_of_to_N. Qed.

Lemma sextets_cons n r :
  (n < 64)%N -> sextets (String (char_of n) r) = n :: sextets r.
Proof.
  intros Hn. destruct (char_of_spec n Hn) as (Hu & He).
  simpl. now rewrite He, Hu.
Qed.

Ltac div_lia := zify; Z.to_euclidean_division_equations; lia.

Ltac sextet_bound :=
  match goal with
  | |- (_ < 64)%N =>
      repeat match goal with
             | b : byte |- _ =>
                 lazymatch goal with
                 | _ : (Byte.to_N b <= 255)%N |- _ => fail
                 | _ => pose proof (Byte.to_N_bounded b)
                 end
             end;
      div_lia
  end.

(** Decoding inverts encoding, for every buffer. *)
Lemma decode_encode : forall bs, decode (encode bs) = bs.
Proof.
  unfold decode.
  fix IH 1.
  intros [|a [|b [|c rest]]].
  - reflexivity.
  - cbn [encode].
    rewrite !sextets_cons by sextet_bound.
    cbn [sextets bytes_of_sextets]. simpl Ascii.eqb. cbn iota.
    pose proof (Byte.to_N_bounded a).
    f_equal. apply byte_of_eq. div_lia.
  - cbn [encode].
    rewrite !sextets_cons by sextet_bound.
    cbn [sextets bytes_of_sextets]. simpl Ascii.eqb. cbn iota.
    pose proof (Byte.to_N_bounded a). pose proof (Byte.to_N_bounded b).
    f_equal; [|f_equal].
    + apply byte_of_eq. div_lia.
    + apply byte_of_eq. div_lia.
  - cbn [encode].
    rewrite !sextets_cons by sextet_bound.
    cbn [bytes_of_sextets].
    pose proof (Byte.to_N_bounded a). pose proof (Byte.to_N_bounded b).
    pose proof (Byte.to_N_bounded c).
    rewrite (IH rest).
    f_equal; [|f_equal; [|f_equal]].
    + apply byte_of_eq. div_lia.
    + apply byte_of_eq. div_lia.
    + apply byte_of_eq. div_lia.
Qed.

Lemma char_of_ascii n : (N_of_ascii (char_of n) <? 128)%N = true.
Proof.
  unfold char_of. generalize (N.to_nat n) as k. intros k.
  do 65 (destruct k as [|k]; [reflexivity|]).
  reflexivity.
Qed.

(** What [encode] produces is a string of ASCII characters. *)
Lemma is_ascii_encode : forall bs, is_ascii (encode bs) = true.
Proof.
  fix IH 1.
  intros [|a [|b [|c rest]]]; cbn [encode is_ascii];
    rewrite ?char_of_ascii, ?IH; reflexivity.
Qed.

End Base64Facts.

(** ** JSON: parsing inverts the stringification of an entry *)

Module JSONFacts.
Import JSON.

Lemma app_String c (s r : string) :
  (String c s ++ r)%string = String c (s ++ r).
Proof. reflexivity. Qed.

Lemma append_assoc (a b c : string) : ((a ++ b) ++ c = a ++ (b ++ c))%string.
Proof.
  induction a as [|x a IH]; [reflexivity|]. now rewrite !app_String, IH.
Qed.

Lemma parse_quote_low k r :
  In k (34 :: 92 :: map N.of_nat (seq 0 32))%N ->
  parse_string_body (quote_char (ascii_of_N k) ++ r) =
  cons_parsed (ascii_of_N k) (parse_string_body r).
Proof.
  cbn [seq map In].
  intros H.
  repeat (destruct H as [<-|H]; [reflexivity|]).
  destruct H.
Qed.

Lemma parse_quote_char c r :
  parse_string_body (quote_char c ++ r) =
  cons_parsed c (parse_string_body r).
Proof.
  destruct (N.ltb_spec (N_of_ascii c) 32) as [Hlt|Hge].
  - rewrite <- (ascii_N_embedding c). apply parse_quote_low.
    right. right. apply in_map_iff. exists (N.to_nat (N_of_ascii c)).
    split; [lia|]. apply in_seq. lia.
  - destruct (N.eqb_spec (N_of_ascii c) 34) as [E|N1].
    { rewrite <- (ascii_N_embedding c), E. reflexivity. }
    destruct (N.eqb_spec (N_of_ascii c) 92) as [E|N2].
    { rewrite <- (ascii_N_embedding c), E. reflexivity. }
    assert (Hq : quote_char c = String c EmptyString).
    { unfold quote_char.
      repeat match goal with
             | |- context [(?a =? ?b)%N] =>
                 destruct (N.eqb_spec a b); [lia|]
             end.
      destruct (N.ltb_spec (N_of_ascii c) 32); [lia|reflexivity]. }
    rewrite Hq. change (String c EmptyString ++ r)%string with (String c r).
    cbn [parse_string_body].
    assert (Hd : Ascii.eqb c dquote = false).
    { apply Ascii.eqb_neq. intros ->. now apply N1. }
    assert (Hb : Ascii.eqb c backslash = false).
    { apply Ascii.eqb_neq. intros ->. now apply N2. }
    rewrite Hd, Hb.
    destruct (N.ltb_spec (N_of_ascii c) 32); [lia|reflexivity].
Qed.

Lemma parse_quote_body d r :
  parse_string_body (quote_body d ++ String dquote r) = Some (d, r).
Proof.
  induction d as [|c d IH].
  - reflexivity.
  - cbn [quote_body]. rewrite append_assoc, parse_quote_char.
    now rewrite IH.
Qed.

Lemma scan_string_of_uint u r :
  no_digit_ahead r ->
  scan_uint (NilEmpty.string_of_uint u ++ r) = (u, r).
Proof.
  intros Hr.
  induction u; cbn [NilEmpty.string_of_uint];
    try (rewrite app_String; cbn [scan_uint]; cbn; now rewrite IHu).
  destruct r as [|c r]; [reflexivity|].
  change (scan_uint (String c r) = (Nil, String c r)).
  cbn [scan_uint]. unfold no_digit_ahead in Hr. now rewrite Hr.
Qed.

Lemma to_uint_shape p :
  is_nil (Pos.to_uint p) = false /\ leading_zero (Pos.to_uint p) = false.
Proof.
  pose proof (Unsigned.to_uint_nonnil p) as Hnil.
  pose proof (Unsigned.to_of (Pos.to_uint p)) as Hn.
  rewrite Unsigned.of_to in Hn. cbn [N.to_uint] in Hn.
  destruct (Pos.to_uint p) as [|u|u|u|u|u|u|u|u|u|u]; try easy.
  split; [reflexivity|].
  destruct u; try reflexivity; exfalso;
    rewrite unorm_D0 in Hn;
    match type of Hn with
    | D0 ?v = unorm ?v =>
        assert (Hv : v <> Nil) by discriminate;
        pose proof (nb_digits_unorm v Hv) as Hle;
        rewrite <- Hn in Hle; cbn [nb_digits] in Hle; lia
    end.
Qed.

Lemma parse_unsigned_uint neg u r :
  is_nil u = false -> leading_zero u = false -> ends_number r ->
  parse_unsigned neg (NilEmpty.string_of_uint u ++ r)
  = Some (JNum (signed neg (Z.of_uint u)) 0, r).
Proof.
  intros Hn Hz Hr. unfold parse_unsigned.
  rewrite scan_string_of_uint
    by (destruct r; [exact I|apply Hr]).
  rewrite Hn, Hz. cbn [orb].
  destruct r as [|c r].
  - cbn zeta. now rewrite DecimalFacts.app_nil_r.
  - destruct Hr as (_ & -> & -> & ->). cbn [orb]. cbn zeta.
    now rewrite DecimalFacts.app_nil_r.
Qed.

Lemma parse_number_toString x r :
  ends_number r ->
  parse_number (number_toString x ++ r) = Some (JNum x 0, r).
Proof.
  intros Hr.
  unfold number_toString, parse_number.
  destruct x as [|p|p]; cbn [Z.to_int NilZero.string_of_int].
  - change (NilZero.string_of_uint zero ++ r)%string
      with (String "0" (NilEmpty.string_of_uint Nil ++ r)).
    cbn [Ascii.eqb Bool.eqb].
    change (String "0" (NilEmpty.string_of_uint Nil ++ r))
      with (NilEmpty.string_of_uint zero ++ r)%string.
    now rewrite parse_unsigned_uint.
  - destruct (to_uint_shape p) as [Hn Hz].
    assert (Hs : NilZero.string_of_uint (Pos.to_uint p)
                 = NilEmpty.string_of_uint (Pos.to_uint p)).
    { unfold NilZero.string_of_uint.
      destruct (Pos.to_uint p); [discriminate|reflexivity..]. }
    rewrite Hs.
    assert (Hm : forall (A : Type) (f g : string -> A) (k : A),
               match (NilEmpty.string_of_uint (Pos.to_uint p) ++ r)%string
               with
               | String c r0 =>
                   if Ascii.eqb c "-" then f r0
                   else g (NilEmpty.string_of_uint (Pos.to_uint p) ++ r)%string
               | EmptyString => k
               end = g (NilEmpty.string_of_uint (Pos.to_uint p) ++ r)%string).
    { intros A f g k. destruct (Pos.to_uint p); try discriminate; reflexivity. }
    rewrite (Hm _ (parse_unsigned true) (parse_unsigned false)).
    rewrite parse_unsigned_uint by assumption.
    cbn [signed]. do 3 f_equal. unfold Z.of_uint.
    now rewrite Unsigned.of_to.
  - destruct (to_uint_shape p) as [Hn Hz].
    assert (Hs : NilZero.string_of_uint (Pos.to_uint p)
                 = NilEmpty.string_of_uint (Pos.to_uint p)).
    { unfold NilZero.string_of_uint.
      destruct (Pos.to_uint p); [discriminate|reflexivity..]. }
    rewrite Hs, app_String. cbn [Ascii.eqb Bool.eqb].
    rewrite parse_unsigned_uint by assumption.
    cbn [signed]. do 3 f_equal. unfold Z.of_uint.
    now rewrite Unsigned.of_to.
Qed.

Lemma stringify_entry_shape d x r :
  (stringify_entry d x ++ r)%string =
  String "{" (String dquote ("data" ++ String dquote (String ":"
    (String dquote (quote_body d ++ String dquote (String ","
      (String dquote ("expires" ++ String dquote (String ":"
        (number_toString x ++ String "}" r))))))))))%string.
Proof.
  unfold stringify_entry, quote.
  repeat (rewrite ?app_String, ?append_assoc).
  cbv [quote_body quote_char]. cbn.
  repeat (rewrite ?app_String, ?append_assoc).
  reflexivity.
Qed.

Lemma starts_number_cases c r :
  starts_number (String c r) = true ->
  In c (list_ascii_of_string "-0123456789").
Proof.
  unfold starts_number.
  destruct c as [[] [] [] [] [] [] [] []]; vm_compute; intros H;
    try discriminate H; auto 20.
Qed.

Lemma parse_value_number n s :
  starts_number s = true -> parse_value (S n) s = parse_number s.
Proof.
  destruct s as [|c r]; [discriminate|].
  intros H. apply starts_number_cases in H.
  cbn [list_ascii_of_string In] in H.
  repeat (destruct H as [<-|H]; [reflexivity|]).
  destruct H.
Qed.

Lemma number_toString_starts x r :
  starts_number (number_toString x ++ r) = true.
Proof.
  unfold number_toString.
  destruct x as [|p|p]; cbn [Z.to_int NilZero.string_of_int];
    [reflexivity| |reflexivity].
  pose proof (Unsigned.to_uint_nonnil p) as Hnil.
  unfold NilZero.string_of_uint.
  destruct (Pos.to_uint p); [congruence|reflexivity..].
Qed.

Lemma parse_value_string n r :
  parse_value (S n) (String dquote r) =
  match parse_string_body r with
  | Some (t, rest) => Some (JStr t, rest)
  | None => None
  end.
Proof. reflexivity. Qed.

Lemma parse_value_object n r :
  parse_value (S n) (String "{" (String dquote r)) =
  parse_members n [] (String dquote r).
Proof. reflexivity. Qed.

(** One member, then [c]: a comma or the closing brace. *)
Lemma parse_members_step n acc r k r2 v c r4 :
  parse_string_body r = Some (k, String ":" r2) ->
  parse_value n r2 = Some (v, String c r4) ->
  is_ws c = false ->
  parse_members (S n) acc (String dquote r) =
  if Ascii.eqb c "," then parse_members n ((k, v) :: acc) r4
  else if Ascii.eqb c "}" then Some (JObj (rev ((k, v) :: acc)), r4)
  else None.
Proof.
  intros Hk Hv Hc.
  cbn [parse_members].
  change (skip_ws (String dquote r)) with (String dquote r).
  change (Ascii.eqb dquote dquote) with true. cbn iota.
  rewrite Hk.
  change (skip_ws (String ":" r2)) with (String ":" r2).
  change (Ascii.eqb ":" ":") with true. cbn iota.
  rewrite Hv.
  cbn [skip_ws]. now rewrite Hc.
Qed.

Lemma parse_value_entry n d x r :
  parse_value (4 + n) (stringify_entry d x ++ r)
  = Some (entry_json d x, r).
Proof.
  rewrite stringify_entry_shape.
  change (4 + n)%nat with (S (S (S (S n)))).
  rewrite parse_value_object.
  erewrite parse_members_step; cycle 1.
  - change ("data" ++ ?t)%string with (quote_body "data" ++ t)%string.
    apply parse_quote_body.
  - rewrite parse_value_string, parse_quote_body. reflexivity.
  - reflexivity.
  - change (Ascii.eqb "," ",") with true. cbn iota.
    erewrite parse_members_step; cycle 1.
    + change ("expires" ++ ?t)%string with (quote_body "expires" ++ t)%string.
      apply parse_quote_body.
    + rewrite parse_value_number by apply number_toString_starts.
      apply parse_number_toString. cbn. auto.
    + reflexivity.
    + reflexivity.
Qed.

Lemma parse_stringify_entry d x :
  parse (stringify_entry d x) = Ok (entry_json d x).
Proof.
  unfold parse.
  set (text := stringify_entry d x).
  assert (Hlen : exists n, (2 * String.length text + 2 = 4 + n)%nat).
  { exists (2 * String.length text - 2)%nat.
    assert (1 <= String.length text)%nat; [|lia].
    subst text. unfold stringify_entry.
    match goal with
    | |- (1 <= String.length ("{" ++ ?t))%nat =>
        change ("{" ++ t)%string with (String "{" t)
    end.
    cbn [String.length]. lia. }
  destruct Hlen as [n ->].
  assert (Ht : text = (text ++ EmptyString)%string).
  { clear. induction text as [|c t IH]; [reflexivity|].
    now rewrite app_String, <- IH. }
  rewrite Ht at 1. subst text.
  rewrite parse_value_entry. reflexivity.
Qed.

(** *** The fuel of the parser never runs out *)

Lemma skip_ws_length s : (String.length (skip_ws s) <= String.length s)%nat.
Proof.
  induction s as [|c s IH]; cbn [skip_ws]; [lia|].
  destruct (is_ws c); cbn [String.length] in *; lia.
Qed.

Lemma scan_uint_length s :
  (String.length (snd (scan_uint s)) <= String.length s)%nat
  /\ (is_nil (fst (scan_uint s)) = false ->
      String.length (snd (scan_uint s)) < String.length s)%nat.
Proof.
  induction s as [|c s [IH1 IH2]]; cbn [scan_uint].
  - split; [cbn; lia|discriminate].
  - destruct (digit_of c) as [d|].
    + destruct (scan_uint s) as [u rest]. cbn [fst snd String.length] in *.
      split; intros; lia.
    + cbn [fst snd is_nil]. split; [lia|discriminate].
Qed.

Lemma parse_string_body_length s t r :
  parse_string_body s = Some (t, r) -> (String.length r < String.length s)%nat.
Proof.
  assert (Hle : (String.length s <= String.length s)%nat) by lia.
  revert Hle. generalize (String.length s) at 2. intros n. revert s t r.
  induction n as [|n IHn]; intros s t r Hle.
  { destruct s; [discriminate|cbn in Hle; lia]. }
  assert (IH : forall s' t' r',
             (String.length s' < String.length s)%nat ->
             parse_string_body s' = Some (t', r') ->
             (String.length r' < String.length s')%nat).
  { intros s' t' r' Hlt. apply IHn. lia. }
  clear IHn.
  destruct s as [|c s]; [discriminate|].
  cbn [parse_string_body].
  destruct (Ascii.eqb c dquote).
  { intros [= <- <-]. cbn. lia. }
  destruct (Ascii.eqb c backslash).
  - destruct s as [|e s]; [discriminate|].
    assert (Hs : forall x,
      match parse_string_body s with
      | Some (t0, rest) => Some (String x t0, rest)
      | None => None
      end = Some (t, r) ->
      (String.length r < String.length (String c (String e s)))%nat).
    { intros x. destruct (parse_string_body s) as [[t0 rest]|] eqn:E;
        [|discriminate].
      intros [= <- <-]. apply IH in E; cbn [String.length] in *; lia. }
    repeat (match goal with
            | |- context [if ?b then _ else _] => destruct b; [apply Hs|]
            end).
    destruct (Ascii.eqb e "u"); [|discriminate].
    destruct s as [|h1 [|h2 [|h3 [|h4 s']]]]; try discriminate.
    destruct (unit_of_hex h1 h2 h3 h4); [|discriminate].
    destruct (parse_string_body s') as [[t0 rest]|] eqn:E; [|discriminate].
    intros [= <- <-]. apply IH in E; cbn [String.length] in *; lia.
  - destruct (N_of_ascii c <? 32)%N; [discriminate|].
    destruct (parse_string_body s) as [[t0 rest]|] eqn:E; [|discriminate].
    intros [= <- <-]. apply IH in E; cbn [String.length] in *; lia.
Qed.

Lemma parse_unsigned_length neg s v r :
  parse_unsigned neg s = Some (v, r) -> (String.length r < String.length s)%nat.
Proof.
  unfold parse_unsigned.
  pose proof (scan_uint_length s) as [_ H1].
  destruct (scan_uint s) as [ip s2]. cbn [fst snd] in H1.
  destruct (is_nil ip); [discriminate|].
  destruct (leading_zero ip); [discriminate|]. cbn [orb].
  specialize (H1 eq_refl).
  assert (Hfrac : forall s2 fp s3,
    match s2 with
    | String c r0 =>
        if Ascii.eqb c "."
        then let (fp, s3) := scan_uint r0 in
             if is_nil fp then None else Some (fp, s3)
        else Some (Nil, s2)
    | EmptyString => Some (Nil, s2)
    end = Some (fp, s3) -> (String.length s3 <= String.length s2)%nat).
  { clear. intros s2 fp s3. destruct s2 as [|c r0]; [now intros [= <- <-]|].
    destruct (Ascii.eqb c "."); [|now intros [= <- <-]].
    pose proof (scan_uint_length r0) as [H2 _].
    destruct (scan_uint r0) as [fp' s3']. cbn [snd] in H2.
    destruct (is_nil fp'); [discriminate|].
    intros [= <- <-]. cbn [String.length]. lia. }
  destruct (match s2 with EmptyString => _ | String _ _ => _ end)
    as [[fp s3]|] eqn:E; [|discriminate].
  apply Hfrac in E. cbn zeta.
  destruct s3 as [|c r0]; [intros [= <- <-]; lia|].
  destruct (Ascii.eqb c "e" || Ascii.eqb c "E"); [|intros [= <- <-]; lia].
  assert (Hsign : forall r0 eneg s4,
    match r0 with
    | String c' r' =>
        if Ascii.eqb c' "-" then (true, r')
        else if Ascii.eqb c' "+" then (false, r') else (false, r0)
    | EmptyString => (false, r0)
    end = (eneg, s4) -> (String.length s4 <= String.length r0)%nat).
  { clear. intros r0 eneg s4.
    destruct r0 as [|c' r']; [now intros [= <- <-]|].
    destruct (Ascii.eqb c' "-"); [intros [= <- <-]; cbn; lia|].
    destruct (Ascii.eqb c' "+"); intros [= <- <-]; cbn; lia. }
  destruct (match r0 with EmptyString => _ | String _ _ => _ end)
    as [eneg s4] eqn:E4.
  apply Hsign in E4.
  pose proof (scan_uint_length s4) as [H5 _].
  destruct (scan_uint s4) as [ep s5]. cbn [snd] in H5.
  destruct (is_nil ep); [discriminate|].
  intros [= <- <-]. cbn [String.length] in *. lia.
Qed.

Lemma parse_number_length s v r :
  parse_number s = Some (v, r) -> (String.length r < String.length s)%nat.
Proof.
  unfold parse_number. destruct s as [|c s]; [discriminate|].
  destruct (Ascii.eqb c "-"); intros H;
    apply parse_unsigned_length in H; cbn [String.length] in *; lia.
Qed.

Lemma expect_length w s r :
  expect w s = Some r -> (String.length r <= String.length s)%nat.
Proof.
  revert s. induction w as [|c w IH]; intros s; cbn [expect].
  - now intros [= <-].
  - destruct s as [|c' s]; [discriminate|].
    destruct (Ascii.eqb c c'); [|discriminate].
    intros H. apply IH in H. cbn [String.length]. lia.
Qed.

Ltac len_lia := cbn [String.length] in *; lia.

(** Each parser consumes at least one character. *)
Lemma parsers_consume n :
  (forall s v r,
     parse_value n s = Some (v, r) ->
     (String.length r < String.length s)%nat)
  /\ (forall acc s v r,
        parse_elements n acc s = Some (v, r) ->
        (String.length r < String.length s)%nat)
  /\ (forall acc s v r,
        parse_members n acc s = Some (v, r) ->
        (String.length r < String.length s)%nat).
Proof.
  induction n as [|n (IHv & IHe & IHm)].
  { repeat split; intros; discriminate. }
  split; [|split].
  - intros s v r. cbn [parse_value].
    pose proof (skip_ws_length s) as Hs.
    destruct (skip_ws s) as [|c r0]; [discriminate|].
    destruct (Ascii.eqb c "{").
    { pose proof (skip_ws_length r0) as Hr.
      destruct (skip_ws r0) as [|c' r']; [discriminate|].
      destruct (Ascii.eqb c' "}"); [intros [= <- <-]; len_lia|].
      intros H. apply IHm in H. len_lia. }
    destruct (Ascii.eqb c "[").
    { pose proof (skip_ws_length r0) as Hr.
      destruct (skip_ws r0) as [|c' r']; [discriminate|].
      destruct (Ascii.eqb c' "]"); [intros [= <- <-]; len_lia|].
      intros H. apply IHe in H. len_lia. }
    destruct (Ascii.eqb c dquote).
    { destruct (parse_string_body r0) as [[t rest]|] eqn:E; [|discriminate].
      apply parse_string_body_length in E. intros [= <- <-]. len_lia. }
    destruct (Ascii.eqb c "t").
    { destruct (expect "rue" r0) as [rest|] eqn:E; [|discriminate].
      apply expect_length in E. intros [= <- <-]. len_lia. }
    destruct (Ascii.eqb c "f").
    { destruct (expect "alse" r0) as [rest|] eqn:E; [|discriminate].
      apply expect_length in E. intros [= <- <-]. len_lia. }
    destruct (Ascii.eqb c "n").
    { destruct (expect "ull" r0) as [rest|] eqn:E; [|discriminate].
      apply expect_length in E. intros [= <- <-]. len_lia. }
    intros H. apply parse_number_length in H. len_lia.
  - intros acc s v r. cbn [parse_elements].
    destruct (parse_value n s) as [[v0 r0]|] eqn:E; [|discriminate].
    apply IHv in E.
    pose proof (skip_ws_length r0) as Hr.
    destruct (skip_ws r0) as [|c r']; [discriminate|].
    destruct (Ascii.eqb c ",").
    { intros H. apply IHe in H. len_lia. }
    destruct (Ascii.eqb c "]"); [|discriminate].
    intros [= <- <-]. len_lia.
  - intros acc s v r. cbn [parse_members].
    pose proof (skip_ws_length s) as Hs.
    destruct (skip_ws s) as [|q r0]; [discriminate|].
    destruct (Ascii.eqb q dquote); [|discriminate].
    destruct (parse_string_body r0) as [[k r1]|] eqn:E1; [|discriminate].
    apply parse_string_body_length in E1.
    pose proof (skip_ws_length r1) as Hr1.
    destruct (skip_ws r1) as [|c r2]; [discriminate|].
    destruct (Ascii.eqb c ":"); [|discriminate].
    destruct (parse_value n r2) as [[v0 r3]|] eqn:E3; [|discriminate].
    apply IHv in E3.
    pose proof (skip_ws_length r3) as Hr3.
    destruct (skip_ws r3) as [|c' r4]; [discriminate|].
    destruct (Ascii.eqb c' ",").
    { intros H. apply IHm in H. len_lia. }
    destruct (Ascii.eqb c' "}"); [|discriminate].
    intros [= <- <-]. len_lia.
Qed.

(** More fuel does not change a result. *)
Lemma parsers_monotone n :
  (forall s x, parse_value n s = Some x -> parse_value (S n) s = Some x)
  /\ (forall acc s x,
        parse_elements n acc s = Some x ->
        parse_elements (S n) acc s = Some x)
  /\ (forall acc s x,
        parse_members n acc s = Some x ->
        parse_members (S n) acc s = Some x).
Proof.
  induction n as [|n (IHv & IHe & IHm)].
  { repeat split; intros; discriminate. }
  split; [|split].
  - intros s x H.
    cbn [parse_value] in H. cbn [parse_value].
    destruct (skip_ws s) as [|c r0]; [discriminate|].
    destruct (Ascii.eqb c "{").
    { destruct (skip_ws r0) as [|c' r']; [discriminate|].
      destruct (Ascii.eqb c' "}"); [exact H|]. now apply IHm. }
    destruct (Ascii.eqb c "[").
    { destruct (skip_ws r0) as [|c' r']; [discriminate|].
      destruct (Ascii.eqb c' "]"); [exact H|]. now apply IHe. }
    exact H.
  - intros acc s x H.
    cbn [parse_elements] in H. cbn [parse_elements].
    destruct (parse_value n s) as [[v0 r0]|] eqn:E; [|discriminate].
    rewrite (IHv _ _ E).
    destruct (skip_ws r0) as [|c r']; [discriminate|].
    destruct (Ascii.eqb c ","); [now apply IHe|exact H].
  - intros acc s x H.
    cbn [parse_members] in H. cbn [parse_members].
    destruct (skip_ws s) as [|q r0]; [discriminate|].
    destruct (Ascii.eqb q dquote); [|discriminate].
    destruct (parse_string_body r0) as [[k r1]|]; [|discriminate].
    destruct (skip_ws r1) as [|c r2]; [discriminate|].
    destruct (Ascii.eqb c ":"); [|discriminate].
    destruct (parse_value n r2) as [[v0 r3]|] eqn:E3; [|discriminate].
    rewrite (IHv _ _ E3).
    destruct (skip_ws r3) as [|c' r4]; [discriminate|].
    destruct (Ascii.eqb c' ","); [now apply IHm|exact H].
Qed.

Lemma parsers_more_fuel n m :
  (n <= m)%nat ->
  (forall s x, parse_value n s = Some x -> parse_value m s = Some x)
  /\ (forall acc s x,
        parse_elements n acc s = Some x -> parse_elements m acc s = Some x)
  /\ (forall acc s x,
        parse_members n acc s = Some x -> parse_members m acc s = Some x).
Proof.
  induction 1 as [|m Hle (IHv & IHe & IHm)]; [easy|].
  destruct (parsers_monotone m) as (Mv & Me & Mm).
  repeat split; intros; auto.
Qed.

(** Twice the length of the text, plus two, is fuel enough: whatever
    some amount of fuel parses, that amount parses too. *)
Lemma parsers_enough_fuel n :
  (forall s x,
     parse_value n s = Some x ->
     parse_value (2 * String.length s + 1) s = Some x)
  /\ (forall acc s x,
        parse_elements n acc s = Some x ->
        parse_elements (2 * String.length s + 2) acc s = Some x)
  /\ (forall acc s x,
        parse_members n acc s = Some x ->
        parse_members (2 * String.length s + 2) acc s = Some x).
Proof.
  induction n as [|n (IHv & IHe & IHm)].
  { repeat split; intros; discriminate. }
  destruct (parsers_consume n) as (Cv & _ & _).
  split; [|split].
  - intros s x H.
    replace (2 * String.length s + 1)%nat with (S (2 * String.length s)) by lia.
    cbn [parse_value] in H. cbn [parse_value].
    pose proof (skip_ws_length s) as Hs.
    destruct (skip_ws s) as [|c r0]; [discriminate|].
    destruct (Ascii.eqb c "{").
    { destruct (skip_ws r0) as [|c' r']; [discriminate|].
      destruct (Ascii.eqb c' "}"); [exact H|].
      apply IHm in H. revert H.
      apply (parsers_more_fuel (2 * String.length r0 + 2)
               (2 * String.length s)).
      len_lia. }
    destruct (Ascii.eqb c "[").
    { destruct (skip_ws r0) as [|c' r']; [discriminate|].
      destruct (Ascii.eqb c' "]"); [exact H|].
      apply IHe in H. revert H.
      apply (parsers_more_fuel (2 * String.length r0 + 2)
               (2 * String.length s)).
      len_lia. }
    exact H.
  - intros acc s x H.
    replace (2 * String.length s + 2)%nat
      with (S (2 * String.length s + 1)) by lia.
    cbn [parse_elements] in H. cbn [parse_elements].
    destruct (parse_value n s) as [[v0 r0]|] eqn:E; [|discriminate].
    pose proof (Cv _ _ _ E) as Hr0.
    rewrite (IHv _ _ E).
    pose proof (skip_ws_length r0) as Hr.
    destruct (skip_ws r0) as [|c r']; [discriminate|].
    destruct (Ascii.eqb c ","); [|exact H].
    apply IHe in H. revert H.
    apply (parsers_more_fuel (2 * String.length r' + 2)
             (2 * String.length s + 1)).
    len_lia.
  - intros acc s x H.
    replace (2 * String.length s + 2)%nat
      with (S (2 * String.length s + 1)) by lia.
    cbn [parse_members] in H. cbn [parse_members].
    pose proof (skip_ws_length s) as Hs.
    destruct (skip_ws s) as [|q r0]; [discriminate|].
    destruct (Ascii.eqb q dquote); [|discriminate].
    destruct (parse_string_body r0) as [[k r1]|] eqn:E1; [|discriminate].
    apply parse_string_body_length in E1.
    pose proof (skip_ws_length r1) as Hr1.
    destruct (skip_ws r1) as [|c r2]; [discriminate|].
    destruct (Ascii.eqb c ":"); [|discriminate].
    destruct (parse_value n r2) as [[v0 r3]|] eqn:E3; [|discriminate].
    pose proof (Cv _ _ _ E3) as Hr3.
    apply IHv in E3.
    rewrite (proj1 (parsers_more_fuel (2 * String.length r2 + 1)
                      (2 * String.length s + 1)
                      ltac:(len_lia)) _ _ E3).
    pose proof (skip_ws_length r3) as Hr3'.
    destruct (skip_ws r3) as [|c' r4]; [discriminate|].
    destruct (Ascii.eqb c' ","); [|exact H].
    apply IHm in H. revert H.
    apply (parsers_more_fuel (2 * String.length r4 + 2)
             (2 * String.length s + 1)).
    len_lia.
Qed.

(** [JSON.parse] never fails for want of fuel: a text that some amount
    of fuel parses is parsed. *)
Lemma parse_fuel_suffices text n v rest :
  parse_value n text = Some (v, rest) ->
  skip_ws rest = EmptyString ->
  parse text = Ok v.
Proof.
  intros H Hrest. unfold parse.
  destruct (parsers_enough_fuel n) as (Ev & _ & _).
  apply Ev in H.
  rewrite (proj1 (parsers_more_fuel (2 * String.length text + 1)
                    (2 * String.length text + 2)
                    ltac:(lia)) _ _ H).
  now rewrite Hrest.
Qed.

End JSONFacts.

(** ** The module [generate.ts] *)

Create Rewrite HintDb world.

Section GenerateFacts.

Context (P : Platform).

(** *** Projections of an updated world *)

Lemma files_record ev w : files (record ev w) = files w.
Proof. reflexivity. Qed.
Lemma dirs_record ev w : dirs (record ev w) = dirs w.
Proof. reflexivity. Qed.
Lemma read_faults_record ev w : read_faults (record ev w) = read_faults w.
Proof. reflexivity. Qed.
Lemma write_faults_record ev w :
  write_faults (record ev w) = write_faults w.
Proof. reflexivity. Qed.
Lemma clock_record ev w : clock (record ev w) = clock w.
Proof. reflexivity. Qed.
Lemma trace_record ev w : trace (record ev w) = (trace w ++ [ev])%list.
Proof. reflexivity. Qed.

Lemma files_with_files f w : files (with_files f w) = f.
Proof. reflexivity. Qed.
Lemma dirs_with_files f w : dirs (with_files f w) = dirs w.
Proof. reflexivity. Qed.
Lemma read_faults_with_files f w :
  read_faults (with_files f w) = read_faults w.
Proof. reflexivity. Qed.
Lemma write_faults_with_files f w :
  write_faults (with_files f w) = write_faults w.
Proof. reflexivity. Qed.
Lemma clock_with_files f w : clock (with_files f w) = clock w.
Proof. reflexivity. Qed.
Lemma trace_with_files f w : trace (with_files f w) = trace w.
Proof. reflexivity. Qed.

Lemma files_with_dirs d w : files (with_dirs d w) = files w.
Proof. reflexivity. Qed.
Lemma dirs_with_dirs d w : dirs (with_dirs d w) = d.
Proof. reflexivity. Qed.
Lemma read_faults_with_dirs d w :
  read_faults (with_dirs d w) = read_faults w.
Proof. reflexivity. Qed.
Lemma write_faults_with_dirs d w :
  write_faults (with_dirs d w) = write_faults w.
Proof. reflexivity. Qed.
Lemma clock_with_dirs d w : clock (with_dirs d w) = clock w.
Proof. reflexivity. Qed.
Lemma trace_with_dirs d w : trace (with_dirs d w) = trace w.
Proof. reflexivity. Qed.

#[local] Hint Rewrite files_record dirs_record read_faults_record
  write_faults_record clock_record trace_record files_with_files
  dirs_with_files read_faults_with_files write_faults_with_files
  clock_with_files trace_with_files files_with_dirs dirs_with_dirs
  read_faults_with_dirs write_faults_with_dirs clock_with_dirs
  trace_with_dirs : world.

Ltac world_simpl := cbn beta iota zeta; autorewrite with world.

(** *** The filesystem calls, case by case *)

Lemma mkdir_recursive_eq dir w :
  mkdir_recursive P dir w =
  match write_faults w !! dir with
  | Some code =>
      (Throw (SystemError code "mkdir" dir), record (EvMkdir dir) w)
  | None =>
      (Ok tt,
       with_dirs (with_ancestors P dir ∪ dirs w) (record (EvMkdir dir) w))
  end.
Proof.
  unfold mkdir_recursive, bind, emit, fault_at. world_simpl.
  destruct (write_faults w !! dir); world_simpl; reflexivity.
Qed.

Lemma readFile_eq path w :
  readFile path w =
  match read_faults w !! path with
  | Some code =>
      (Throw (SystemError code "open" path), record (EvReadFile path) w)
  | None =>
      match files w !! path with
      | Some content => (Ok content, record (EvReadFile path) w)
      | None =>
          (Throw (SystemError ENOENT "open" path),
           record (EvReadFile path) w)
      end
  end.
Proof.
  unfold readFile, open_read, bind, emit, fault_at. world_simpl.
  destruct (read_faults w !! path); world_simpl; [reflexivity|].
  destruct (files w !! path); reflexivity.
Qed.

Lemma writeFile_eq path content w :
  writeFile P path content w =
  let w1 := record (EvWriteFile path content) w in
  match write_failure P (write_faults w) (dirs w) path with
  | Some (e, emptied) =>
      (Throw e,
       if emptied then with_files (<[path := []]> (files w)) w1 else w1)
  | None => (Ok tt, with_files (<[path := content]> (files w)) w1)
  end.
Proof.
  unfold writeFile, open_write, open_fault, write_fault, write_failure,
    bind, emit.
  world_simpl.
  destruct (write_faults w !! path) as [code|] eqn:Hf; world_simpl.
  - destruct (fails_once_open code) eqn:Hc; world_simpl; [|reflexivity].
    destruct (decide _); world_simpl; rewrite ?Hf, ?Hc; reflexivity.
  - destruct (decide _); world_simpl; rewrite ?Hf; reflexivity.
Qed.

Lemma copyFile_eq from to w :
  copyFile P from to w =
  let w1 := record (EvCopyFile from to) w in
  match read_faults w !! from with
  | Some code => (Throw (SystemError code "copyfile" from), w1)
  | None =>
      match files w !! from with
      | None => (Throw (SystemError ENOENT "copyfile" from), w1)
      | Some content =>
          match write_faults w !! to with
          | Some code =>
              if fails_once_open code then
                if decide (parent P to ∈ dirs w) then
                  if decide (from = to)
                  then (Ok tt, with_files (<[to := content]> (files w)) w1)
                  else (Throw (SystemError code "copyfile" to),
                        with_files (delete to (files w)) w1)
                else (Throw (SystemError ENOENT "copyfile" to), w1)
              else (Throw (SystemError code "copyfile" to), w1)
          | None =>
              if decide (parent P to ∈ dirs w)
              then (Ok tt, with_files (<[to := content]> (files w)) w1)
              else (Throw (SystemError ENOENT "copyfile" to), w1)
          end
      end
  end.
Proof.
  unfold copyFile, open_read, open_write, open_fault, write_fault, bind,
    emit, fault_at.
  world_simpl.
  destruct (read_faults w !! from); world_simpl; [reflexivity|].
  destruct (files w !! from) as [content|] eqn:Hfrom; world_simpl;
    [|reflexivity].
  assert (Hsame : from = to ->
            with_files (<[to := content]> (files w))
              (record (EvCopyFile from to) w)
            = record (EvCopyFile from to) w).
  { intros <-. unfold with_files, record. cbn.
    now rewrite (insert_id (files w) from content Hfrom). }
  destruct (write_faults w !! to) as [code|] eqn:Hf; world_simpl.
  - destruct (fails_once_open code) eqn:Hc; world_simpl; [|reflexivity].
    destruct (decide (parent P to ∈ dirs w)); world_simpl; [|reflexivity].
    destruct (decide (from = to)) as [Heq|]; world_simpl.
    + now rewrite (Hsame Heq).
    + rewrite ?Hf, ?Hc. reflexivity.
  - destruct (decide (parent P to ∈ dirs w)); world_simpl; [|reflexivity].
    destruct (decide (from = to)) as [Heq|]; world_simpl.
    + now rewrite (Hsame Heq).
    + rewrite ?Hf. reflexivity.
Qed.

Lemma fails_once_open_not_ENOENT code :
  fails_once_open code = true -> code <> ENOENT.
Proof. now destruct code. Qed.

Lemma write_failure_none faults d path :
  faults !! path = None -> parent P path ∈ d ->
  write_failure P faults d path = None.
Proof.
  intros Hf Hd. unfold write_failure. rewrite Hf.
  destruct (decide _); [reflexivity|contradiction].
Qed.

(** The directory made is among the directories a [mkdir] leaves. *)
Lemma elem_of_with_ancestors dir : dir ∈ with_ancestors P dir.
Proof.
  unfold with_ancestors. apply elem_of_list_to_set. now left.
Qed.

Lemma made_mono dir (d : gset URL) x :
  x ∈ ({[dir]} ∪ d : gset URL) -> x ∈ with_ancestors P dir ∪ d.
Proof.
  intros [H|H]%elem_of_union.
  - apply elem_of_singleton in H as ->.
    apply elem_of_union_l, elem_of_with_ancestors.
  - now apply elem_of_union_r.
Qed.



(** *** The blocks of [generateImageInternal], case by case *)

Lemma catchCacheError_eq e w :
  catchCacheError e w =
  if decide (exn_code e = Some ENOENT) then (Ok None, w)
  else (Throw (cacheReadError e), w).
Proof. unfold catchCacheError. destruct (decide _); reflexivity. Qed.

Lemma cacheLookup_local_eq cached final w :
  cacheLookup P true cached final w =
  match copyFile P cached final w with
  | (Ok _, w') => (Ok (Some GenerationDataCached), w')
  | (Throw e, w') => catchCacheError e w'
  end.
Proof.
  unfold cacheLookup, try_catch, bind, ret.
  destruct (copyFile P cached final w) as [[[]|e] w']; reflexivity.
Qed.

Lemma cacheLookup_remote_eq cached final w :
  cacheLookup P false cached final w =
  let w1 := record (EvReadFile cached) w in
  match readFile cached w with
  | (Throw e, _) => catchCacheError e w1
  | (Ok bytes, _) =>
      match JSON.parse (utf8_decode bytes) with
      | Throw e => catchCacheError e w1
      | Ok JSONData =>
          match JSON.get_member JSONData "expires" with
          | Throw e => catchCacheError e w1
          | Ok entry_expires =>
              match js_gt P entry_expires (clock w) with
              | Throw e => catchCacheError e w1
              | Ok false => (Ok None, w1)
              | Ok true =>
                  match JSON.get_member JSONData "data" with
                  | Throw e => catchCacheError e w1
                  | Ok entry_data =>
                      match Buffer_from_base64 P entry_data with
                      | Throw e => catchCacheError e w1
                      | Ok content =>
                          match writeFile P final content w1 with
                          | (Ok _, w2) => (Ok (Some GenerationDataCached), w2)
                          | (Throw e, w2) => catchCacheError e w2
                          end
                      end
                  end
              end
          end
      end
  end.
Proof.
  unfold cacheLookup, try_catch, readFileSync_utf8, bind, lift, Date_now, ret.
  rewrite readFile_eq.
  destruct (read_faults w !! cached); world_simpl; [reflexivity|].
  destruct (files w !! cached) as [bytes|]; world_simpl; [|reflexivity].
  destruct (JSON.parse (utf8_decode bytes)) as [v|e]; [|reflexivity].
  destruct (JSON.get_member v "expires") as [x|e]; [|reflexivity].
  world_simpl.
  destruct (js_gt P x (clock w)) as [[]|e]; [|reflexivity..].
  destruct (JSON.get_member v "data") as [d|e]; [|reflexivity].
  destruct (Buffer_from_base64 P d) as [content|e]; [|reflexivity].
  destruct (writeFile P final content _) as [[[]|e] w2]; reflexivity.
Qed.

Lemma writeCacheAndFinal_eq env isLocal cached final content expiry w :
  writeCacheAndFinal P env isLocal cached final content expiry w =
  let entry :=
    if isLocal then content
    else utf8_encode (remoteEntryText content expiry) in
  let w1 :=
    if useCache env then
      match writeFile P cached entry w with
      | (Ok _, w') => w'
      | (Throw e, w') => record (cacheWriteWarning e) w'
      end
    else w in
  writeFile P final content w1.
Proof.
  unfold writeCacheAndFinal, try_catch_finally, try_catch, ret,
    cacheWriteWarning.
  destruct (useCache env); cbn beta iota zeta.
  - destruct isLocal;
      match goal with
      | |- context [writeFile P cached ?c w] =>
          destruct (writeFile P cached c w) as [[[]|e] w']
      end; cbn beta iota zeta;
      unfold logger_warn, emit; cbn beta iota zeta;
      match goal with
      | |- context [writeFile P final content ?x] =>
          destruct (writeFile P final content x) as [[[]|e'] w'']
      end; reflexivity.
  - destruct (writeFile P final content w) as [[[]|e'] w'']; reflexivity.
Qed.

Lemma regenerate_eq env img options isLocal cached final w :
  regenerate P env img options isLocal cached final w =
  let folder := new_URL P "./" final in
  match write_faults w !! folder with
  | Some code =>
      (Throw (SystemError code "mkdir" folder), record (EvMkdir folder) w)
  | None =>
      let w1 :=
        record EvGetService
          (with_dirs (with_ancestors P folder ∪ dirs w)
             (record (EvMkdir folder) w)) in
      match getConfiguredImageService P with
      | Throw e => (Throw e, w1)
      | Ok service =>
          let w2 :=
            record (EvTransform (data img) (serviceOptions options)) w1 in
          match transform service (data img) (serviceOptions options)
                  (imageConfig env) with
          | Throw e => (Throw e, w2)
          | Ok out =>
              match writeCacheAndFinal P env isLocal cached final out
                      (expires img) w2 with
              | (Ok _, w3) =>
                  (Ok (GenerationDataUncached (kilobytes (data img))
                         (kilobytes out)), w3)
              | (Throw e, w3) => (Throw e, w3)
              end
          end
      end
  end.
Proof.
  unfold regenerate.
  unfold bind at 1. rewrite mkdir_recursive_eq.
  destruct (write_faults w !! _); [reflexivity|].
  cbn beta iota zeta.
  unfold bind, emit, lift, ret.
  destruct (getConfiguredImageService P) as [service|e]; [|reflexivity].
  destruct (transform service _ _ _) as [out|e]; [|reflexivity].
  destruct (writeCacheAndFinal _ _ _ _ _ _ _ _) as [[[]|e] w3]; reflexivity.
Qed.

Lemma generateImageInternal_eq env img filepath options w :
  generateImageInternal P env img filepath options w =
  let isLocal := isESMImportedImage (src options) in
  let final := finalFileURL_of P env filepath in
  let cached := cachedFileURL_of P env filepath options in
  match cacheLookup P isLocal cached final w with
  | (Ok (Some generationData), w1) => (Ok generationData, w1)
  | (Ok None, w1) => regenerate P env img options isLocal cached final w1
  | (Throw e, w1) => (Throw e, w1)
  end.
Proof.
  unfold generateImageInternal, bind, ret. cbn zeta.
  destruct (cacheLookup _ _ _ _ _) as [[[g|]|e] w1]; reflexivity.
Qed.


(** *** A lookup that finds nothing leaves the store as it was *)

Lemma same_store_refl w : same_store w w.
Proof. repeat split. Qed.

Lemma same_store_record ev w : same_store w (record ev w).
Proof. repeat split. Qed.

Lemma same_store_trans w1 w2 w3 :
  same_store w1 w2 -> same_store w2 w3 -> same_store w1 w3.
Proof.
  unfold same_store. intros (?&?&?&?&?) (?&?&?&?&?).
  repeat split; congruence.
Qed.

Lemma writeFile_throw path content w e w' :
  writeFile P path content w = (Throw e, w') ->
  exn_code e = Some ENOENT ->
  w' = record (EvWriteFile path content) w.
Proof.
  rewrite writeFile_eq. cbn zeta. unfold write_failure.
  destruct (write_faults w !! path) as [code|].
  - destruct (fails_once_open code) eqn:Hc.
    + destruct (decide _); intros [= <- <-]; [|reflexivity].
      cbn. intros [= ->]. discriminate.
    + now intros [= <- <-].
  - destruct (decide _); [discriminate|]. now intros [= <- <-].
Qed.

Lemma copyFile_throw from to w e w' :
  copyFile P from to w = (Throw e, w') ->
  exn_code e = Some ENOENT ->
  w' = record (EvCopyFile from to) w.
Proof.
  rewrite copyFile_eq. cbn zeta.
  destruct (read_faults w !! from); [now intros [= <- <-]|].
  destruct (files w !! from); [|now intros [= <- <-]].
  destruct (write_faults w !! to) as [code|].
  - destruct (fails_once_open code) eqn:Hc.
    + destruct (decide _); [destruct (decide _); [discriminate|]|];
        intros [= <- <-]; [|reflexivity].
      cbn. intros [= ->]. discriminate.
    + now intros [= <- <-].
  - destruct (decide _); [discriminate|]. now intros [= <- <-].
Qed.

Lemma catchCacheError_world e w r w' :
  catchCacheError e w = (r, w') ->
  w' = w /\ r <> Ok (Some GenerationDataCached).
Proof.
  rewrite catchCacheError_eq. destruct (decide _); intros [= <- <-]; easy.
Qed.

Lemma catchCacheError_miss e w w' :
  catchCacheError e w = (Ok None, w') ->
  w' = w /\ exn_code e = Some ENOENT.
Proof.
  rewrite catchCacheError_eq.
  destruct (decide _); [|discriminate]. now intros [= <-].
Qed.

(** A lookup that finds nothing changes nothing but the trace. *)
Lemma cacheLookup_store isLocal cached final w w1 :
  cacheLookup P isLocal cached final w = (Ok None, w1) ->
  same_store w w1.
Proof.
  destruct isLocal.
  - rewrite cacheLookup_local_eq.
    destruct (copyFile P cached final w) as [[[]|e] w'] eqn:Hc.
    + discriminate.
    + intros H. apply catchCacheError_miss in H as [-> He].
      apply copyFile_throw in Hc; [|exact He]. subst w'.
      apply same_store_record.
  - rewrite cacheLookup_remote_eq. cbn zeta.
    assert (Hh : forall e, catchCacheError e (record (EvReadFile cached) w)
                           = (Ok None, w1) -> same_store w w1).
    { intros e H. apply catchCacheError_world in H as [-> _].
      apply same_store_record. }
    destruct (readFile cached w) as [[bytes|e] w0]; [|intros; eauto].
    destruct (JSON.parse _) as [v|e]; [|intros; eauto].
    destruct (JSON.get_member v "expires") as [x|e]; [|intros; eauto].
    destruct (js_gt P x (clock w)) as [[]|e]; [| |intros; eauto].
    + destruct (JSON.get_member v "data") as [d|e]; [|intros; eauto].
      destruct (Buffer_from_base64 P d) as [content|e]; [|intros; eauto].
      destruct (writeFile P final content _) as [[[]|e] w2] eqn:Hw.
      * discriminate.
      * intros H. apply catchCacheError_miss in H as [-> He].
        apply writeFile_throw in Hw; [|exact He]. subst w2.
        eapply same_store_trans; apply same_store_record.
    + intros [= <-]. apply same_store_record.
Qed.


Lemma writeFile_trace path content w :
  trace (snd (writeFile P path content w))
  = (trace w ++ [EvWriteFile path content])%list.
Proof.
  rewrite writeFile_eq. cbn zeta.
  destruct (write_failure _ _ _ _) as [[e []]|]; reflexivity.
Qed.

Lemma writeFile_ok path content w :
  write_faults w !! path = None ->
  parent P path ∈ dirs w ->
  writeFile P path content w =
  (Ok tt, with_files (<[path := content]> (files w))
            (record (EvWriteFile path content) w)).
Proof.
  intros Hf Hd. rewrite writeFile_eq. cbn zeta.
  now rewrite write_failure_none.
Qed.


Lemma parse_throws_syntax text e :
  JSON.parse text = Throw e -> exn_code e = None.
Proof.
  unfold JSON.parse.
  destruct (JSON.parse_value _ _) as [[v rest]|]; [|now intros [= <-]].
  destruct (JSON.skip_ws rest); [discriminate|now intros [= <-]].
Qed.

(** An unexpired record is decoded and written to the final location. *)
Lemma remote_entry_reused env img filepath options w bytes v m e x s :
  let final := finalFileURL_of P env filepath in
  let cached := cachedFileURL_of P env filepath options in
  isESMImportedImage (src options) = false ->
  read_faults w !! cached = None ->
  files w !! cached = Some bytes ->
  JSON.parse (utf8_decode bytes) = Ok v ->
  JSON.get_member v "expires" = Ok (Some (JSON.JNum m e)) ->
  JSON.integer_value m e = Some x ->
  JSON.get_member v "data" = Ok (Some (JSON.JStr s)) ->
  Base64.is_ascii s = true ->
  clock w < x ->
  write_faults w !! final = None ->
  parent P final ∈ dirs w ->
  generateImageInternal P env img filepath options w =
  (Ok GenerationDataCached,
   with_files (<[final := Base64.decode s]> (files w))
     (record (EvWriteFile final (Base64.decode s))
        (record (EvReadFile cached) w))).
Proof.
  intros final cached Hremote Hrf Hfile Hparse Hexp Hint Hdata Hascii Hgt
    Hwf Hd.
  rewrite generateImageInternal_eq. cbn zeta. fold final cached.
  rewrite Hremote, cacheLookup_remote_eq, readFile_eq. cbn zeta.
  rewrite Hrf, Hfile, Hparse, Hexp. cbn [js_gt]. rewrite Hint.
  apply Z.ltb_lt in Hgt. rewrite Hgt, Hdata.
  cbn [Buffer_from_base64]. rewrite Hascii.
  rewrite writeFile_ok by assumption. reflexivity.
Qed.

Lemma integer_value_integer x : JSON.integer_value x 0 = Some x.
Proof. unfold JSON.integer_value. cbn. f_equal. lia. Qed.

(** The lookup returns the cached marker or nothing. *)
Lemma cacheLookup_some isLocal cached final w g w1 :
  cacheLookup P isLocal cached final w = (Ok (Some g), w1) ->
  g = GenerationDataCached.
Proof.
  assert (Hc : forall e w0, catchCacheError e w0 = (Ok (Some g), w1) -> False).
  { intros e w0. rewrite catchCacheError_eq.
    destruct (decide _); discriminate. }
  destruct isLocal.
  - rewrite cacheLookup_local_eq.
    destruct (copyFile P cached final w) as [[[]|e] w'].
    + now intros [= <- <-].
    + intros H. exfalso. eauto.
  - rewrite cacheLookup_remote_eq. cbn zeta.
    destruct (readFile cached w) as [[bytes|e] w0];
      [|intros H; exfalso; eauto].
    destruct (JSON.parse _) as [v|e]; [|intros H; exfalso; eauto].
    destruct (JSON.get_member v "expires") as [x|e];
      [|intros H; exfalso; eauto].
    destruct (js_gt P x (clock w)) as [[]|e];
      [|discriminate|intros H; exfalso; eauto].
    destruct (JSON.get_member v "data") as [d|e];
      [|intros H; exfalso; eauto].
    destruct (Buffer_from_base64 P d) as [content|e];
      [|intros H; exfalso; eauto].
    destruct (writeFile P final content _) as [[[]|e] w2].
    + now intros [= <- <-].
    + intros H. exfalso. eauto.
Qed.

(** Writes touch one path. *)
Lemma writeFile_files path content w r w' :
  writeFile P path content w = (r, w') ->
  forall p, p <> path -> files w' !! p = files w !! p.
Proof.
  rewrite writeFile_eq. cbn zeta.
  destruct (write_failure _ _ _ _) as [[e []]|]; intros [= <- <-] p Hp;
    cbn; rewrite ?lookup_insert_ne by congruence; reflexivity.
Qed.

Lemma copyFile_files from to w r w' :
  copyFile P from to w = (r, w') ->
  forall p, p <> to -> files w' !! p = files w !! p.
Proof.
  rewrite copyFile_eq. cbn zeta.
  destruct (read_faults w !! from); [now intros [= <- <-]|].
  destruct (files w !! from); [|now intros [= <- <-]].
  destruct (write_faults w !! to) as [code|];
    [destruct (fails_once_open code)|];
    repeat destruct (decide _); intros [= <- <-] p Hp; cbn;
    rewrite ?lookup_insert_ne, ?lookup_delete_ne by congruence;
    reflexivity.
Qed.

Lemma catchCacheError_snd e w : snd (catchCacheError e w) = w.
Proof. rewrite catchCacheError_eq. destruct (decide _); reflexivity. Qed.

Lemma cacheLookup_files isLocal cached final w r w1 :
  cacheLookup P isLocal cached final w = (r, w1) ->
  forall p, p <> final -> files w1 !! p = files w !! p.
Proof.
  intros H p Hp.
  assert (Hw1 : w1 = snd (cacheLookup P isLocal cached final w))
    by now rewrite H.
  subst w1. clear H. destruct isLocal.
  - rewrite cacheLookup_local_eq.
    destruct (copyFile P cached final w) as [[[]|e] w'] eqn:Hc;
      cbn [snd]; rewrite ?catchCacheError_snd;
      eapply copyFile_files; eauto.
  - rewrite cacheLookup_remote_eq. cbn zeta.
    destruct (readFile cached w) as [[bytes|e] w0];
      [|now rewrite catchCacheError_snd].
    destruct (JSON.parse _) as [v|e]; [|now rewrite catchCacheError_snd].
    destruct (JSON.get_member v "expires") as [x|e];
      [|now rewrite catchCacheError_snd].
    destruct (js_gt P x (clock w)) as [[]|e];
      [|reflexivity|now rewrite catchCacheError_snd].
    destruct (JSON.get_member v "data") as [d|e];
      [|now rewrite catchCacheError_snd].
    destruct (Buffer_from_base64 P d) as [content|e];
      [|now rewrite catchCacheError_snd].
    destruct (writeFile P final content _) as [[[]|e] w2] eqn:Hw;
      cbn [snd]; rewrite ?catchCacheError_snd;
      erewrite writeFile_files by eauto; reflexivity.
Qed.

(** *** Computations that never call the Source Loader *)

Lemma count_snoc p t ev :
  count p (t ++ [ev]) = (count p t + (if p ev then 1 else 0))%nat.
Proof.
  unfold count. rewrite filter_app, length_app. f_equal.
  rewrite filter_cons, filter_nil.
  destruct (p ev); [destruct (decide _); [reflexivity|congruence]|].
  destruct (decide _); [discriminate|reflexivity].
Qed.

Lemma silent_ret p {A} (a : A) : silent p (ret a).
Proof. intros w. reflexivity. Qed.

Lemma silent_throw p {A} e : silent p (@throw A e).
Proof. intros w. reflexivity. Qed.

Lemma silent_lift p {A} (r : Result A) : silent p (lift r).
Proof. intros w. reflexivity. Qed.

Lemma silent_Date_now p : silent p Date_now.
Proof. intros w. reflexivity. Qed.

Lemma silent_emit p ev : p ev = false -> silent p (emit ev).
Proof.
  intros H w. unfold emit. cbn [snd].
  rewrite trace_record, count_snoc, H. lia.
Qed.

Lemma silent_bind p {A B} (m : M A) (k : A -> M B) :
  silent p m -> (forall a, silent p (k a)) -> silent p (bind m k).
Proof.
  intros Hm Hk w. unfold bind.
  specialize (Hm w). destruct (m w) as [[a|e] w1]; cbn [snd] in *.
  - now rewrite Hk.
  - exact Hm.
Qed.

Lemma silent_try_catch p {A} (m : M A) (h : exn -> M A) :
  silent p m -> (forall e, silent p (h e)) -> silent p (try_catch m h).
Proof.
  intros Hm Hh w. unfold try_catch.
  specialize (Hm w). destruct (m w) as [[a|e] w1]; cbn [snd] in *.
  - exact Hm.
  - now rewrite Hh.
Qed.

Lemma silent_try_catch_finally p {A} (m : M A) (h : exn -> M A) f :
  silent p m -> (forall e, silent p (h e)) -> silent p f ->
  silent p (try_catch_finally m h f).
Proof.
  intros Hm Hh Hf w. unfold try_catch_finally.
  pose proof (silent_try_catch p m h Hm Hh w) as Ht.
  destruct (try_catch m h w) as [r w1]. cbn [snd] in Ht.
  specialize (Hf w1). destruct (f w1) as [[[]|e] w2]; cbn [snd] in *;
    congruence.
Qed.

Lemma loader_only_false p ev :
  loader_only p -> is_load ev = false -> is_fetch ev = false ->
  p ev = false.
Proof.
  intros Hp Hl Hf. destruct (p ev) eqn:E; [|reflexivity].
  destruct (Hp ev E); congruence.
Qed.

Ltac count_trace :=
  cbn [snd];
  rewrite ?trace_with_dirs, ?trace_with_files, ?trace_record, ?count_snoc.

Lemma silent_mkdir_recursive p dir :
  loader_only p -> silent p (mkdir_recursive P dir).
Proof.
  intros Hp w. rewrite mkdir_recursive_eq.
  destruct (write_faults w !! dir); count_trace;
    rewrite (loader_only_false p) by easy; lia.
Qed.

Lemma silent_readFile p path : loader_only p -> silent p (readFile path).
Proof.
  intros Hp w. rewrite readFile_eq.
  destruct (read_faults w !! path); [|destruct (files w !! path)];
    count_trace; rewrite (loader_only_false p) by easy; lia.
Qed.

Lemma silent_writeFile p path content :
  loader_only p -> silent p (writeFile P path content).
Proof.
  intros Hp w. rewrite writeFile_trace, count_snoc.
  rewrite (loader_only_false p) by easy. lia.
Qed.

Lemma silent_copyFile p from to :
  loader_only p -> silent p (copyFile P from to).
Proof.
  intros Hp w. rewrite copyFile_eq. cbn zeta.
  destruct (read_faults w !! from); [|destruct (files w !! from);
    [destruct (write_faults w !! to) as [code|];
       [destruct (fails_once_open code)|]; repeat destruct (decide _)|]];
    count_trace; rewrite (loader_only_false p) by easy; lia.
Qed.

Lemma silent_catchCacheError p e : silent p (catchCacheError e).
Proof.
  unfold catchCacheError.
  destruct (decide _); [apply silent_ret|apply silent_throw].
Qed.

Create HintDb silent.

#[local] Hint Resolve silent_ret silent_throw silent_lift silent_Date_now
  silent_mkdir_recursive silent_readFile silent_writeFile silent_copyFile
  silent_catchCacheError : silent.

Ltac silent_step :=
  first
    [ solve [auto with silent]
    | apply silent_emit; apply loader_only_false; [assumption|easy|easy]
    | apply @silent_try_catch_finally; [| intro |]
    | apply @silent_try_catch; [|intro]
    | apply @silent_bind; [|intro]
    | match goal with
      | |- silent _ (if ?b then _ else _) => destruct b
      | |- silent _ (match ?x with _ => _ end) => destruct x
      end ].

Lemma silent_generateImageInternal p env img filepath options :
  loader_only p ->
  silent p (generateImageInternal P env img filepath options).
Proof.
  intros Hp.
  unfold generateImageInternal, cacheLookup, regenerate,
    writeCacheAndFinal, readFileSync_utf8, logger_warn.
  repeat silent_step.
Qed.

Lemma silent_run_job p env j : loader_only p -> silent p (run_job P env j).
Proof.
  intros Hp. unfold run_job, generateImage, logger_info.
  pose proof (silent_generateImageInternal p env (job_image j)
                (job_filepath j) (job_options j) Hp).
  repeat silent_step.
Qed.

Lemma run_queue_silent p env queue w :
  loader_only p ->
  count p (trace (snd (run_queue P env queue w))) = count p (trace w).
Proof.
  intros Hp. revert w. induction queue as [|j rest IH]; intros w.
  - reflexivity.
  - cbn [run_queue].
    pose proof (silent_run_job p env j Hp w) as Hj.
    destruct (run_job P env j w) as [r w1]. cbn [snd] in Hj.
    specialize (IH w1).
    destruct (run_queue P env rest w1) as [rs w2]. cbn [snd] in *.
    congruence.
Qed.

(** ** The claims *)

(** C6: preparing the environment never throws.  When creating the cache
    directory fails, a warning is logged and the environment returned has
    [useCache = false]; when it succeeds, the environment has
    [useCache = true]. *)
Theorem prepareAssetsGeneration_degrades (config : AstroConfig) (w : World) :
  let dir := new_URL P "assets/" (cacheDir config) in
  exists env w',
    prepareAssetsGeneration P config w = (Ok env, w')
    /\ assetsCacheDir env = dir
    /\ match write_faults w !! dir with
       | Some code =>
           useCache env = false
           /\ trace w' =
                (trace w ++
                 [EvMkdir dir;
                  cacheWriteWarning (SystemError code "mkdir" dir)])%list
           /\ files w' = files w
       | None =>
           useCache env = true
           /\ trace w' = (trace w ++ [EvMkdir dir])%list
           /\ dir ∈ dirs w'
       end.
Proof.
  intros dir. unfold prepareAssetsGeneration.
  fold dir. unfold bind at 1. unfold try_catch, bind at 1.
  rewrite mkdir_recursive_eq.
  destruct (write_faults w !! dir) as [code|].
  - eexists _, _. split; [reflexivity|]. split; [reflexivity|].
    split; [reflexivity|]. split; [|reflexivity].
    cbn. now rewrite <- app_assoc.
  - eexists _, _. split; [reflexivity|]. split; [reflexivity|].
    split; [reflexivity|]. split; [reflexivity|].
    cbn. apply elem_of_union_l, elem_of_with_ancestors.
Qed.

(** C7: on a cache miss, when the transform capability throws, the job
    fails with that error, no write is attempted after the lookup, and
    the files are what they were before the job: neither a cache entry
    nor a final artifact is written. *)
Theorem transform_failure_writes_nothing
  (env : Env) (img : LoadedImage) (filepath : string)
  (options : ImageTransform) (w w1 : World)
  (service : LocalImageService) (e : exn) :
  let isLocal := isESMImportedImage (src options) in
  let final := finalFileURL_of P env filepath in
  let cached := cachedFileURL_of P env filepath options in
  let folder := new_URL P "./" final in
  cacheLookup P isLocal cached final w = (Ok None, w1) ->
  write_faults w !! folder = None ->
  getConfiguredImageService P = Ok service ->
  transform service (data img) (serviceOptions options) (imageConfig env)
    = Throw e ->
  exists w',
    generateImageInternal P env img filepath options w = (Throw e, w')
    /\ files w' = files w
    /\ trace w' =
         (trace w1 ++
          [EvMkdir folder; EvGetService;
           EvTransform (data img) (serviceOptions options)])%list.
Proof.
  intros isLocal final cached folder Hmiss Hmk Hsvc Htr.
  pose proof (cacheLookup_store _ _ _ _ _ Hmiss) as Hst.
  destruct Hst as (Hf & Hd & Hrf & Hwf & Hc).
  rewrite generateImageInternal_eq. cbn zeta.
  fold isLocal final cached. rewrite Hmiss.
  rewrite regenerate_eq. cbn zeta. fold folder.
  rewrite Hwf, Hmk, Hsvc, Htr.
  eexists. split; [reflexivity|]. split.
  - cbn. exact Hf.
  - cbn. now rewrite <- !app_assoc.
Qed.


(** C1: for a job that reaches the write phase (a miss, then the
    transform returned [out]): the last call the job makes is the write of
    [out] to the final location, whatever happened to the cache entry; if
    that write succeeds the job reports the generation and the final file
    holds [out]; and if the cache write fails with [e], whether the cache
    file could not be opened or could not be written once open, [e] is
    logged as a warning and swallowed, the final write still following
    it.  A cache write that fails once the file is open leaves the cache
    file empty. *)
Theorem cache_write_failure_is_swallowed
  (env : Env) (img : LoadedImage) (filepath : string)
  (options : ImageTransform) (w w1 : World)
  (service : LocalImageService) (out : Buffer) :
  let isLocal := isESMImportedImage (src options) in
  let final := finalFileURL_of P env filepath in
  let cached := cachedFileURL_of P env filepath options in
  let folder := new_URL P "./" final in
  let entry :=
    if isLocal then out
    else utf8_encode (remoteEntryText out (expires img)) in
  let made := with_ancestors P folder ∪ dirs w in
  cacheLookup P isLocal cached final w = (Ok None, w1) ->
  write_faults w !! folder = None ->
  getConfiguredImageService P = Ok service ->
  transform service (data img) (serviceOptions options) (imageConfig env)
    = Ok out ->
  exists r w',
    generateImageInternal P env img filepath options w = (r, w')
    /\ last (trace w') = Some (EvWriteFile final out)
    /\ (write_faults w !! final = None ->
        r = Ok (GenerationDataUncached (kilobytes (data img))
                  (kilobytes out))
        /\ files w' !! final = Some out)
    /\ (useCache env = true ->
        forall e emptied,
          write_failure P (write_faults w) made cached = Some (e, emptied) ->
          trace w' =
            (trace w1 ++
             [EvMkdir folder; EvGetService;
              EvTransform (data img) (serviceOptions options);
              EvWriteFile cached entry; cacheWriteWarning e;
              EvWriteFile final out])%list
          /\ (write_faults w !! final = None ->
              files w' =
              <[final := out]>
                (if emptied then <[cached := []]> (files w) else files w))).
Proof.
  intros isLocal final cached folder entry made Hmiss Hmk Hsvc Htr.
  pose proof (cacheLookup_store _ _ _ _ _ Hmiss) as Hst.
  destruct Hst as (Hf & Hd & Hrf & Hwf & Hc).
  rewrite generateImageInternal_eq. cbn zeta.
  fold isLocal final cached. rewrite Hmiss.
  rewrite regenerate_eq. cbn zeta. fold folder.
  rewrite Hwf, Hmk, Hsvc, Htr.
  set (w2 := record (EvTransform _ _) _).
  assert (H2 : files w2 = files w
               /\ dirs w2 = made
               /\ write_faults w2 = write_faults w
               /\ trace w2 = (trace w1 ++ [EvMkdir folder; EvGetService;
                    EvTransform (data img) (serviceOptions options)])%list).
  { subst w2 made. cbn. rewrite Hf, Hd, Hwf, <- !app_assoc. easy. }
  clearbody w2. destruct H2 as (H2f & H2d & H2w & H2t).
  assert (Hfolder : parent P final ∈ made).
  { apply elem_of_union_l, elem_of_with_ancestors. }
  rewrite writeCacheAndFinal_eq. cbn zeta. fold entry.
  set (w3 := if useCache env then _ else w2).
  assert (H3 : write_faults w3 = write_faults w /\ dirs w3 = made).
  { subst w3. destruct (useCache env); [|now rewrite H2w, H2d].
    rewrite writeFile_eq. cbn zeta.
    destruct (write_failure _ _ _ _) as [[e []]|]; cbn; auto. }
  destruct H3 as [H3w H3d].
  pose proof (writeFile_trace final out w3) as Ht.
  rewrite (writeFile_eq final out w3) in *. cbn zeta in *.
  rewrite H3w, H3d in *.
  destruct (write_failure P (write_faults w) made final)
    as [[e' emptied']|] eqn:Hfin; cbn [snd] in Ht.
  - eexists _, _. split; [reflexivity|].
    split; [rewrite Ht; apply last_snoc|].
    split.
    + intros Hnone. rewrite write_failure_none in Hfin by assumption.
      discriminate.
    + intros Hu e emptied Hfail. split.
      * rewrite Ht. subst w3. rewrite Hu.
        rewrite writeFile_eq. cbn zeta. rewrite H2w, H2d, Hfail.
        destruct emptied; cbn; rewrite H2t, <- !app_assoc; reflexivity.
      * intros Hnone. rewrite write_failure_none in Hfin by assumption.
        discriminate.
  - eexists _, _. split; [reflexivity|].
    split; [rewrite Ht; apply last_snoc|].
    split.
    + intros _. split; [reflexivity|]. cbn. apply lookup_insert_eq.
    + intros Hu e emptied Hfail. subst w3. rewrite Hu.
      rewrite writeFile_eq. cbn zeta. rewrite H2w, H2d, Hfail.
      split.
      * destruct emptied; cbn; rewrite H2t, <- !app_assoc; reflexivity.
      * intros _. destruct emptied; cbn; rewrite H2f; reflexivity.
Qed.


(** X1: where the copy can succeed, a local-backed lookup is decided by the
    presence of the cache file.  Present: its bytes are copied to the
    final location, the job reports the reuse, and the copy is the only
    call made (the transform is not invoked).  Absent: the lookup finds
    nothing and the job goes on to regenerate. *)
Lemma local_lookup_by_presence
  (env : Env) (img : LoadedImage) (filepath : string)
  (options : ImageTransform) (w : World) :
  let final := finalFileURL_of P env filepath in
  let cached := cachedFileURL_of P env filepath options in
  let w1 := record (EvCopyFile cached final) w in
  isESMImportedImage (src options) = true ->
  read_faults w !! cached = None ->
  match files w !! cached with
  | Some bytes =>
      write_faults w !! final = None ->
      parent P final ∈ dirs w ->
      generateImageInternal P env img filepath options w =
      (Ok GenerationDataCached,
       with_files (<[final := bytes]> (files w)) w1)
  | None =>
      cacheLookup P true cached final w = (Ok None, w1)
      /\ generateImageInternal P env img filepath options w =
         regenerate P env img options true cached final w1
  end.
Proof.
  intros final cached w1 Hlocal Hrf.
  rewrite generateImageInternal_eq. cbn zeta. fold final cached.
  rewrite Hlocal, cacheLookup_local_eq, copyFile_eq. cbn zeta. rewrite Hrf.
  destruct (files w !! cached) as [bytes|].
  - intros Hwf Hd. rewrite Hwf.
    destruct (decide _); [reflexivity|contradiction].
  - rewrite catchCacheError_eq. cbn.
    destruct (decide _); [|congruence]. split; reflexivity.
Qed.



(** C2, as the code has it: a remote-backed entry that cannot be read
    back (the read fails with a code other than [ENOENT], or the text is
    not JSON, or it is the value [null]) makes the job fail with the error
    "An error was encountered while reading the cache file", nothing being
    regenerated.  An entry that is JSON but has no [expires] member is not
    rejected: the lookup finds nothing and the job regenerates. *)
Theorem unreadable_entry_is_fatal
  (env : Env) (img : LoadedImage) (filepath : string)
  (options : ImageTransform) :
  let final := finalFileURL_of P env filepath in
  let cached := cachedFileURL_of P env filepath options in
  isESMImportedImage (src options) = false ->
  (forall w e,
     unreadable w cached e ->
     generateImageInternal P env img filepath options w =
     (Throw (cacheReadError e), record (EvReadFile cached) w))
  /\ (forall w bytes v,
        read_faults w !! cached = None ->
        files w !! cached = Some bytes ->
        JSON.parse (utf8_decode bytes) = Ok v ->
        JSON.get_member v "expires" = Ok None ->
        generateImageInternal P env img filepath options w =
        regenerate P env img options false cached final
          (record (EvReadFile cached) w)).
Proof.
  intros final cached Hremote. split.
  - intros w e Hbad.
    rewrite generateImageInternal_eq. cbn zeta. fold final cached.
    rewrite Hremote, cacheLookup_remote_eq, readFile_eq. cbn zeta.
    destruct Hbad as [code Hrf Hcode|bytes e Hrf Hfile Hparse
                     |bytes e Hrf Hfile Hparse Hnull].
    + rewrite Hrf, catchCacheError_eq. cbn [exn_code].
      destruct (decide _) as [Heq|]; [|reflexivity].
      congruence.
    + rewrite Hrf, Hfile, Hparse, catchCacheError_eq.
      rewrite (parse_throws_syntax _ _ Hparse).
      destruct (decide _); [discriminate|reflexivity].
    + rewrite Hrf, Hfile, Hparse, Hnull, catchCacheError_eq.
      cbn in Hnull. injection Hnull as <-. cbn [exn_code].
      destruct (decide _); [discriminate|reflexivity].
  - intros w bytes v Hrf Hfile Hparse Hexp.
    rewrite generateImageInternal_eq. cbn zeta. fold final cached.
    rewrite Hremote, cacheLookup_remote_eq, readFile_eq. cbn zeta.
    rewrite Hrf, Hfile, Hparse, Hexp. reflexivity.
Qed.





(** C9, as the code has it: a job that returns the cached marker is a
    lookup hit and carries no sizes; a job that returns a generation is a
    lookup miss, and its two weights are the byte length of the source
    and the byte length of the transformed output, each divided by 1024
    and truncated: kilobytes, not bytes. *)
Theorem generation_weights_are_kilobytes
  (env : Env) (img : LoadedImage) (filepath : string)
  (options : ImageTransform) (w w' : World) (g : GenerationData) :
  let isLocal := isESMImportedImage (src options) in
  let final := finalFileURL_of P env filepath in
  let cached := cachedFileURL_of P env filepath options in
  generateImageInternal P env img filepath options w = (Ok g, w') ->
  match g with
  | GenerationDataCached =>
      cacheLookup P isLocal cached final w = (Ok (Some g), w')
  | GenerationDataUncached before after =>
      (exists w1, cacheLookup P isLocal cached final w = (Ok None, w1))
      /\ before = Z.quot (byteLength (data img)) 1024
      /\ exists service out,
           getConfiguredImageService P = Ok service
           /\ transform service (data img) (serviceOptions options)
                (imageConfig env) = Ok out
           /\ after = Z.quot (byteLength out) 1024
  end.
Proof.
  intros isLocal final cached.
  rewrite generateImageInternal_eq. cbn zeta. fold isLocal final cached.
  destruct (cacheLookup P isLocal cached final w) as [[[g0|]|e] w1] eqn:Hl;
    [| |discriminate].
  - pose proof (cacheLookup_some _ _ _ _ _ _ Hl) as ->.
    now intros [= <- <-].
  - rewrite regenerate_eq. cbn zeta.
    destruct (write_faults w1 !! _); [discriminate|].
    destruct (getConfiguredImageService P) as [service|]; [|discriminate].
    destruct (transform service _ _ _) as [out|] eqn:Htr; [|discriminate].
    destruct (writeCacheAndFinal _ _ _ _ _ _ _ _) as [[[]|] w3];
      [|discriminate].
    intros [= <- <-]. split; [eauto|]. split; [reflexivity|].
    exists service, out. auto.
Qed.

(** C10: the [useCache] flag gates the cache write only.  The lookup does
    not read it: whatever the flag, the job starts with the same lookup,
    and what the lookup returns or throws is what the job returns or
    throws; a job that reuses an entry does so whatever the flag is.
    After a miss, with the flag on, the first call after the transform is
    the write of the cache entry, and the cache file holds the entry when
    that write can succeed; with the flag off, the write of the final
    file is the only call after the transform, the cache file is as it
    was, and the job changes no file other than the final one. *)
Theorem useCache_gates_only_the_write
  (env : Env) (img : LoadedImage) (filepath : string)
  (options : ImageTransform) (w : World) :
  let isLocal := isESMImportedImage (src options) in
  let final := finalFileURL_of P env filepath in
  let cached := cachedFileURL_of P env filepath options in
  let folder := new_URL P "./" final in
  let made := with_ancestors P folder ∪ dirs w in
  (forall b,
     generateImageInternal P (set_useCache b env) img filepath options w =
     match cacheLookup P isLocal cached final w with
     | (Ok (Some generationData), w1) => (Ok generationData, w1)
     | (Ok None, w1) =>
         regenerate P (set_useCache b env) img options isLocal cached final
           w1
     | (Throw e, w1) => (Throw e, w1)
     end)
  /\ (forall b w',
        generateImageInternal P env img filepath options w
          = (Ok GenerationDataCached, w') ->
        generateImageInternal P (set_useCache b env) img filepath options w
          = (Ok GenerationDataCached, w'))
  /\ (useCache env = false ->
      forall r w',
        generateImageInternal P env img filepath options w = (r, w') ->
        forall p, p <> final -> files w' !! p = files w !! p)
  /\ (forall w1 service out,
        let entry :=
          if isLocal then out
          else utf8_encode (remoteEntryText out (expires img)) in
        cacheLookup P isLocal cached final w = (Ok None, w1) ->
        write_faults w !! folder = None ->
        getConfiguredImageService P = Ok service ->
        transform service (data img) (serviceOptions options)
          (imageConfig env) = Ok out ->
        cached <> final ->
        exists r w',
          generateImageInternal P env img filepath options w = (r, w')
          /\ if useCache env then
               trace w' =
                 (trace w1 ++
                  [EvMkdir folder; EvGetService;
                   EvTransform (data img) (serviceOptions options);
                   EvWriteFile cached entry] ++
                  match write_failure P (write_faults w) made cached with
                  | Some (e, _) =>
                      [cacheWriteWarning e; EvWriteFile final out]
                  | None => [EvWriteFile final out]
                  end)%list
               /\ (write_failure P (write_faults w) made cached = None ->
                   files w' !! cached = Some entry)
             else
               trace w' =
                 (trace w1 ++
                  [EvMkdir folder; EvGetService;
                   EvTransform (data img) (serviceOptions options);
                   EvWriteFile final out])%list
               /\ files w' !! cached = files w !! cached).
Proof.
  intros isLocal final cached folder made.
  assert (Hsame : forall b,
            generateImageInternal P (set_useCache b env) img filepath
              options w =
            match cacheLookup P isLocal cached final w with
            | (Ok (Some generationData), w1) => (Ok generationData, w1)
            | (Ok None, w1) =>
                regenerate P (set_useCache b env) img options isLocal
                  cached final w1
            | (Throw e, w1) => (Throw e, w1)
            end).
  { intros b. rewrite generateImageInternal_eq. reflexivity. }
  split; [exact Hsame|]. split; [|split].
  - intros b w'. rewrite Hsame, generateImageInternal_eq. cbn zeta.
    fold isLocal final cached.
    destruct (cacheLookup _ _ _ _ _) as [[[g|]|e] w1]; try easy.
    rewrite regenerate_eq. cbn zeta.
    destruct (write_faults w1 !! _); [discriminate|].
    destruct (getConfiguredImageService P) as [service|]; [|discriminate].
    destruct (transform service _ _ _) as [out|]; [|discriminate].
    destruct (writeCacheAndFinal _ _ _ _ _ _ _ _) as [[[]|] w3];
      discriminate.
  - intros Hoff r w'. rewrite generateImageInternal_eq. cbn zeta.
    fold final.
    destruct (cacheLookup _ _ _ _ _) as [[[g|]|e] w1] eqn:Hl.
    + intros [= <- <-]. eapply cacheLookup_files; eauto.
    + pose proof (cacheLookup_files _ _ _ _ _ _ Hl) as Hf1.
      rewrite regenerate_eq. cbn zeta.
      destruct (write_faults w1 !! _); [intros [= <- <-]; exact Hf1|].
      destruct (getConfiguredImageService P) as [service|];
        [|intros [= <- <-]; exact Hf1].
      destruct (transform service _ _ _) as [out|];
        [|intros [= <- <-]; exact Hf1].
      rewrite writeCacheAndFinal_eq. cbn zeta. rewrite Hoff.
      destruct (writeFile P final out _) as [[[]|e] w3] eqn:Hw;
        intros [= <- <-] p Hp;
        rewrite (writeFile_files _ _ _ _ _ Hw p Hp); cbn; auto.
    + intros [= <- <-]. eapply cacheLookup_files; eauto.
  - intros w1 service out entry Hmiss Hmk Hsvc Htr Hne.
    pose proof (cacheLookup_store _ _ _ _ _ Hmiss) as Hst.
    destruct Hst as (Hf & Hd & Hrf & Hwf & Hc).
    rewrite generateImageInternal_eq. cbn zeta.
    fold isLocal final cached. rewrite Hmiss.
    rewrite regenerate_eq. cbn zeta. fold folder.
    rewrite Hwf, Hmk, Hsvc, Htr.
    set (w2 := record (EvTransform _ _) _).
    assert (H2 : files w2 = files w
                 /\ dirs w2 = made
                 /\ write_faults w2 = write_faults w
                 /\ trace w2 =
                      (trace w1 ++ [EvMkdir folder; EvGetService;
                         EvTransform (data img) (serviceOptions options)])
                        %list).
    { subst w2 made. cbn. rewrite Hf, Hd, Hwf, <- !app_assoc. easy. }
    clearbody w2. destruct H2 as (H2f & H2d & H2w & H2t).
    rewrite writeCacheAndFinal_eq. cbn zeta. fold entry.
    destruct (useCache env).
    + rewrite (writeFile_eq cached entry w2). cbn zeta.
      rewrite H2w, H2d.
      destruct (write_failure P (write_faults w) made cached)
        as [[e emptied]|].
      * match goal with
        | |- context [writeFile P final out ?x] =>
            pose proof (writeFile_trace final out x) as Ht;
            destruct (writeFile P final out x) as [[[]|e'] w4]
        end; cbn [snd] in Ht; eexists _, _; (split; [reflexivity|]);
          (split; [|discriminate]); rewrite Ht;
          destruct emptied; cbn; rewrite H2t, <- !app_assoc; reflexivity.
      * match goal with
        | |- context [writeFile P final out ?x] =>
            pose proof (writeFile_trace final out x) as Ht;
            pose proof (fun r w' H =>
                          writeFile_files final out x r w' H cached Hne)
              as Hfiles;
            destruct (writeFile P final out x) as [[[]|e'] w4]
        end; cbn [snd] in Ht; eexists _, _; (split; [reflexivity|]);
          (split;
           [rewrite Ht; cbn; rewrite H2t, <- !app_assoc; reflexivity|]);
          intros _; erewrite Hfiles by reflexivity; cbn;
          apply lookup_insert_eq.
    + pose proof (writeFile_trace final out w2) as Ht.
      pose proof (fun r w' H =>
                    writeFile_files final out w2 r w' H cached Hne)
        as Hfiles.
      destruct (writeFile P final out w2) as [[[]|e'] w4];
        cbn [snd] in Ht; eexists _, _; (split; [reflexivity|]);
        (split; [rewrite Ht, H2t, <- !app_assoc; reflexivity|]);
        erewrite Hfiles by reflexivity; now rewrite H2f.
Qed.


(** C5: one call of [generateImagesForPath] calls the Source Loader
    exactly once, whatever the number of transforms; nothing else has
    happened when it returns, so the load precedes every job; each of the
    jobs it queues holds the one loaded image; and running queued jobs
    never calls the loader, nor the fetch, again. *)
Theorem source_loaded_once_per_path
  (originalFilePath : string) (transforms : list (string * TransformEntry))
  (env : Env) (queue : list Job) (w : World) :
  exists r w',
    loadImage P originalFilePath env w = (r, w')
    /\ count is_load (trace w') = S (count is_load (trace w))
    /\ generateImagesForPath P originalFilePath transforms env queue w =
       (match r with
        | Ok originalImageData =>
            Ok (queue ++
                map (fun kv =>
                       {| job_image := originalImageData;
                          job_filepath := finalPath (snd kv);
                          job_options := entry_transform (snd kv) |})
                    transforms)%list
        | Throw e => Throw e
        end, w')
    /\ forall jobs w0,
         let w2 := snd (run_queue P env jobs w0) in
         count is_load (trace w2) = count is_load (trace w0)
         /\ count is_fetch (trace w2) = count is_fetch (trace w0).
Proof.
  destruct (loadImage P originalFilePath env w) as [r w'] eqn:Hload.
  exists r, w'. split; [reflexivity|]. split; [|split].
  - unfold loadImage, bind, emit in Hload.
    destruct (isRemotePath P originalFilePath).
    + unfold lift, ret in Hload.
      destruct (loadRemoteImage P originalFilePath);
        injection Hload as <- <-; count_trace; cbn; lia.
    + rewrite readFile_eq in Hload.
      cbn in Hload.
      destruct (read_faults w !! _); [|destruct (files w !! _)];
        injection Hload as <- <-; count_trace; cbn; lia.
  - unfold generateImagesForPath, bind. rewrite Hload.
    destruct r; reflexivity.
  - intros jobs w0. split; apply run_queue_silent; intros ev; auto.
Qed.

End GenerateFacts.

(** ** More about [generate.ts] *)

Section MoreGenerateFacts.

Context (P : Platform).

#[local] Hint Rewrite files_record dirs_record read_faults_record
  write_faults_record clock_record trace_record files_with_files
  dirs_with_files read_faults_with_files write_faults_with_files
  clock_with_files trace_with_files files_with_dirs dirs_with_dirs
  read_faults_with_dirs write_faults_with_dirs clock_with_dirs
  trace_with_dirs : world.

Ltac world_simpl := cbn beta iota zeta; autorewrite with world.

Lemma writeFile_keeps path content w :
  let w' := snd (writeFile P path content w) in
  dirs w' = dirs w /\ read_faults w' = read_faults w
  /\ write_faults w' = write_faults w /\ clock w' = clock w.
Proof.
  rewrite writeFile_eq. cbn zeta.
  destruct (write_failure _ _ _ _) as [[e []]|]; easy.
Qed.

Lemma writeFile_Ok_inv path content w u w' :
  writeFile P path content w = (Ok u, w') ->
  write_faults w !! path = None
  /\ parent P path ∈ dirs w
  /\ w' = with_files (<[path := content]> (files w))
            (record (EvWriteFile path content) w).
Proof.
  rewrite writeFile_eq. cbn zeta. unfold write_failure.
  destruct (write_faults w !! path) as [code|].
  - destruct (fails_once_open code); [destruct (decide _)|]; discriminate.
  - destruct (decide _); [|discriminate].
    intros [= _ <-]. auto.
Qed.

Lemma copyFile_Ok_inv from to w u w' :
  copyFile P from to w = (Ok u, w') ->
  exists content,
    files w !! from = Some content
    /\ parent P to ∈ dirs w
    /\ w' = with_files (<[to := content]> (files w))
              (record (EvCopyFile from to) w).
Proof.
  rewrite copyFile_eq. cbn zeta.
  destruct (read_faults w !! from); [discriminate|].
  destruct (files w !! from) as [content|]; [|discriminate].
  destruct (write_faults w !! to) as [code|].
  - destruct (fails_once_open code); [|discriminate].
    destruct (decide _); [|discriminate].
    destruct (decide _); [|discriminate].
    intros [= _ <-]. eauto.
  - destruct (decide _); [|discriminate].
    intros [= _ <-]. eauto.
Qed.

Lemma catchCacheError_not_some e w g w1 :
  catchCacheError e w = (Ok (Some g), w1) -> False.
Proof.
  rewrite catchCacheError_eq. destruct (decide _); discriminate.
Qed.

(** What a lookup that returns a value has done. *)
Lemma cacheLookup_Some_inv (isLocal : bool) cached final w g w1 :
  cacheLookup P isLocal cached final w = (Ok (Some g), w1) ->
  exists content,
    g = GenerationDataCached
    /\ parent P final ∈ dirs w
    /\ (isLocal = true -> files w !! cached = Some content)
    /\ files w1 = <[final := content]> (files w)
    /\ same_store (with_files (files w1) w) w1
    /\ trace w1 =
         (trace w ++
          if isLocal then [EvCopyFile cached final]
          else [EvReadFile cached; EvWriteFile final content])%list.
Proof.
  destruct isLocal.
  - rewrite cacheLookup_local_eq.
    destruct (copyFile P cached final w) as [[[]|e] w'] eqn:Hc.
    + intros [= <- <-].
      apply copyFile_Ok_inv in Hc as (content & ? & ? & ->).
      exists content. repeat split; auto.
    + intros H. now apply catchCacheError_not_some in H.
  - rewrite cacheLookup_remote_eq. cbn zeta.
    destruct (readFile cached w) as [[bytes|e] w0];
      [|intros H; now apply catchCacheError_not_some in H].
    destruct (JSON.parse _) as [v|e];
      [|intros H; now apply catchCacheError_not_some in H].
    destruct (JSON.get_member v "expires") as [x|e];
      [|intros H; now apply catchCacheError_not_some in H].
    destruct (js_gt P x (clock w)) as [[]|e];
      [|discriminate|intros H; now apply catchCacheError_not_some in H].
    destruct (JSON.get_member v "data") as [d|e];
      [|intros H; now apply catchCacheError_not_some in H].
    destruct (Buffer_from_base64 P d) as [content|e];
      [|intros H; now apply catchCacheError_not_some in H].
    destruct (writeFile P final content _) as [[[]|e] w2] eqn:Hw;
      [|intros H; now apply catchCacheError_not_some in H].
    intros [= <- <-].
    apply writeFile_Ok_inv in Hw as (? & ? & ->).
    exists content. repeat split; auto; try discriminate.
    cbn. now rewrite <- app_assoc.
Qed.

(** Regeneration never returns the cached marker. *)
Lemma regenerate_Ok_inv env img options isLocal cached final w g w' :
  regenerate P env img options isLocal cached final w = (Ok g, w') ->
  exists service out,
    write_faults w !! new_URL P "./" final = None
    /\ getConfiguredImageService P = Ok service
    /\ transform service (data img) (serviceOptions options)
         (imageConfig env) = Ok out
    /\ g = GenerationDataUncached (kilobytes (data img)) (kilobytes out)
    /\ writeCacheAndFinal P env isLocal cached final out (expires img)
         (record (EvTransform (data img) (serviceOptions options))
            (record EvGetService
               (with_dirs (with_ancestors P (new_URL P "./" final) ∪ dirs w)
                  (record (EvMkdir (new_URL P "./" final)) w))))
       = (Ok tt, w').
Proof.
  rewrite regenerate_eq. cbn zeta.
  destruct (write_faults w !! _); [discriminate|].
  destruct (getConfiguredImageService P) as [service|]; [|discriminate].
  destruct (transform service _ _ _) as [out|] eqn:Htr; [|discriminate].
  destruct (writeCacheAndFinal _ _ _ _ _ _ _ _) as [[[]|] w3] eqn:Hw;
    [|discriminate].
  intros [= <- <-]. exists service, out. auto.
Qed.

Lemma writeCacheAndFinal_Ok_inv env isLocal cached final content expiry
  w u w' :
  writeCacheAndFinal P env isLocal cached final content expiry w
    = (Ok u, w') ->
  files w' !! final = Some content /\ dirs w' = dirs w.
Proof.
  rewrite writeCacheAndFinal_eq. cbn zeta. intros H.
  apply writeFile_Ok_inv in H as (_ & _ & ->). split.
  - world_simpl. apply lookup_insert_eq.
  - world_simpl. destruct (useCache env); [|reflexivity].
    match goal with
    | |- context [writeFile P cached ?c w] =>
        pose proof (writeFile_keeps cached c w) as (Hd & _);
        destruct (writeFile P cached c w) as [[[]|e] w1]
    end; cbn [snd] in Hd; world_simpl; exact Hd.
Qed.

(** X3: a job that returns leaves a file at the final location, in a
    folder that exists; when it reports a generation, that file holds the
    bytes the transform returned. *)
Theorem successful_job_leaves_final_file
  (env : Env) (img : LoadedImage) (filepath : string)
  (options : ImageTransform) (w w' : World) (g : GenerationData) :
  let final := finalFileURL_of P env filepath in
  generateImageInternal P env img filepath options w = (Ok g, w') ->
  parent P final ∈ dirs w'
  /\ is_Some (files w' !! final)
  /\ match g with
     | GenerationDataCached => True
     | GenerationDataUncached _ _ =>
         exists service out,
           getConfiguredImageService P = Ok service
           /\ transform service (data img) (serviceOptions options)
                (imageConfig env) = Ok out
           /\ files w' !! final = Some out
     end.
Proof.
  intros final. rewrite generateImageInternal_eq. cbn zeta. fold final.
  destruct (cacheLookup P _ _ final w) as [[[g0|]|e] w1] eqn:Hl;
    [| |discriminate].
  - intros [= <- <-].
    apply cacheLookup_Some_inv in Hl
      as (content & -> & Hd & _ & Hf & (_ & Hdirs & _) & _).
    split; [rewrite Hdirs; exact Hd|]. split; [|exact I].
    rewrite Hf, lookup_insert_eq. eauto.
  - intros H.
    apply regenerate_Ok_inv in H
      as (service & out & _ & Hsvc & Htr & -> & Hw).
    apply writeCacheAndFinal_Ok_inv in Hw as [Hf Hd].
    split.
    { rewrite Hd. cbn. apply elem_of_union_l, elem_of_with_ancestors. }
    split; [rewrite Hf; eauto|].
    exists service, out. auto.
Qed.


(** X4: a job that reports the reuse of a cache entry has written the
    final file and nothing else: every other file and the directories are
    as they were, and the only calls made are the copy (local source) or
    the read of the entry and the write of the final file (remote
    source); for a local source the final file holds the bytes of the
    cache file. *)
Theorem reuse_only_writes_the_final_file
  (env : Env) (img : LoadedImage) (filepath : string)
  (options : ImageTransform) (w w' : World) :
  let isLocal := isESMImportedImage (src options) in
  let final := finalFileURL_of P env filepath in
  let cached := cachedFileURL_of P env filepath options in
  generateImageInternal P env img filepath options w
    = (Ok GenerationDataCached, w') ->
  exists content,
    files w' = <[final := content]> (files w)
    /\ (isLocal = true -> files w !! cached = Some content)
    /\ dirs w' = dirs w
    /\ trace w' =
         (trace w ++
          if isLocal then [EvCopyFile cached final]
          else [EvReadFile cached; EvWriteFile final content])%list.
Proof.
  intros isLocal final cached.
  rewrite generateImageInternal_eq. cbn zeta. fold isLocal final cached.
  destruct (cacheLookup P isLocal cached final w) as [[[g0|]|e] w1] eqn:Hl;
    [| |discriminate].
  - intros [= -> <-].
    apply cacheLookup_Some_inv in Hl
      as (content & _ & _ & Hc & Hf & (_ & Hdirs & _) & Ht).
    exists content. auto.
  - intros H. apply regenerate_Ok_inv in H as (? & ? & _ & _ & _ & ? & _).
    discriminate.
Qed.

(** *** What a job leaves alone *)

Lemma job_frame_refl cached final made w : job_frame cached final made w w.
Proof.
  repeat split; auto. exists []. now rewrite app_nil_r.
Qed.

Lemma job_frame_trans cached final made w1 w2 w3 :
  job_frame cached final made w1 w2 ->
  job_frame cached final made w2 w3 ->
  job_frame cached final made w1 w3.
Proof.
  intros (Hf & Hd & evs & Ht) (Hf' & Hd' & evs' & Ht').
  repeat split.
  - intros p H1 H2. rewrite Hf', Hf; auto.
  - destruct Hd as [Hd|Hd], Hd' as [Hd'|Hd']; rewrite Hd', Hd; auto.
    right. now rewrite (assoc_L (∪)), (idemp_L (∪)).
  - exists (evs ++ evs')%list. rewrite Ht', Ht. now rewrite app_assoc.
Qed.

Lemma job_frame_record cached final made ev w :
  job_frame cached final made w (record ev w).
Proof.
  repeat split; auto. now exists [ev].
Qed.

Lemma job_frame_files cached final made f w :
  (forall p, p <> cached -> p <> final -> f !! p = files w !! p) ->
  job_frame cached final made w (with_files f w).
Proof.
  intros Hf. repeat split; auto.
  exists []. cbn. now rewrite app_nil_r.
Qed.

Lemma job_frame_writeFile cached final made path content w :
  path = cached \/ path = final ->
  job_frame cached final made w (snd (writeFile P path content w)).
Proof.
  intros Hp. rewrite writeFile_eq. cbn zeta.
  destruct (write_failure _ _ _ _) as [[e []]|]; cbn [snd];
    try apply job_frame_record;
    (eapply job_frame_trans; [apply job_frame_record|]);
    apply job_frame_files; intros p H1 H2; cbn;
    apply lookup_insert_ne; destruct Hp; congruence.
Qed.

Lemma job_frame_copyFile cached final made w :
  job_frame cached final made w (snd (copyFile P cached final w)).
Proof.
  rewrite copyFile_eq. cbn zeta.
  destruct (read_faults w !! cached); [apply job_frame_record|].
  destruct (files w !! cached) as [content|]; [|apply job_frame_record].
  destruct (write_faults w !! final) as [code|];
    [destruct (fails_once_open code)|]; repeat destruct (decide _);
    cbn [snd]; try apply job_frame_record;
    (eapply job_frame_trans; [apply job_frame_record|]);
    apply job_frame_files; intros p H1 H2; cbn;
    rewrite ?lookup_insert_ne, ?lookup_delete_ne by congruence;
    reflexivity.
Qed.

Lemma job_frame_cacheLookup isLocal cached final made w :
  job_frame cached final made w
    (snd (cacheLookup P isLocal cached final w)).
Proof.
  destruct isLocal.
  - rewrite cacheLookup_local_eq.
    pose proof (job_frame_copyFile cached final made w) as H.
    destruct (copyFile P cached final w) as [[[]|e] w']; cbn [snd] in *;
      [exact H|now rewrite catchCacheError_snd].
  - rewrite cacheLookup_remote_eq. cbn zeta.
    pose proof (job_frame_record cached final made (EvReadFile cached) w)
      as H1.
    destruct (readFile cached w) as [[bytes|e] w0];
      [|now rewrite catchCacheError_snd].
    destruct (JSON.parse _) as [v|e]; [|now rewrite catchCacheError_snd].
    destruct (JSON.get_member v "expires") as [x|e];
      [|now rewrite catchCacheError_snd].
    destruct (js_gt P x (clock w)) as [[]|e];
      [|exact H1|now rewrite catchCacheError_snd].
    destruct (JSON.get_member v "data") as [d|e];
      [|now rewrite catchCacheError_snd].
    destruct (Buffer_from_base64 P d) as [content|e];
      [|now rewrite catchCacheError_snd].
    pose proof (job_frame_writeFile cached final made final content
                  (record (EvReadFile cached) w) (or_intror eq_refl)) as H2.
    destruct (writeFile P final content _) as [[[]|e] w2]; cbn [snd] in *;
      rewrite ?catchCacheError_snd;
      eapply job_frame_trans; eauto.
Qed.

Lemma job_frame_writeCacheAndFinal env isLocal cached final made content
  expiry w :
  job_frame cached final made w
    (snd (writeCacheAndFinal P env isLocal cached final content expiry w)).
Proof.
  rewrite writeCacheAndFinal_eq. cbn zeta.
  eapply job_frame_trans;
    [|apply job_frame_writeFile; now right].
  destruct (useCache env); [|apply job_frame_refl].
  match goal with
  | |- context [writeFile P cached ?c w] =>
      pose proof (job_frame_writeFile cached final made cached c w
                    (or_introl eq_refl)) as H;
      destruct (writeFile P cached c w) as [[[]|e] w1]
  end; cbn [snd] in H; [exact H|].
  eapply job_frame_trans; [exact H|apply job_frame_record].
Qed.

Lemma job_frame_regenerate env img options isLocal cached final w :
  job_frame cached final (with_ancestors P (new_URL P "./" final)) w
    (snd (regenerate P env img options isLocal cached final w)).
Proof.
  rewrite regenerate_eq. cbn zeta.
  set (folder := new_URL P "./" final).
  set (made := with_ancestors P folder).
  destruct (write_faults w !! folder); [apply job_frame_record|].
  assert (H1 : job_frame cached final made w
                 (record EvGetService
                    (with_dirs (made ∪ dirs w)
                       (record (EvMkdir folder) w)))).
  { repeat split; auto. exists [EvMkdir folder; EvGetService].
    cbn. now rewrite <- app_assoc. }
  destruct (getConfiguredImageService P) as [service|]; [|exact H1].
  assert (H2 : job_frame cached final made w
                 (record (EvTransform (data img) (serviceOptions options))
                    (record EvGetService
                       (with_dirs (made ∪ dirs w)
                          (record (EvMkdir folder) w))))).
  { eapply job_frame_trans; [exact H1|apply job_frame_record]. }
  destruct (transform service _ _ _) as [out|]; [|exact H2].
  match goal with
  | |- context [writeCacheAndFinal P env isLocal cached final out ?x ?y] =>
      pose proof (job_frame_writeCacheAndFinal env isLocal cached final
                    made out x y) as H3;
      destruct (writeCacheAndFinal P env isLocal cached final out x y)
        as [[[]|e] w3]
  end; cbn [snd] in *; eapply job_frame_trans; eauto.
Qed.

Lemma job_frame_generateImageInternal env img filepath options w :
  let final := finalFileURL_of P env filepath in
  let cached := cachedFileURL_of P env filepath options in
  let folder := new_URL P "./" final in
  job_frame cached final (with_ancestors P folder) w
    (snd (generateImageInternal P env img filepath options w)).
Proof.
  intros final cached folder.
  rewrite generateImageInternal_eq. cbn zeta. fold final cached.
  pose proof (job_frame_cacheLookup (isESMImportedImage (src options))
                cached final (with_ancestors P folder) w) as H1.
  destruct (cacheLookup P _ cached final w) as [[[g|]|e] w1];
    cbn [snd] in *; try exact H1.
  eapply job_frame_trans; [exact H1|].
  apply job_frame_regenerate.
Qed.

(** X5: whatever its outcome, a job changes no file other than its cache
    entry and its final file, and creates no directory other than the
    folder of the final file and the directories above it; it only adds
    to the record of calls. *)
Theorem job_touches_only_its_two_files
  (env : Env) (img : LoadedImage) (filepath : string)
  (options : ImageTransform) (w : World) :
  let final := finalFileURL_of P env filepath in
  let cached := cachedFileURL_of P env filepath options in
  let folder := new_URL P "./" final in
  let w' := snd (generateImageInternal P env img filepath options w) in
  (forall p, p <> cached -> p <> final -> files w' !! p = files w !! p)
  /\ (dirs w' = dirs w \/ dirs w' = with_ancestors P folder ∪ dirs w)
  /\ exists evs, trace w' = (trace w ++ evs)%list.
Proof.
  exact (job_frame_generateImageInternal env img filepath options w).
Qed.

(** *** A build after a build *)

Lemma lookup_miss_then_generation env img filepath options w w0 service out :
  let isLocal := isESMImportedImage (src options) in
  let final := finalFileURL_of P env filepath in
  let cached := cachedFileURL_of P env filepath options in
  let folder := new_URL P "./" final in
  let entry :=
    if isLocal then out
    else utf8_encode (remoteEntryText out (expires img)) in
  cacheLookup P isLocal cached final w = (Ok None, w0) ->
  useCache env = true ->
  write_faults w !! folder = None ->
  write_faults w !! cached = None ->
  write_faults w !! final = None ->
  parent P cached ∈ ({[folder]} ∪ dirs w : gset URL) ->
  getConfiguredImageService P = Ok service ->
  transform service (data img) (serviceOptions options) (imageConfig env)
    = Ok out ->
  exists w1,
    generateImageInternal P env img filepath options w =
    (Ok (GenerationDataUncached (kilobytes (data img)) (kilobytes out)), w1)
    /\ files w1 = <[final := out]> (<[cached := entry]> (files w))
    /\ dirs w1 = with_ancestors P folder ∪ dirs w
    /\ read_faults w1 = read_faults w
    /\ write_faults w1 = write_faults w
    /\ clock w1 = clock w
    /\ trace w1 =
         (trace w0 ++
          [EvMkdir folder; EvGetService;
           EvTransform (data img) (serviceOptions options);
           EvWriteFile cached entry; EvWriteFile final out])%list.
Proof.
  intros isLocal final cached folder entry Hmiss Hu Hmk Hwc Hwf Hpc Hsvc Htr.
  pose proof (cacheLookup_store _ _ _ _ _ _ Hmiss) as Hst.
  destruct Hst as (Hf & Hd & Hrf & Hwf0 & Hc).
  rewrite generateImageInternal_eq. cbn zeta.
  fold isLocal final cached. rewrite Hmiss.
  rewrite regenerate_eq. cbn zeta. fold folder.
  rewrite Hwf0, Hmk, Hsvc, Htr.
  rewrite writeCacheAndFinal_eq. cbn zeta. fold entry. rewrite Hu.
  rewrite (writeFile_ok P cached entry);
    [|cbn; now rewrite Hwf0|cbn; rewrite Hd; now apply made_mono].
  rewrite (writeFile_ok P final out);
    [|cbn; now rewrite Hwf0
     |cbn; unfold parent; fold folder;
      apply elem_of_union_l, elem_of_with_ancestors].
  eexists. split; [reflexivity|]. cbn.
  rewrite Hf, Hd, Hrf, Hwf0, Hc, <- !app_assoc. easy.
Qed.

(** X6: a local-backed job that finds nothing to reuse and whose writes
    succeed, with caching enabled, leaves the world such that the same
    job run again, whatever source image is loaded then, reports the
    reuse: the only call it makes is the copy, and the final file still
    holds the output of the first run. *)
Theorem local_entry_written_is_reused_by_next_run
  (env : Env) (img img2 : LoadedImage) (filepath : string)
  (options : ImageTransform) (w w0 : World)
  (service : LocalImageService) (out : Buffer) :
  let final := finalFileURL_of P env filepath in
  let cached := cachedFileURL_of P env filepath options in
  let folder := new_URL P "./" final in
  isESMImportedImage (src options) = true ->
  cacheLookup P true cached final w = (Ok None, w0) ->
  useCache env = true ->
  read_faults w !! cached = None ->
  write_faults w !! folder = None ->
  write_faults w !! cached = None ->
  write_faults w !! final = None ->
  parent P cached ∈ ({[folder]} ∪ dirs w : gset URL) ->
  getConfiguredImageService P = Ok service ->
  transform service (data img) (serviceOptions options) (imageConfig env)
    = Ok out ->
  exists w1 w2,
    generateImageInternal P env img filepath options w =
    (Ok (GenerationDataUncached (kilobytes (data img)) (kilobytes out)), w1)
    /\ generateImageInternal P env img2 filepath options w1 =
       (Ok GenerationDataCached, w2)
    /\ files w2 = files w1
    /\ files w2 !! final = Some out
    /\ trace w2 = (trace w1 ++ [EvCopyFile cached final])%list.
Proof.
  intros final cached folder Hlocal Hmiss Hu Hrf Hmk Hwc Hwf Hpc Hsvc Htr.
  rewrite <- Hlocal in Hmiss.
  destruct (lookup_miss_then_generation env img filepath options w w0
              service out Hmiss Hu Hmk Hwc Hwf Hpc Hsvc Htr)
    as (w1 & Hrun & Hf1 & Hd1 & Hr1 & Hw1 & Hc1 & Ht1).
  fold final cached folder in Hf1, Hd1, Ht1. rewrite Hlocal in Hf1.
  assert (Hfin : files w1 !! final = Some out).
  { rewrite Hf1. apply lookup_insert_eq. }
  assert (Hcached : files w1 !! cached = Some out).
  { rewrite Hf1. destruct (decide (final = cached)) as [->|Hne].
    - apply lookup_insert_eq.
    - rewrite lookup_insert_ne by exact Hne. apply lookup_insert_eq. }
  exists w1. eexists. split; [exact Hrun|].
  rewrite generateImageInternal_eq. cbn zeta. fold final cached.
  rewrite Hlocal, cacheLookup_local_eq, copyFile_eq. cbn zeta.
  rewrite Hr1, Hrf, Hcached, Hw1, Hwf.
  destruct (decide _) as [|Hn].
  - split; [reflexivity|]. cbn.
    rewrite (insert_id (files w1) final out Hfin). auto.
  - exfalso. apply Hn. rewrite Hd1. unfold parent. fold folder.
    apply elem_of_union_l, elem_of_with_ancestors.
Qed.

(** X7: a remote-backed job that finds nothing to reuse and whose writes
    succeed, with caching enabled, leaves an entry that the same job, run
    again at any time before the [expires] of the image it was generated
    from, reuses: it reads the entry, writes the same output to the final
    location, and does not call the transform. *)
Theorem remote_entry_written_is_reused_until_it_expires
  (env : Env) (img img2 : LoadedImage) (filepath : string)
  (options : ImageTransform) (w w0 : World)
  (service : LocalImageService) (out : Buffer) (now : Z) :
  let final := finalFileURL_of P env filepath in
  let cached := cachedFileURL_of P env filepath options in
  let folder := new_URL P "./" final in
  isESMImportedImage (src options) = false ->
  cached <> final ->
  cacheLookup P false cached final w = (Ok None, w0) ->
  useCache env = true ->
  read_faults w !! cached = None ->
  write_faults w !! folder = None ->
  write_faults w !! cached = None ->
  write_faults w !! final = None ->
  parent P cached ∈ ({[folder]} ∪ dirs w : gset URL) ->
  getConfiguredImageService P = Ok service ->
  transform service (data img) (serviceOptions options) (imageConfig env)
    = Ok out ->
  now < expires img ->
  exists w1 w2,
    generateImageInternal P env img filepath options w =
    (Ok (GenerationDataUncached (kilobytes (data img)) (kilobytes out)), w1)
    /\ generateImageInternal P env img2 filepath options (with_clock now w1)
       = (Ok GenerationDataCached, w2)
    /\ files w2 = files w1
    /\ files w2 !! final = Some out
    /\ trace w2 =
         (trace w1 ++ [EvReadFile cached; EvWriteFile final out])%list.
Proof.
  intros final cached folder Hremote Hne Hmiss Hu Hrf Hmk Hwc Hwf Hpc Hsvc
    Htr Hnow.
  rewrite <- Hremote in Hmiss.
  destruct (lookup_miss_then_generation env img filepath options w w0
              service out Hmiss Hu Hmk Hwc Hwf Hpc Hsvc Htr)
    as (w1 & Hrun & Hf1 & Hd1 & Hr1 & Hw1 & Hc1 & Ht1).
  fold final cached folder in Hf1, Hd1, Ht1. rewrite Hremote in Hf1.
  assert (Hfin : files w1 !! final = Some out).
  { rewrite Hf1. apply lookup_insert_eq. }
  exists w1. eexists. split; [exact Hrun|].
  pose proof (remote_entry_reused P env img2 filepath options
                (with_clock now w1)
                (utf8_encode (remoteEntryText out (expires img)))
                (JSON.entry_json (Base64.encode out) (expires img))
                (expires img) 0 (expires img) (Base64.encode out)) as H.
  cbn zeta in H. fold final cached in H.
  rewrite Base64Facts.decode_encode in H.
  rewrite H; clear H.
  - split; [reflexivity|]. cbn.
    rewrite (insert_id (files w1) final out Hfin).
    rewrite <- app_assoc. auto.
  - exact Hremote.
  - cbn. now rewrite Hr1.
  - cbn. rewrite Hf1, lookup_insert_ne by congruence.
    apply lookup_insert_eq.
  - unfold utf8_decode, utf8_encode, remoteEntryText.
    rewrite string_of_list_byte_of_string.
    apply JSONFacts.parse_stringify_entry.
  - reflexivity.
  - apply integer_value_integer.
  - reflexivity.
  - apply Base64Facts.is_ascii_encode.
  - exact Hnow.
  - cbn. now rewrite Hw1.
  - cbn. rewrite Hd1. unfold parent. fold folder.
    apply elem_of_union_l, elem_of_with_ancestors.
Qed.


(** X8: the same entry, looked up at or after its [expires], is not
    reused: the second run calls the transform on the image loaded for
    it, writes its output to the final location, and replaces the entry
    by one that carries the new output and the new [expires]. *)
Theorem remote_entry_is_regenerated_once_expired
  (env : Env) (img img2 : LoadedImage) (filepath : string)
  (options : ImageTransform) (w w0 : World)
  (service : LocalImageService) (out out2 : Buffer) (now : Z) :
  let final := finalFileURL_of P env filepath in
  let cached := cachedFileURL_of P env filepath options in
  let folder := new_URL P "./" final in
  let entry2 := utf8_encode (remoteEntryText out2 (expires img2)) in
  isESMImportedImage (src options) = false ->
  cached <> final ->
  cacheLookup P false cached final w = (Ok None, w0) ->
  useCache env = true ->
  read_faults w !! cached = None ->
  write_faults w !! folder = None ->
  write_faults w !! cached = None ->
  write_faults w !! final = None ->
  parent P cached ∈ ({[folder]} ∪ dirs w : gset URL) ->
  getConfiguredImageService P = Ok service ->
  transform service (data img) (serviceOptions options) (imageConfig env)
    = Ok out ->
  transform service (data img2) (serviceOptions options) (imageConfig env)
    = Ok out2 ->
  expires img <= now ->
  exists w1 w2,
    generateImageInternal P env img filepath options w =
    (Ok (GenerationDataUncached (kilobytes (data img)) (kilobytes out)), w1)
    /\ generateImageInternal P env img2 filepath options (with_clock now w1)
       = (Ok (GenerationDataUncached (kilobytes (data img2))
                (kilobytes out2)), w2)
    /\ files w2 !! cached = Some entry2
    /\ files w2 !! final = Some out2
    /\ trace w2 =
         (trace w1 ++
          [EvReadFile cached; EvMkdir folder; EvGetService;
           EvTransform (data img2) (serviceOptions options);
           EvWriteFile cached entry2; EvWriteFile final out2])%list.
Proof.
  intros final cached folder entry2 Hremote Hne Hmiss Hu Hrf Hmk Hwc Hwf Hpc
    Hsvc Htr Htr2 Hnow.
  rewrite <- Hremote in Hmiss.
  destruct (lookup_miss_then_generation env img filepath options w w0
              service out Hmiss Hu Hmk Hwc Hwf Hpc Hsvc Htr)
    as (w1 & Hrun & Hf1 & Hd1 & Hr1 & Hw1 & Hc1 & Ht1).
  fold final cached folder in Hf1, Hd1, Ht1. rewrite Hremote in Hf1.
  exists w1.
  assert (Hl : cacheLookup P (isESMImportedImage (src options)) cached final
                 (with_clock now w1)
               = (Ok None, record (EvReadFile cached) (with_clock now w1))).
  { rewrite Hremote, cacheLookup_remote_eq, readFile_eq. cbn zeta.
    change (read_faults (with_clock now w1)) with (read_faults w1).
    change (files (with_clock now w1)) with (files w1).
    change (clock (with_clock now w1)) with now.
    rewrite Hr1, Hrf, Hf1, lookup_insert_ne by congruence.
    rewrite lookup_insert_eq.
    unfold utf8_decode, utf8_encode, remoteEntryText.
    rewrite string_of_list_byte_of_string.
    rewrite JSONFacts.parse_stringify_entry.
    cbn [JSON.entry_json JSON.get_member].
    change (JSON.lookup_member "expires"
              [("data", JSON.JStr (Base64.encode out));
               ("expires", JSON.JNum (expires img) 0)])
      with (Some (JSON.JNum (expires img) 0)).
    cbn [js_gt]. rewrite integer_value_integer.
    destruct (now <? expires img) eqn:E; [|reflexivity].
    apply Z.ltb_lt in E. lia. }
  destruct (lookup_miss_then_generation env img2 filepath options
              (with_clock now w1) _ service out2 Hl Hu)
    as (w2 & Hrun2 & Hf2 & Hd2 & Hr2 & Hw2 & Hc2 & Ht2); try assumption.
  - change (write_faults (with_clock now w1)) with (write_faults w1).
    now rewrite Hw1.
  - change (write_faults (with_clock now w1)) with (write_faults w1).
    now rewrite Hw1.
  - change (write_faults (with_clock now w1)) with (write_faults w1).
    now rewrite Hw1.
  - change (dirs (with_clock now w1)) with (dirs w1). rewrite Hd1.
    apply elem_of_union_r. now apply made_mono.
  - fold final cached folder in Hf2, Ht2. rewrite Hremote in Hf2, Ht2.
    fold entry2 in Hf2, Ht2.
    exists w2. split; [exact Hrun|]. split; [exact Hrun2|].
    split; [|split].
    + rewrite Hf2, lookup_insert_ne by congruence. apply lookup_insert_eq.
    + rewrite Hf2. apply lookup_insert_eq.
    + rewrite Ht2. cbn. now rewrite <- app_assoc.
Qed.

(** *** What the lookup does not look at *)

(** X9: whether an entry is reused does not depend on the bytes of the
    source image nor on the options of the transform: a job that reports
    the reuse does the same, and leaves the same world, for any other
    loaded image and any other options of the same kind of source (local
    or remote). *)
Theorem reuse_ignores_source_and_options
  (env : Env) (img img2 : LoadedImage) (filepath : string)
  (options options2 : ImageTransform) (w w' : World) :
  isESMImportedImage (src options2) = isESMImportedImage (src options) ->
  generateImageInternal P env img filepath options w
    = (Ok GenerationDataCached, w') ->
  generateImageInternal P env img2 filepath options2 w
    = (Ok GenerationDataCached, w').
Proof.
  intros Hkind. rewrite !generateImageInternal_eq. cbn zeta.
  unfold cachedFileURL_of. rewrite Hkind.
  destruct (cacheLookup _ _ _ _ _) as [[[g|]|e] w1]; try easy.
  intros H. apply regenerate_Ok_inv in H as (? & ? & _ & _ & _ & ? & _).
  discriminate.
Qed.

(** *** Failures *)

(** X10: for a local source, a copy that fails with a code other than
    [ENOENT] is fatal, whether the cache file cannot be read or the final
    file cannot be written: the job throws "An error was encountered
    while reading the cache file" wrapping that error, and makes no call
    after the copy.  The store is as it was, except that a copy that
    fails once the final file is open (in a folder that exists, the final
    file being another file than the cache file) leaves no final
    file. *)
Theorem local_copy_failure_is_fatal
  (env : Env) (img : LoadedImage) (filepath : string)
  (options : ImageTransform) (w : World) (code : errno) :
  let final := finalFileURL_of P env filepath in
  let cached := cachedFileURL_of P env filepath options in
  isESMImportedImage (src options) = true ->
  code <> ENOENT ->
  (read_faults w !! cached = Some code ->
   generateImageInternal P env img filepath options w =
   (Throw (cacheReadError (SystemError code "copyfile" cached)),
    record (EvCopyFile cached final) w))
  /\ (read_faults w !! cached = None ->
      is_Some (files w !! cached) ->
      write_faults w !! final = Some code ->
      (fails_once_open code = true ->
       parent P final ∈ dirs w /\ cached <> final) ->
      generateImageInternal P env img filepath options w =
      (Throw (cacheReadError (SystemError code "copyfile" final)),
       if fails_once_open code
       then with_files (delete final (files w))
              (record (EvCopyFile cached final) w)
       else record (EvCopyFile cached final) w)).
Proof.
  intros final cached Hlocal Hcode.
  rewrite generateImageInternal_eq. cbn zeta. fold final cached.
  rewrite Hlocal, cacheLookup_local_eq, copyFile_eq. cbn zeta.
  split.
  - intros ->. rewrite catchCacheError_eq. cbn [exn_code].
    destruct (decide _); [congruence|reflexivity].
  - intros -> [content ->] -> Hdir.
    destruct (fails_once_open code).
    + destruct (Hdir eq_refl) as [Hd Hne].
      destruct (decide _) as [|Hn]; [|contradiction].
      destruct (decide _) as [|Hn]; [contradiction|].
      rewrite catchCacheError_eq. cbn [exn_code].
      destruct (decide _); [congruence|reflexivity].
    + rewrite catchCacheError_eq. cbn [exn_code].
      destruct (decide _); [congruence|reflexivity].
Qed.

(** X11: on a miss, when the folder of the final file cannot be
    created, the job throws the error of [mkdir] as it is (whatever its
    code), the store is untouched, and neither the service nor the
    transform is called. *)
Theorem mkdir_failure_aborts_the_job
  (env : Env) (img : LoadedImage) (filepath : string)
  (options : ImageTransform) (w w1 : World) (code : errno) :
  let isLocal := isESMImportedImage (src options) in
  let final := finalFileURL_of P env filepath in
  let cached := cachedFileURL_of P env filepath options in
  let folder := new_URL P "./" final in
  cacheLookup P isLocal cached final w = (Ok None, w1) ->
  write_faults w !! folder = Some code ->
  exists w',
    generateImageInternal P env img filepath options w =
    (Throw (SystemError code "mkdir" folder), w')
    /\ same_store w w'
    /\ trace w' = (trace w1 ++ [EvMkdir folder])%list.
Proof.
  intros isLocal final cached folder Hmiss Hmk.
  pose proof (cacheLookup_store _ _ _ _ _ _ Hmiss) as Hst.
  destruct Hst as (Hf & Hd & Hrf & Hwf & Hc).
  rewrite generateImageInternal_eq. cbn zeta.
  fold isLocal final cached. rewrite Hmiss.
  rewrite regenerate_eq. cbn zeta. fold folder. rewrite Hwf, Hmk.
  eexists. split; [reflexivity|]. split; [|reflexivity].
  repeat split; assumption.
Qed.

(** X12: on a miss, when the image service cannot be obtained, the job
    throws that error; the folder of the final file has been created,
    with the directories above it, no file has been written, and the
    transform is not called. *)
Theorem service_failure_writes_nothing
  (env : Env) (img : LoadedImage) (filepath : string)
  (options : ImageTransform) (w w1 : World) (e : exn) :
  let isLocal := isESMImportedImage (src options) in
  let final := finalFileURL_of P env filepath in
  let cached := cachedFileURL_of P env filepath options in
  let folder := new_URL P "./" final in
  cacheLookup P isLocal cached final w = (Ok None, w1) ->
  write_faults w !! folder = None ->
  getConfiguredImageService P = Throw e ->
  exists w',
    generateImageInternal P env img filepath options w = (Throw e, w')
    /\ files w' = files w
    /\ folder ∈ dirs w'
    /\ dirs w' = with_ancestors P folder ∪ dirs w
    /\ trace w' = (trace w1 ++ [EvMkdir folder; EvGetService])%list.
Proof.
  intros isLocal final cached folder Hmiss Hmk Hsvc.
  pose proof (cacheLookup_store _ _ _ _ _ _ Hmiss) as Hst.
  destruct Hst as (Hf & Hd & Hrf & Hwf & Hc).
  rewrite generateImageInternal_eq. cbn zeta.
  fold isLocal final cached. rewrite Hmiss.
  rewrite regenerate_eq. cbn zeta. fold folder. rewrite Hwf, Hmk, Hsvc.
  eexists. split; [reflexivity|]. cbn.
  rewrite Hf, Hd, <- app_assoc. repeat split.
  apply elem_of_union_l, elem_of_with_ancestors.
Qed.

(** X13: on a miss with caching enabled, when the cache entry can be
    written and the final file cannot, the job throws the error of the
    final write, and the cache entry it has just written stays in place.
    When the final file cannot be opened, the error is that of the open
    and the final file is as it was; when its write fails once it is
    open, the error is that of the write and the final file is left
    empty. *)
Theorem final_write_failure_leaves_the_cache_entry
  (env : Env) (img : LoadedImage) (filepath : string)
  (options : ImageTransform) (w w1 : World)
  (service : LocalImageService) (out : Buffer) (code : errno) :
  let isLocal := isESMImportedImage (src options) in
  let final := finalFileURL_of P env filepath in
  let cached := cachedFileURL_of P env filepath options in
  let folder := new_URL P "./" final in
  let entry :=
    if isLocal then out
    else utf8_encode (remoteEntryText out (expires img)) in
  cacheLookup P isLocal cached final w = (Ok None, w1) ->
  useCache env = true ->
  write_faults w !! folder = None ->
  write_faults w !! cached = None ->
  parent P cached ∈ with_ancestors P folder ∪ dirs w ->
  getConfiguredImageService P = Ok service ->
  transform service (data img) (serviceOptions options) (imageConfig env)
    = Ok out ->
  write_faults w !! final = Some code ->
  exists w',
    generateImageInternal P env img filepath options w =
    (Throw (if fails_once_open code then FileError code "write"
            else SystemError code "open" final), w')
    /\ files w' =
       (if fails_once_open code
        then <[final := []]> (<[cached := entry]> (files w))
        else <[cached := entry]> (files w))
    /\ trace w' =
         (trace w1 ++
          [EvMkdir folder; EvGetService;
           EvTransform (data img) (serviceOptions options);
           EvWriteFile cached entry; EvWriteFile final out])%list.
Proof.
  intros isLocal final cached folder entry Hmiss Hu Hmk Hwc Hpc Hsvc Htr Hwf.
  pose proof (cacheLookup_store _ _ _ _ _ _ Hmiss) as Hst.
  destruct Hst as (Hf & Hd & Hrf & Hwf0 & Hc).
  rewrite generateImageInternal_eq. cbn zeta.
  fold isLocal final cached. rewrite Hmiss.
  rewrite regenerate_eq. cbn zeta. fold folder.
  rewrite Hwf0, Hmk, Hsvc, Htr.
  rewrite writeCacheAndFinal_eq. cbn zeta. fold entry. rewrite Hu.
  rewrite (writeFile_ok P cached entry);
    [|cbn; now rewrite Hwf0|cbn; now rewrite Hd].
  rewrite writeFile_eq. cbn zeta. unfold write_failure.
  change (write_faults (with_files _ _)) with (write_faults w1).
  rewrite Hwf0, Hwf.
  destruct (fails_once_open code).
  - destruct (decide _) as [|Hn].
    + eexists. split; [reflexivity|]. cbn.
      rewrite Hf, <- !app_assoc. auto.
    + exfalso. apply Hn. cbn. rewrite Hd. unfold parent. fold folder.
      apply elem_of_union_l, elem_of_with_ancestors.
  - eexists. split; [reflexivity|]. cbn.
    rewrite Hf, <- !app_assoc. auto.
Qed.

(** *** The name of the cache entry *)

Lemma list_ascii_of_string_app a b :
  list_ascii_of_string (a ++ b)
  = (list_ascii_of_string a ++ list_ascii_of_string b)%list.
Proof.
  induction a as [|c a IH]; [reflexivity|].
  rewrite JSONFacts.app_String. cbn. now rewrite IH.
Qed.

Lemma take_segment_app l r :
  forallb (fun c => negb (is_slash c)) l = true ->
  take_segment (l ++ "/"%char :: r) = l.
Proof.
  induction l as [|c l IH]; [reflexivity|].
  cbn. destruct (is_slash c); [discriminate|].
  cbn. intros H. now rewrite IH.
Qed.

Lemma drop_slashes_app l r :
  l <> [] ->
  forallb (fun c => negb (is_slash c)) l = true ->
  drop_slashes (l ++ r) = (l ++ r)%list.
Proof.
  destruct l as [|c l]; [congruence|].
  cbn. destruct (is_slash c); [discriminate|reflexivity].
Qed.

Lemma forallb_rev {A} (f : A -> bool) l :
  forallb f (rev l) = forallb f l.
Proof.
  induction l as [|a l IH]; [reflexivity|].
  cbn. rewrite forallb_app, IH. cbn. rewrite andb_true_r.
  apply andb_comm.
Qed.

Lemma basename_of_join dir name :
  has_no_slash name = true ->
  name <> EmptyString ->
  basename (dir ++ "/" ++ name) = name.
Proof.
  unfold has_no_slash, basename. intros Hs Hn.
  rewrite !list_ascii_of_string_app, !rev_app_distr.
  change (rev (list_ascii_of_string "/")) with ["/"%char].
  rewrite <- app_assoc. cbn [app].
  rewrite drop_slashes_app.
  - rewrite take_segment_app by now rewrite forallb_rev.
    rewrite rev_involutive. apply string_of_list_ascii_of_string.
  - destruct name; [congruence|]. cbn. intros H.
    apply app_eq_nil in H as [_ H]. discriminate.
  - now rewrite forallb_rev.
Qed.

(** X14: the cache entry is named after the last segment of the final
    path alone: two final paths with the same file name in different
    folders, for sources of the same kind, share one cache file; the name
    is the file name for a local source and the file name followed by
    [.json] for a remote one. *)
Theorem cache_key_is_the_base_name
  (env : Env) (dir1 dir2 name : string) (options1 options2 : ImageTransform) :
  has_no_slash name = true ->
  name <> EmptyString ->
  isESMImportedImage (src options1) = isESMImportedImage (src options2) ->
  cachedFileURL_of P env (dir1 ++ "/" ++ name) options1
  = cachedFileURL_of P env (dir2 ++ "/" ++ name) options2
  /\ cacheFile (dir1 ++ "/" ++ name) true = name
  /\ cacheFile (dir1 ++ "/" ++ name) false = name ++ ".json".
Proof.
  intros Hs Hn Hkind. unfold cachedFileURL_of, cacheFile.
  rewrite !basename_of_join, Hkind by assumption.
  split; [reflexivity|]. split; [|reflexivity].
  induction name as [|c n IH]; [reflexivity|].
  rewrite JSONFacts.app_String. f_equal.
  destruct n; [reflexivity|]. apply IH.
  - unfold has_no_slash in *. cbn in Hs.
    destruct (is_slash c); [discriminate|]. exact Hs.
  - discriminate.
Qed.


(** *** Counting calls of a job *)

Lemma count_app p t l :
  count p (t ++ l) = (count p t + count p l)%nat.
Proof. unfold count. now rewrite filter_app, length_app. Qed.

Lemma count_cons p ev l :
  count p (ev :: l) = ((if p ev then 1 else 0) + count p l)%nat.
Proof.
  unfold count. rewrite filter_cons.
  destruct (p ev); [destruct (decide _); [reflexivity|congruence]|].
  destruct (decide _); [discriminate|reflexivity].
Qed.

Lemma quiet_record p ev w :
  ignores_bookkeeping p -> is_bookkeeping ev = true ->
  count p (trace (record ev w)) = count p (trace w).
Proof.
  intros Hp Hev. rewrite trace_record, count_snoc, (Hp ev Hev). lia.
Qed.

Lemma quiet_writeFile p path content :
  ignores_bookkeeping p -> silent p (writeFile P path content).
Proof.
  intros Hp w.
  rewrite writeFile_trace, count_snoc,
    (Hp (EvWriteFile path content) eq_refl). lia.
Qed.

Lemma quiet_copyFile p from to :
  ignores_bookkeeping p -> silent p (copyFile P from to).
Proof.
  intros Hp w. rewrite copyFile_eq. cbn zeta.
  destruct (read_faults w !! from); [|destruct (files w !! from);
    [destruct (write_faults w !! to) as [code|];
       [destruct (fails_once_open code)|]; repeat destruct (decide _)|]];
    cbn [snd]; rewrite ?trace_with_files; now apply quiet_record.
Qed.

Lemma quiet_readFile p path :
  ignores_bookkeeping p -> silent p (readFile path).
Proof.
  intros Hp w. rewrite readFile_eq.
  destruct (read_faults w !! path); [|destruct (files w !! path)];
    cbn [snd]; now apply quiet_record.
Qed.

Lemma quiet_cacheLookup p isLocal cached final :
  ignores_bookkeeping p -> silent p (cacheLookup P isLocal cached final).
Proof.
  intros Hp. unfold cacheLookup, readFileSync_utf8.
  apply @silent_try_catch; [|intro; apply silent_catchCacheError].
  destruct isLocal.
  - apply @silent_bind; [now apply quiet_copyFile|intro; apply silent_ret].
  - apply @silent_bind;
      [apply @silent_bind; [now apply quiet_readFile|intro; apply silent_ret]|].
    intro. apply @silent_bind; [apply silent_lift|intro].
    apply @silent_bind; [apply silent_lift|intro].
    apply @silent_bind; [apply silent_Date_now|intro].
    apply @silent_bind; [apply silent_lift|intros []];
      [|apply silent_ret].
    apply @silent_bind; [apply silent_lift|intro].
    apply @silent_bind; [apply silent_lift|intro].
    apply @silent_bind; [now apply quiet_writeFile|intro; apply silent_ret].
Qed.

Lemma quiet_writeCacheAndFinal p env isLocal cached final content expiry :
  ignores_bookkeeping p ->
  silent p (writeCacheAndFinal P env isLocal cached final content expiry).
Proof.
  intros Hp. unfold writeCacheAndFinal, logger_warn.
  apply @silent_try_catch_finally.
  - destruct (useCache env); [|apply silent_ret].
    destruct isLocal; now apply quiet_writeFile.
  - intro. apply silent_emit. now apply Hp.
  - now apply quiet_writeFile.
Qed.

(** X15: a job calls the transform at most once: not at all when it
    reports a reuse, exactly once when it reports a generation, and at
    most once when it throws. *)
Theorem transform_is_invoked_at_most_once
  (env : Env) (img : LoadedImage) (filepath : string)
  (options : ImageTransform) (w w' : World) (r : Result GenerationData) :
  generateImageInternal P env img filepath options w = (r, w') ->
  let calls t := count is_transform_call (trace t) in
  match r with
  | Ok GenerationDataCached => calls w' = calls w
  | Ok (GenerationDataUncached _ _) => calls w' = S (calls w)
  | Throw _ => (calls w' <= S (calls w))%nat
  end.
Proof.
  assert (Hp : ignores_bookkeeping is_transform_call)
    by (intros [] H; easy).
  rewrite generateImageInternal_eq. cbn zeta.
  pose proof (quiet_cacheLookup is_transform_call
                (isESMImportedImage (src options))
                (cachedFileURL_of P env filepath options)
                (finalFileURL_of P env filepath) Hp w) as H1.
  destruct (cacheLookup _ _ _ _ _) as [[[g|]|e] w1] eqn:Hl; cbn [snd] in H1.
  - intros [= <- <-]. apply cacheLookup_some in Hl as ->. exact H1.
  - rewrite regenerate_eq. cbn zeta.
    destruct (write_faults w1 !! _).
    { intros [= <- <-]. cbn zeta. rewrite trace_record, count_snoc. cbn.
      lia. }
    destruct (getConfiguredImageService P) as [service|].
    2:{ intros [= <- <-]. cbn zeta.
        rewrite !trace_record, trace_with_dirs, trace_record, !count_snoc.
        cbn. lia. }
    destruct (transform service _ _ _) as [out|].
    2:{ intros [= <- <-]. cbn zeta.
        rewrite !trace_record, trace_with_dirs, trace_record, !count_snoc.
        cbn. lia. }
    match goal with
    | |- context [writeCacheAndFinal P env ?l ?c ?f out ?x ?y] =>
        pose proof (quiet_writeCacheAndFinal is_transform_call env l c f
                      out x Hp y) as H2;
        destruct (writeCacheAndFinal P env l c f out x y) as [[[]|e] w3]
    end; cbn [snd] in H2; intros [= <- <-]; cbn zeta; rewrite H2;
      rewrite !trace_record, trace_with_dirs, trace_record, !count_snoc;
      cbn; lia.
  - intros [= <- <-]. cbn zeta. lia.
Qed.

Lemma quiet_generateImageInternal p env img filepath options :
  ignores_bookkeeping p ->
  p EvGetService = false ->
  (forall input opts, p (EvTransform input opts) = false) ->
  silent p (generateImageInternal P env img filepath options).
Proof.
  intros Hp Hs Ht. unfold generateImageInternal. cbn zeta.
  apply @silent_bind; [now apply quiet_cacheLookup|].
  intros [g|]; [apply silent_ret|].
  unfold regenerate. cbn zeta.
  apply @silent_bind.
  { unfold mkdir_recursive.
    apply @silent_bind; [apply silent_emit; now apply Hp|intro].
    apply @silent_bind.
    - intros w0. unfold fault_at.
      destruct (write_faults w0 !! _); reflexivity.
    - intros _ w0. reflexivity. }
  intro. apply @silent_bind; [now apply silent_emit|intro].
  apply @silent_bind; [apply silent_lift|intro].
  apply @silent_bind; [apply silent_emit; apply Ht|intro].
  apply @silent_bind; [apply silent_lift|intro].
  apply @silent_bind; [now apply quiet_writeCacheAndFinal|intro].
  apply silent_ret.
Qed.

(** X16: [generateImage] logs one info line exactly when the job
    succeeds, after everything else the job does and without touching the
    store; the line carries the final path and the statistics of the
    result.  When the job throws, the error is passed on unchanged and no
    line is logged. *)
Theorem generateImage_logs_one_line_per_success
  (env : Env) (img : LoadedImage) (filepath : string)
  (options : ImageTransform) (w : World) :
  let lines t := count is_info (trace t) in
  match generateImageInternal P env img filepath options w with
  | (Ok g, w1) =>
      exists time w',
        generateImage P env img filepath options w = (Ok tt, w')
        /\ same_store w1 w'
        /\ trace w' =
             (trace w1 ++
              [EvInfo ("  " ++ green P "▶" ++ " " ++ filepath ++ " "
                         ++ dim P (statsText g) ++ " "
                         ++ dim P ("(+" ++ time ++ ")"))])%list
        /\ lines w' = S (lines w)
  | (Throw e, w1) =>
      generateImage P env img filepath options w = (Throw e, w1)
      /\ lines w1 = lines w
  end.
Proof.
  intros lines.
  assert (Hq : silent is_info
                 (generateImageInternal P env img filepath options)).
  { apply quiet_generateImageInternal; [intros [] H; easy|easy..]. }
  specialize (Hq w).
  unfold generateImage, bind, Date_now, logger_info, emit.
  destruct (generateImageInternal P env img filepath options w)
    as [[g|e] w1]; cbn [snd] in Hq.
  - eexists _, _. split; [reflexivity|].
    split; [apply same_store_record|]. split; [reflexivity|].
    unfold lines. rewrite trace_record, count_snoc, Hq. cbn. lia.
  - split; [reflexivity|exact Hq].
Qed.

(** *** [loadImage] and [prepareAssetsGeneration] *)

(** X17: [loadImage] never changes the store.  A remote path is fetched
    and no file is read; the result is the fetched data and expiry.  Any
    other path is read from the assets folder under the server root, by
    its base name; the image returned holds the bytes of that file and
    the expiry 0, and a missing or unreadable file makes the call throw
    the error of the read. *)
Theorem loadImage_reads_and_never_writes
  (path : string) (env : Env) (w : World) :
  let url :=
    new_URL P
      ("." ++ prependForwardSlash P
                (path_join P (assetsFolder env) (basename path)))
      (serverRoot env) in
  exists r w',
    loadImage P path env w = (r, w')
    /\ same_store w w'
    /\ if isRemotePath P path then
         trace w' = (trace w ++ [EvLoadImage path; EvFetch path])%list
         /\ match loadRemoteImage P path with
            | Ok remoteImage =>
                exists img,
                  r = Ok img /\ data img = data remoteImage
                  /\ expires img = expires remoteImage
            | Throw e => r = Throw e
            end
       else
         trace w' = (trace w ++ [EvLoadImage path; EvReadFile url])%list
         /\ match r with
            | Ok img => files w !! url = Some (data img) /\ expires img = 0
            | Throw e =>
                exists code,
                  e = SystemError code "open" url
                  /\ (read_faults w !! url = Some code
                      \/ code = ENOENT /\ files w !! url = None)
            end.
Proof.
  intros url. unfold loadImage, bind, emit. fold url.
  destruct (isRemotePath P path).
  - unfold lift, ret.
    destruct (loadRemoteImage P path) as [remoteImage|e];
      eexists _, _; (split; [reflexivity|]);
      (split; [eapply same_store_trans; apply same_store_record|]);
      (split; [cbn; now rewrite <- app_assoc|]); eauto.
  - rewrite readFile_eq. cbn [files read_faults record].
    destruct (read_faults w !! url) as [code|] eqn:Hr;
      [|destruct (files w !! url) as [content|] eqn:Hf];
      eexists _, _; (split; [reflexivity|]);
      (split; [eapply same_store_trans; apply same_store_record|]);
      (split; [cbn; now rewrite <- app_assoc|]); eauto.
Qed.

(** X18: the environment [prepareAssetsGeneration] returns depends on
    the state of the filesystem through [useCache] only; the roots are
    the server and client build directories for a server-like output, and
    the output directory (within the working directory for the server
    root) otherwise. *)
Theorem prepared_environment_depends_on_the_store_by_useCache_only
  (config : AstroConfig) (w1 w2 : World) :
  exists env1 env2 w1' w2',
    prepareAssetsGeneration P config w1 = (Ok env1, w1')
    /\ prepareAssetsGeneration P config w2 = (Ok env2, w2')
    /\ env2 = set_useCache (useCache env2) env1
    /\ serverRoot env1 =
       (if isServerLikeOutput P config then build_server config
        else getOutDirWithinCwd P (outDir config))
    /\ clientRoot env1 =
       (if isServerLikeOutput P config then build_client config
        else outDir config).
Proof.
  unfold prepareAssetsGeneration, bind, try_catch, ret, logger_warn, emit.
  rewrite !mkdir_recursive_eq.
  destruct (write_faults w1 !! _), (write_faults w2 !! _);
    eexists _, _, _, _; (split; [reflexivity|]); (split; [reflexivity|]);
    (split; [reflexivity|]);
    destruct (isServerLikeOutput P config); split; reflexivity.
Qed.


(** *** Without caching *)

Lemma absent_entry_is_a_miss (isLocal : bool) cached final w :
  read_faults w !! cached = None ->
  files w !! cached = None ->
  cacheLookup P isLocal cached final w =
  (Ok None,
   record (if isLocal then EvCopyFile cached final else EvReadFile cached)
     w).
Proof.
  intros Hr Hf. destruct isLocal.
  - rewrite cacheLookup_local_eq, copyFile_eq. cbn zeta. rewrite Hr, Hf.
    rewrite catchCacheError_eq. cbn [exn_code].
    destruct (decide _); [reflexivity|congruence].
  - rewrite cacheLookup_remote_eq, readFile_eq. cbn zeta. rewrite Hr, Hf.
    rewrite catchCacheError_eq. cbn [exn_code].
    destruct (decide _); [reflexivity|congruence].
Qed.

Lemma generation_without_caching env img filepath options w w0 service out :
  let isLocal := isESMImportedImage (src options) in
  let final := finalFileURL_of P env filepath in
  let cached := cachedFileURL_of P env filepath options in
  let folder := new_URL P "./" final in
  cacheLookup P isLocal cached final w = (Ok None, w0) ->
  useCache env = false ->
  write_faults w !! folder = None ->
  write_faults w !! final = None ->
  getConfiguredImageService P = Ok service ->
  transform service (data img) (serviceOptions options) (imageConfig env)
    = Ok out ->
  exists w1,
    generateImageInternal P env img filepath options w =
    (Ok (GenerationDataUncached (kilobytes (data img)) (kilobytes out)), w1)
    /\ files w1 = <[final := out]> (files w)
    /\ read_faults w1 = read_faults w
    /\ write_faults w1 = write_faults w
    /\ trace w1 =
         (trace w0 ++
          [EvMkdir folder; EvGetService;
           EvTransform (data img) (serviceOptions options);
           EvWriteFile final out])%list.
Proof.
  intros isLocal final cached folder Hmiss Hu Hmk Hwf Hsvc Htr.
  pose proof (cacheLookup_store _ _ _ _ _ _ Hmiss) as Hst.
  destruct Hst as (Hf & Hd & Hrf & Hwf0 & Hc).
  rewrite generateImageInternal_eq. cbn zeta.
  fold isLocal final cached. rewrite Hmiss.
  rewrite regenerate_eq. cbn zeta. fold folder.
  rewrite Hwf0, Hmk, Hsvc, Htr.
  rewrite writeCacheAndFinal_eq. cbn zeta. rewrite Hu.
  rewrite (writeFile_ok P final out);
    [|cbn; now rewrite Hwf0
     |cbn; unfold parent; fold folder;
      apply elem_of_union_l, elem_of_with_ancestors].
  eexists. split; [reflexivity|]. cbn.
  rewrite Hf, Hrf, Hwf0, <- !app_assoc. easy.
Qed.

(** X19: with caching disabled nothing is kept from one run to the next.
    A job whose cache entry is absent generates and writes the final file
    only, so that the same job run again finds no entry either and calls
    the transform again. *)
Theorem without_caching_every_run_transforms
  (env : Env) (img img2 : LoadedImage) (filepath : string)
  (options : ImageTransform) (w : World)
  (service : LocalImageService) (out out2 : Buffer) :
  let final := finalFileURL_of P env filepath in
  let cached := cachedFileURL_of P env filepath options in
  let folder := new_URL P "./" final in
  let calls t := count is_transform_call (trace t) in
  useCache env = false ->
  cached <> final ->
  read_faults w !! cached = None ->
  files w !! cached = None ->
  write_faults w !! folder = None ->
  write_faults w !! final = None ->
  getConfiguredImageService P = Ok service ->
  transform service (data img) (serviceOptions options) (imageConfig env)
    = Ok out ->
  transform service (data img2) (serviceOptions options) (imageConfig env)
    = Ok out2 ->
  exists w1 w2,
    generateImageInternal P env img filepath options w =
    (Ok (GenerationDataUncached (kilobytes (data img)) (kilobytes out)), w1)
    /\ files w1 = <[final := out]> (files w)
    /\ generateImageInternal P env img2 filepath options w1 =
       (Ok (GenerationDataUncached (kilobytes (data img2))
              (kilobytes out2)), w2)
    /\ files w2 = <[final := out2]> (files w)
    /\ calls w2 = S (S (calls w)).
Proof.
  intros final cached folder calls Hu Hne Hr Hf Hmk Hwf Hsvc Htr Htr2.
  pose proof (absent_entry_is_a_miss (isESMImportedImage (src options))
                cached final w Hr Hf) as Hmiss.
  destruct (generation_without_caching env img filepath options w _
              service out Hmiss Hu Hmk Hwf Hsvc Htr)
    as (w1 & Hrun & Hf1 & Hr1 & Hw1 & Ht1).
  fold final folder in Hf1, Ht1.
  assert (Hmiss2 : cacheLookup P (isESMImportedImage (src options)) cached
                     final w1
                   = (Ok None,
                      record
                        (if isESMImportedImage (src options)
                         then EvCopyFile cached final
                         else EvReadFile cached) w1)).
  { apply absent_entry_is_a_miss; [now rewrite Hr1|].
    rewrite Hf1, lookup_insert_ne by congruence. exact Hf. }
  destruct (generation_without_caching env img2 filepath options w1 _
              service out2 Hmiss2 Hu)
    as (w2 & Hrun2 & Hf2 & Hr2 & Hw2 & Ht2); try assumption.
  { now rewrite Hw1. }
  { now rewrite Hw1. }
  fold final folder in Hf2, Ht2.
  exists w1, w2. split; [exact Hrun|]. split; [exact Hf1|].
  split; [exact Hrun2|]. split.
  - rewrite Hf2, Hf1. apply insert_insert_eq.
  - unfold calls. rewrite Ht2, trace_record, Ht1, trace_record.
    rewrite <- !app_assoc. cbn [app].
    rewrite count_app, !count_cons.
    destruct (isESMImportedImage (src options)); cbn; lia.
Qed.

(** *** The members of an entry *)

(** X20: the [data] member of a remote-backed entry is looked at only
    when the entry has not expired.  For an entry whose [expires] is an
    integer that a double holds exactly: while it has not expired, an
    entry with no [data] member, or one that is [null], a boolean or a
    number, makes the job fail with the cache read error; the same entry
    once expired is a plain miss. *)
Theorem entry_without_data_is_fatal_until_it_expires
  (env : Env) (img : LoadedImage) (filepath : string)
  (options : ImageTransform) (w : World)
  (bytes : Buffer) (v : JSON.json) (m e x : Z) (d : option JSON.json) :
  let final := finalFileURL_of P env filepath in
  let cached := cachedFileURL_of P env filepath options in
  isESMImportedImage (src options) = false ->
  read_faults w !! cached = None ->
  files w !! cached = Some bytes ->
  JSON.parse (utf8_decode bytes) = Ok v ->
  JSON.get_member v "expires" = Ok (Some (JSON.JNum m e)) ->
  JSON.integer_value m e = Some x ->
  Z.abs x <= 2 ^ 53 ->
  JSON.get_member v "data" = Ok d ->
  match d with
  | None | Some JSON.JNull | Some (JSON.JBool _) | Some (JSON.JNum _ _) =>
      True
  | _ => False
  end ->
  if clock w <? x then
    exists message,
      generateImageInternal P env img filepath options w =
      (Throw (cacheReadError (TypeError message)),
       record (EvReadFile cached) w)
  else
    generateImageInternal P env img filepath options w =
    regenerate P env img options false cached final
      (record (EvReadFile cached) w).
Proof.
  intros final cached Hremote Hrf Hfile Hparse Hexp Hint _ Hdata Hd.
  rewrite generateImageInternal_eq. cbn zeta. fold final cached.
  rewrite Hremote, cacheLookup_remote_eq, readFile_eq. cbn zeta.
  rewrite Hrf, Hfile, Hparse, Hexp. cbn [js_gt]. rewrite Hint.
  destruct (clock w <? x); [|reflexivity].
  rewrite Hdata.
  destruct d as [[]|]; try contradiction; cbn [Buffer_from_base64];
    rewrite catchCacheError_eq; cbn [exn_code];
    (destruct (decide _); [discriminate|]); eauto.
Qed.

(** *** A cache file left empty *)

(** X21: a cache write that fails once the cache file is open (the
    volume is full) is swallowed, the job reporting its generation, but
    it leaves the cache file in place, empty.  The next run of the same
    job finds that file: for a local source it copies it and reports a
    reuse, the final file being empty; for a remote source the empty text
    does not parse and the job fails with the cache read error. *)
Theorem failed_cache_write_spoils_the_next_run
  (env : Env) (img img2 : LoadedImage) (filepath : string)
  (options : ImageTransform) (w w0 : World)
  (service : LocalImageService) (out : Buffer) (code : errno) :
  let isLocal := isESMImportedImage (src options) in
  let final := finalFileURL_of P env filepath in
  let cached := cachedFileURL_of P env filepath options in
  let folder := new_URL P "./" final in
  cacheLookup P isLocal cached final w = (Ok None, w0) ->
  useCache env = true ->
  read_faults w !! cached = None ->
  write_faults w !! folder = None ->
  write_faults w !! cached = Some code ->
  fails_once_open code = true ->
  parent P cached ∈ with_ancestors P folder ∪ dirs w ->
  write_faults w !! final = None ->
  cached <> final ->
  getConfiguredImageService P = Ok service ->
  transform service (data img) (serviceOptions options) (imageConfig env)
    = Ok out ->
  exists w1 r2 w2,
    generateImageInternal P env img filepath options w =
    (Ok (GenerationDataUncached (kilobytes (data img)) (kilobytes out)), w1)
    /\ files w1 !! final = Some out
    /\ files w1 !! cached = Some []
    /\ generateImageInternal P env img2 filepath options w1 = (r2, w2)
    /\ if isLocal then
         r2 = Ok GenerationDataCached /\ files w2 !! final = Some []
       else
         exists message,
           r2 = Throw (cacheReadError (SyntaxError message))
           /\ files w2 = files w1.
Proof.
  intros isLocal final cached folder Hmiss Hu Hrf Hmk Hwc Hcode Hpc Hwf Hne
    Hsvc Htr.
  pose proof (cacheLookup_store _ _ _ _ _ _ Hmiss) as Hst.
  destruct Hst as (Hf & Hd & Hrf0 & Hwf0 & Hc).
  rewrite generateImageInternal_eq. cbn zeta.
  fold isLocal final cached. rewrite Hmiss.
  rewrite regenerate_eq. cbn zeta. fold folder.
  rewrite Hwf0, Hmk, Hsvc, Htr.
  set (u := record (EvTransform _ _) _).
  assert (Hu2 : files u = files w
                /\ dirs u = with_ancestors P folder ∪ dirs w
                /\ read_faults u = read_faults w
                /\ write_faults u = write_faults w).
  { subst u. cbn. now rewrite Hf, Hd, Hrf0, Hwf0. }
  clearbody u. destruct Hu2 as (Huf & Hud & Hur & Huw).
  rewrite writeCacheAndFinal_eq. cbn zeta. rewrite Hu.
  match goal with
  | |- context [writeFile P cached ?c ?x] =>
      rewrite (writeFile_eq P cached c x)
  end.
  cbn zeta. unfold write_failure at 1.
  rewrite Huw, Hwc, Hcode, Hud.
  destruct (decide _) as [_|Hn]; [|contradiction].
  rewrite (writeFile_ok P final out);
    [|cbn; now rewrite Huw
     |cbn; rewrite Hud; unfold parent; fold folder;
      apply elem_of_union_l, elem_of_with_ancestors].
  set (w1 := with_files _ _).
  assert (H1 : files w1 = <[final := out]> (<[cached := []]> (files w))
               /\ dirs w1 = with_ancestors P folder ∪ dirs w
               /\ read_faults w1 = read_faults w
               /\ write_faults w1 = write_faults w).
  { subst w1. cbn. now rewrite Huf, Hud, Hur, Huw. }
  clearbody w1. destruct H1 as (H1f & H1d & H1r & H1w).
  assert (Hfin : files w1 !! final = Some out).
  { rewrite H1f. apply lookup_insert_eq. }
  assert (Hcached : files w1 !! cached = Some []).
  { rewrite H1f, lookup_insert_ne by congruence. apply lookup_insert_eq. }
  exists w1.
  destruct (generateImageInternal P env img2 filepath options w1)
    as [r2 w2] eqn:Hrun2.
  exists r2, w2. split; [reflexivity|]. split; [exact Hfin|].
  split; [exact Hcached|]. split; [reflexivity|].
  rewrite generateImageInternal_eq in Hrun2. cbn zeta in Hrun2.
  fold isLocal final cached in Hrun2.
  destruct isLocal.
  - rewrite cacheLookup_local_eq, copyFile_eq in Hrun2. cbn zeta in Hrun2.
    rewrite H1r, Hrf, Hcached, H1w, Hwf in Hrun2.
    destruct (decide _) as [_|Hn] in Hrun2.
    + injection Hrun2 as <- <-. split; [reflexivity|].
      cbn. apply lookup_insert_eq.
    + exfalso. apply Hn. rewrite H1d. unfold parent. fold folder.
      apply elem_of_union_l, elem_of_with_ancestors.
  - rewrite cacheLookup_remote_eq, readFile_eq in Hrun2. cbn zeta in Hrun2.
    rewrite H1r, Hrf, Hcached in Hrun2.
    change (JSON.parse (utf8_decode []))
      with (@Throw JSON.json (SyntaxError "Unexpected token in JSON"))
      in Hrun2.
    cbv beta iota in Hrun2.
    rewrite catchCacheError_eq in Hrun2. cbn [exn_code] in Hrun2.
    destruct (decide _) in Hrun2; [discriminate|].
    injection Hrun2 as <- <-. eexists. split; reflexivity.
Qed.

End MoreGenerateFacts.

(** ** The theorems at concrete inputs *)

Import Demo.

Lemma out_dir_exists now fs :
  parent node local_final ∈ dirs (world now fs)
  /\ parent node remote_final ∈ dirs (world now fs).
Proof.
  split.
  - change (parent node local_final) with out_dir.
    apply elem_of_union_r. now apply elem_of_singleton.
  - change (parent node remote_final) with out_dir.
    apply elem_of_union_r. now apply elem_of_singleton.
Qed.

Lemma transform_failure_writes_nothing_witness :
  exists w',
    generateImageInternal (platform rejecting) (env true) local_image
      local_filepath local_options (world 1000 ∅)
    = (Throw (ForeignError "Unsupported image format"), w')
    /\ files w' = files (world 1000 ∅)
    /\ trace w' =
         (trace (record (EvCopyFile local_cached local_final)
                   (world 1000 ∅)) ++
          [EvMkdir out_dir; EvGetService;
           EvTransform (data local_image) (serviceOptions local_options)])%list.
Proof.
  apply (transform_failure_writes_nothing (platform rejecting) (env true)
           local_image local_filepath local_options (world 1000 ∅)
           (record (EvCopyFile local_cached local_final) (world 1000 ∅))
           rejecting (ForeignError "Unsupported image format")).
  - vm_compute. reflexivity.
  - vm_compute. reflexivity.
  - reflexivity.
  - reflexivity.
Defined.


Lemma cache_write_failure_is_swallowed_witness :
  exists w',
    generateImageInternal node (env true) local_image local_filepath
      local_options (world_unwritable 1000 ∅ local_cached ENOSPC)
    = (Ok (GenerationDataUncached 0 0), w')
    /\ files w' =
       <[local_final := [x04; x03; x02; x01]]> (<[local_cached := []]> ∅)
    /\ trace w' =
         [EvCopyFile local_cached local_final; EvMkdir out_dir;
          EvGetService;
          EvTransform [x01; x02; x03; x04] (serviceOptions local_options);
          EvWriteFile local_cached [x04; x03; x02; x01];
          cacheWriteWarning (FileError ENOSPC "write");
          EvWriteFile local_final [x04; x03; x02; x01]].
Proof.
  destruct (cache_write_failure_is_swallowed node (env true) local_image
              local_filepath local_options
              (world_unwritable 1000 ∅ local_cached ENOSPC)
              (record (EvCopyFile local_cached local_final)
                 (world_unwritable 1000 ∅ local_cached ENOSPC))
              reversing [x04; x03; x02; x01])
    as (r & w' & Hrun & _ & Hfinal & Hwarn).
  - vm_compute. reflexivity.
  - vm_compute. reflexivity.
  - reflexivity.
  - reflexivity.
  - destruct Hfinal as [-> _]; [vm_compute; reflexivity|].
    destruct (Hwarn eq_refl (FileError ENOSPC "write") true)
      as (Htrace & Hfiles).
    + vm_compute. reflexivity.
    + exists w'. split; [exact Hrun|]. split.
      * rewrite Hfiles by (vm_compute; reflexivity). reflexivity.
      * exact Htrace.
Defined.

Example local_lookup_by_presence_example :
  generateImageInternal node (env true) local_image local_filepath
    local_options (world_with_local_entry 1000)
  = (Ok GenerationDataCached,
     with_files
       (<[local_final := [xca; xfe]]> (files (world_with_local_entry 1000)))
       (record (EvCopyFile local_cached local_final)
          (world_with_local_entry 1000)))
  /\ cacheLookup node true local_cached local_final (world 1000 ∅)
     = (Ok None, record (EvCopyFile local_cached local_final) (world 1000 ∅)).
Proof.
  split.
  - pose proof (local_lookup_by_presence node (env true) local_image
                  local_filepath local_options (world_with_local_entry 1000)
                  eq_refl eq_refl) as H.
    cbv zeta in H.
    change (files (world_with_local_entry 1000)
              !! cachedFileURL_of node (env true) local_filepath local_options)
      with (Some [xca; xfe]) in H.
    apply H.
    + vm_compute. reflexivity.
    + apply out_dir_exists.
  - pose proof (local_lookup_by_presence node (env true) local_image
                  local_filepath local_options (world 1000 ∅)
                  eq_refl eq_refl) as H.
    cbv zeta in H.
    change (files (world 1000 ∅)
              !! cachedFileURL_of node (env true) local_filepath local_options)
      with (@None Buffer) in H.
    apply H.
Defined.



Lemma unreadable_entry_is_fatal_witness :
  generateImageInternal node (env true) remote_png remote_filepath
    remote_options (world_with_remote_text 1000 "{")
  = (Throw (cacheReadError (SyntaxError "Unexpected token in JSON")),
     record (EvReadFile remote_cached) (world_with_remote_text 1000 "{"))
  /\ generateImageInternal node (env true) remote_png remote_filepath
       remote_options
       (world_unreadable 1000 {[remote_cached := []]} remote_cached EACCES)
     = (Throw (cacheReadError (SystemError EACCES "open" remote_cached)),
        record (EvReadFile remote_cached)
          (world_unreadable 1000 {[remote_cached := []]} remote_cached
             EACCES))
  /\ generateImageInternal node (env true) remote_png remote_filepath
       remote_options (world_with_remote_text 1000 "[]")
     = regenerate node (env true) remote_png remote_options false
         remote_cached remote_final
         (record (EvReadFile remote_cached)
            (world_with_remote_text 1000 "[]")).
Proof.
  destruct (unreadable_entry_is_fatal node (env true) remote_png
              remote_filepath remote_options eq_refl) as [Hfatal Hmiss].
  split; [|split].
  - apply Hfatal.
    apply (unreadable_syntax _ _ (utf8_encode "{")).
    + vm_compute. reflexivity.
    + vm_compute. reflexivity.
    + vm_compute. reflexivity.
  - apply Hfatal.
    apply unreadable_fault.
    + vm_compute. reflexivity.
    + discriminate.
  - apply (Hmiss _ (utf8_encode "[]") (JSON.JArr [])).
    + vm_compute. reflexivity.
    + vm_compute. reflexivity.
    + vm_compute. reflexivity.
    + reflexivity.
Defined.

(** A counterexample to C2 as stated: the entry [{}] exists and is not
    the expected record, yet the job does not fail; it calls the transform
    and reports a generation. *)
Lemma empty_object_entry_is_regenerated :
  files (world_with_remote_text 1000 "{}") !! remote_cached
    = Some (utf8_encode "{}")
  /\ JSON.parse "{}" = Ok (JSON.JObj [])
  /\ fst (generateImageInternal node (env true) remote_png remote_filepath
            remote_options (world_with_remote_text 1000 "{}"))
     = Ok (GenerationDataUncached 0 0)
  /\ count is_transform
       (trace (snd (generateImageInternal node (env true) remote_png
                      remote_filepath remote_options
                      (world_with_remote_text 1000 "{}"))))
     = 2%nat.
Proof. vm_compute. repeat split; reflexivity. Qed.

Lemma generation_weights_are_kilobytes_witness :
  (exists w1,
     cacheLookup node true local_cached local_final (world 1000 ∅)
     = (Ok None, w1))
  /\ 2 = Z.quot (byteLength (data big_image)) 1024
  /\ exists service out,
       getConfiguredImageService node = Ok service
       /\ transform service (data big_image) (serviceOptions local_options)
            (imageConfig (env true)) = Ok out
       /\ 2 = Z.quot (byteLength out) 1024.
Proof.
  apply (generation_weights_are_kilobytes node (env true) big_image
           local_filepath local_options (world 1000 ∅)
           (snd (generateImageInternal node (env true) big_image
                   local_filepath local_options (world 1000 ∅)))
           (GenerationDataUncached 2 2)).
  vm_compute. reflexivity.
Defined.

(** A counterexample to C9 as stated: for a source of 2048 bytes the job
    reports the weight 2, not 2048. *)
Lemma weight_is_not_the_byte_size :
  fst (generateImageInternal node (env true) big_image local_filepath
         local_options (world 1000 ∅))
    = Ok (GenerationDataUncached 2 2)
  /\ byteLength (data big_image) = 2048
  /\ fst (generateImageInternal node (env true) big_image local_filepath
            local_options (world 1000 ∅))
     <> Ok (GenerationDataUncached (byteLength (data big_image))
              (byteLength (rev (data big_image)))).
Proof.
  vm_compute. repeat split; try reflexivity. discriminate.
Qed.

Lemma useCache_gates_only_the_write_witness :
  generateImageInternal node (set_useCache false (env true)) local_image
    local_filepath local_options (world_with_local_entry 1000)
  = (Ok GenerationDataCached,
     with_files
       (<[local_final := [xca; xfe]]> (files (world_with_local_entry 1000)))
       (record (EvCopyFile local_cached local_final)
          (world_with_local_entry 1000)))
  /\ files (snd (generateImageInternal node (env false) local_image
                   local_filepath local_options (world 1000 ∅)))
       !! local_cached
     = None
  /\ (exists r w',
        generateImageInternal node (env true) local_image local_filepath
          local_options (world 1000 ∅) = (r, w')
        /\ trace w' =
             [EvCopyFile local_cached local_final; EvMkdir out_dir;
              EvGetService;
              EvTransform [x01; x02; x03; x04]
                (serviceOptions local_options);
              EvWriteFile local_cached [x04; x03; x02; x01];
              EvWriteFile local_final [x04; x03; x02; x01]]
        /\ files w' !! local_cached = Some [x04; x03; x02; x01])
  /\ (exists r w',
        generateImageInternal node (env false) local_image local_filepath
          local_options (world 1000 ∅) = (r, w')
        /\ trace w' =
             [EvCopyFile local_cached local_final; EvMkdir out_dir;
              EvGetService;
              EvTransform [x01; x02; x03; x04]
                (serviceOptions local_options);
              EvWriteFile local_final [x04; x03; x02; x01]]).
Proof.
  split; [|split; [|split]].
  - destruct (useCache_gates_only_the_write node (env true) local_image
                local_filepath local_options (world_with_local_entry 1000))
      as (_ & Hsame & _).
    apply Hsame. vm_compute. reflexivity.
  - destruct (useCache_gates_only_the_write node (env false) local_image
                local_filepath local_options (world 1000 ∅))
      as (_ & _ & Hfiles & _).
    erewrite (Hfiles eq_refl).
    + reflexivity.
    + apply surjective_pairing.
    + discriminate.
  - destruct (useCache_gates_only_the_write node (env true) local_image
                local_filepath local_options (world 1000 ∅))
      as (_ & _ & _ & Hgate).
    destruct (Hgate (record (EvCopyFile local_cached local_final)
                       (world 1000 ∅))
                reversing [x04; x03; x02; x01])
      as (r & w' & Hrun & Htrace & Hentry).
    + vm_compute. reflexivity.
    + vm_compute. reflexivity.
    + reflexivity.
    + reflexivity.
    + discriminate.
    + exists r, w'. split; [exact Hrun|]. split.
      * rewrite Htrace. vm_compute. reflexivity.
      * apply Hentry. vm_compute. reflexivity.
  - destruct (useCache_gates_only_the_write node (env false) local_image
                local_filepath local_options (world 1000 ∅))
      as (_ & _ & _ & Hgate).
    destruct (Hgate (record (EvCopyFile local_cached local_final)
                       (world 1000 ∅))
                reversing [x04; x03; x02; x01])
      as (r & w' & Hrun & Htrace & _).
    + vm_compute. reflexivity.
    + vm_compute. reflexivity.
    + reflexivity.
    + reflexivity.
    + discriminate.
    + exists r, w'. split; [exact Hrun|]. exact Htrace.
Defined.

(** C4, where the code departs from it: a local cache entry is present
    and readable, but the output directory has not been created yet.  The
    copy fails with [ENOENT], the [catch] clause takes that for the absence
    of the cache file, and the job creates the directory, calls the
    transform and reports a generation; the final file holds the
    transform's output, not the cached bytes. *)
Lemma local_entry_not_reused_without_output_directory :
  files (world_without_out_dir 1000 {[local_cached := [xca; xfe]]})
    !! local_cached = Some [xca; xfe]
  /\ fst (generateImageInternal node (env true) local_image local_filepath
            local_options
            (world_without_out_dir 1000 {[local_cached := [xca; xfe]]}))
     = Ok (GenerationDataUncached 0 0)
  /\ trace (snd (generateImageInternal node (env true) local_image
                   local_filepath local_options
                   (world_without_out_dir 1000
                      {[local_cached := [xca; xfe]]})))
     = [EvCopyFile local_cached local_final; EvMkdir out_dir; EvGetService;
        EvTransform [x01; x02; x03; x04] (serviceOptions local_options);
        EvWriteFile local_cached [x04; x03; x02; x01];
        EvWriteFile local_final [x04; x03; x02; x01]].
Proof. vm_compute. repeat split; reflexivity. Qed.

(** C3, where the code departs from it: a remote-backed entry is present,
    parses, and expires at 5000, after the current time 1000, but the
    output directory has not been created yet.  The write of the decoded
    bytes fails with [ENOENT], the [catch] clause takes that for the
    absence of the cache file, and the job creates the directory, calls
    the transform and reports a generation. *)
Lemma remote_entry_not_reused_without_output_directory :
  JSON.parse (remoteEntryText [x01; x02; xff] 5000)
    = Ok (JSON.entry_json (Base64.encode [x01; x02; xff]) 5000)
  /\ fst (generateImageInternal node (env true) remote_png remote_filepath
            remote_options
            (world_without_out_dir 1000
               {[remote_cached :=
                   utf8_encode (remoteEntryText [x01; x02; xff] 5000)]}))
     = Ok (GenerationDataUncached 0 0)
  /\ trace (snd (generateImageInternal node (env true) remote_png
                   remote_filepath remote_options
                   (world_without_out_dir 1000
                      {[remote_cached :=
                          utf8_encode
                            (remoteEntryText [x01; x02; xff] 5000)]})))
     = [EvReadFile remote_cached;
        EvWriteFile remote_final [x01; x02; xff];
        EvMkdir out_dir; EvGetService;
        EvTransform (data remote_png) (serviceOptions remote_options);
        EvWriteFile remote_cached
          (utf8_encode
             (remoteEntryText (rev (data remote_png)) (expires remote_png)));
        EvWriteFile remote_final (rev (data remote_png))].
Proof. vm_compute. repeat split; reflexivity. Qed.

(** ** More instances *)

Lemma successful_job_leaves_final_file_witness :
  parent node local_final
    ∈ dirs (snd (generateImageInternal node (env true) local_image
                   local_filepath local_options (world 1000 ∅)))
  /\ is_Some
       (files (snd (generateImageInternal node (env true) local_image
                      local_filepath local_options (world 1000 ∅)))
          !! local_final)
  /\ exists service out,
       getConfiguredImageService node = Ok service
       /\ transform service (data local_image) (serviceOptions local_options)
            (imageConfig (env true)) = Ok out
       /\ files (snd (generateImageInternal node (env true) local_image
                        local_filepath local_options (world 1000 ∅)))
            !! local_final = Some out.
Proof.
  apply (successful_job_leaves_final_file node (env true) local_image
           local_filepath local_options (world 1000 ∅)
           (snd (generateImageInternal node (env true) local_image
                   local_filepath local_options (world 1000 ∅)))
           (GenerationDataUncached 0 0)).
  vm_compute. reflexivity.
Defined.

Lemma reuse_only_writes_the_final_file_witness :
  exists content,
    files (snd (generateImageInternal node (env true) local_image
                  local_filepath local_options (world_with_local_entry 1000)))
    = <[local_final := content]> (files (world_with_local_entry 1000))
    /\ (true = true ->
        files (world_with_local_entry 1000) !! local_cached = Some content)
    /\ dirs (snd (generateImageInternal node (env true) local_image
                    local_filepath local_options
                    (world_with_local_entry 1000)))
       = dirs (world_with_local_entry 1000)
    /\ trace (snd (generateImageInternal node (env true) local_image
                     local_filepath local_options
                     (world_with_local_entry 1000)))
       = (trace (world_with_local_entry 1000)
          ++ [EvCopyFile local_cached local_final])%list.
Proof.
  apply (reuse_only_writes_the_final_file node (env true) local_image
           local_filepath local_options (world_with_local_entry 1000)
           (snd (generateImageInternal node (env true) local_image
                   local_filepath local_options
                   (world_with_local_entry 1000)))).
  vm_compute. reflexivity.
Defined.

Lemma cache_dir_exists now fs :
  parent node local_cached
    ∈ ({[new_URL node "./" local_final]} ∪ dirs (world now fs) : gset URL)
  /\ parent node remote_cached
       ∈ ({[new_URL node "./" remote_final]} ∪ dirs (world now fs)
          : gset URL).
Proof.
  split; apply elem_of_union_r, elem_of_union_l; now apply elem_of_singleton.
Qed.

Lemma local_entry_written_is_reused_by_next_run_witness :
  exists w1 w2,
    generateImageInternal node (env true) local_image local_filepath
      local_options (world 1000 ∅)
    = (Ok (GenerationDataUncached (kilobytes (data local_image))
             (kilobytes (rev (data local_image)))), w1)
    /\ generateImageInternal node (env true) big_image local_filepath
         local_options w1
       = (Ok GenerationDataCached, w2)
    /\ files w2 = files w1
    /\ files w2 !! local_final = Some (rev (data local_image))
    /\ trace w2 = (trace w1 ++ [EvCopyFile local_cached local_final])%list.
Proof.
  apply (local_entry_written_is_reused_by_next_run node (env true)
           local_image big_image local_filepath local_options (world 1000 ∅)
           (record (EvCopyFile local_cached local_final) (world 1000 ∅))
           reversing (rev (data local_image))).
  - reflexivity.
  - vm_compute. reflexivity.
  - reflexivity.
  - vm_compute. reflexivity.
  - vm_compute. reflexivity.
  - vm_compute. reflexivity.
  - vm_compute. reflexivity.
  - apply cache_dir_exists.
  - reflexivity.
  - reflexivity.
Defined.

Lemma remote_entry_written_is_reused_until_it_expires_witness :
  exists w1 w2,
    generateImageInternal node (env true) remote_png remote_filepath
      remote_options (world 1000 ∅)
    = (Ok (GenerationDataUncached (kilobytes (data remote_png))
             (kilobytes (rev (data remote_png)))), w1)
    /\ generateImageInternal node (env true) local_image remote_filepath
         remote_options (with_clock 4999 w1)
       = (Ok GenerationDataCached, w2)
    /\ files w2 = files w1
    /\ files w2 !! remote_final = Some (rev (data remote_png))
    /\ trace w2 =
         (trace w1 ++
          [EvReadFile remote_cached;
           EvWriteFile remote_final (rev (data remote_png))])%list.
Proof.
  apply (remote_entry_written_is_reused_until_it_expires node (env true)
           remote_png local_image remote_filepath remote_options
           (world 1000 ∅)
           (record (EvReadFile remote_cached) (world 1000 ∅))
           reversing (rev (data remote_png)) 4999).
  - reflexivity.
  - vm_compute. discriminate.
  - vm_compute. reflexivity.
  - reflexivity.
  - vm_compute. reflexivity.
  - vm_compute. reflexivity.
  - vm_compute. reflexivity.
  - vm_compute. reflexivity.
  - apply cache_dir_exists.
  - reflexivity.
  - reflexivity.
  - reflexivity.
Defined.

Lemma remote_entry_is_regenerated_once_expired_witness :
  exists w1 w2,
    generateImageInternal node (env true) remote_png remote_filepath
      remote_options (world 1000 ∅)
    = (Ok (GenerationDataUncached (kilobytes (data remote_png))
             (kilobytes (rev (data remote_png)))), w1)
    /\ generateImageInternal node (env true) local_image remote_filepath
         remote_options (with_clock 5000 w1)
       = (Ok (GenerationDataUncached (kilobytes (data local_image))
                (kilobytes (rev (data local_image)))), w2)
    /\ files w2 !! remote_cached
       = Some (utf8_encode
                 (remoteEntryText (rev (data local_image))
                    (expires local_image)))
    /\ files w2 !! remote_final = Some (rev (data local_image))
    /\ trace w2 =
         (trace w1 ++
          [EvReadFile remote_cached; EvMkdir out_dir; EvGetService;
           EvTransform (data local_image) (serviceOptions remote_options);
           EvWriteFile remote_cached
             (utf8_encode
                (remoteEntryText (rev (data local_image))
                   (expires local_image)));
           EvWriteFile remote_final (rev (data local_image))])%list.
Proof.
  apply (remote_entry_is_regenerated_once_expired node (env true)
           remote_png local_image remote_filepath remote_options
           (world 1000 ∅)
           (record (EvReadFile remote_cached) (world 1000 ∅))
           reversing (rev (data remote_png)) (rev (data local_image)) 5000).
  - reflexivity.
  - vm_compute. discriminate.
  - vm_compute. reflexivity.
  - reflexivity.
  - vm_compute. reflexivity.
  - vm_compute. reflexivity.
  - vm_compute. reflexivity.
  - vm_compute. reflexivity.
  - apply cache_dir_exists.
  - reflexivity.
  - reflexivity.
  - reflexivity.
  - vm_compute. discriminate.
Defined.

Lemma reuse_ignores_source_and_options_witness :
  generateImageInternal node (env true) big_image local_filepath
    wider_options (world_with_local_entry 1000)
  = (Ok GenerationDataCached,
     with_files
       (<[local_final := [xca; xfe]]> (files (world_with_local_entry 1000)))
       (record (EvCopyFile local_cached local_final)
          (world_with_local_entry 1000))).
Proof.
  apply (reuse_ignores_source_and_options node (env true) local_image
           big_image local_filepath local_options wider_options).
  - reflexivity.
  - vm_compute. reflexivity.
Defined.

Lemma local_copy_failure_is_fatal_witness :
  generateImageInternal node (env true) local_image local_filepath
    local_options
    (world_unreadable 1000 {[local_cached := [xca; xfe]]} local_cached EACCES)
  = (Throw (cacheReadError (SystemError EACCES "copyfile" local_cached)),
     record (EvCopyFile local_cached local_final)
       (world_unreadable 1000 {[local_cached := [xca; xfe]]} local_cached
          EACCES))
  /\ generateImageInternal node (env true) local_image local_filepath
       local_options
       (world_unwritable 1000 {[local_cached := [xca; xfe]]} local_final
          EROFS)
     = (Throw (cacheReadError (SystemError EROFS "copyfile" local_final)),
        record (EvCopyFile local_cached local_final)
          (world_unwritable 1000 {[local_cached := [xca; xfe]]} local_final
             EROFS))
  /\ generateImageInternal node (env true) local_image local_filepath
       local_options
       (world_unwritable 1000
          {[local_cached := [xca; xfe]; local_final := [x00]]} local_final
          ENOSPC)
     = (Throw (cacheReadError (SystemError ENOSPC "copyfile" local_final)),
        with_files {[local_cached := [xca; xfe]]}
          (record (EvCopyFile local_cached local_final)
             (world_unwritable 1000
                {[local_cached := [xca; xfe]; local_final := [x00]]}
                local_final ENOSPC))).
Proof.
  split; [|split].
  - apply (local_copy_failure_is_fatal node (env true) local_image
             local_filepath local_options
             (world_unreadable 1000 {[local_cached := [xca; xfe]]}
                local_cached EACCES) EACCES).
    + reflexivity.
    + discriminate.
    + vm_compute. reflexivity.
  - apply (local_copy_failure_is_fatal node (env true) local_image
             local_filepath local_options
             (world_unwritable 1000 {[local_cached := [xca; xfe]]}
                local_final EROFS) EROFS).
    + reflexivity.
    + discriminate.
    + vm_compute. reflexivity.
    + vm_compute. eauto.
    + vm_compute. reflexivity.
    + discriminate.
  - destruct (local_copy_failure_is_fatal node (env true) local_image
                local_filepath local_options
                (world_unwritable 1000
                   {[local_cached := [xca; xfe]; local_final := [x00]]}
                   local_final ENOSPC) ENOSPC) as [_ H].
    + reflexivity.
    + discriminate.
    + rewrite H.
      * vm_compute. reflexivity.
      * vm_compute. reflexivity.
      * vm_compute. eauto.
      * vm_compute. reflexivity.
      * intros _. split; [|discriminate].
        change (out_dir ∈ ({[cache_dir; out_dir]} : gset URL)).
        apply elem_of_union_r. now apply elem_of_singleton.
Defined.

Lemma mkdir_failure_aborts_the_job_witness :
  exists w',
    generateImageInternal node (env true) local_image local_filepath
      local_options (world_unwritable 1000 ∅ out_dir EACCES)
    = (Throw (SystemError EACCES "mkdir" out_dir), w')
    /\ same_store (world_unwritable 1000 ∅ out_dir EACCES) w'
    /\ trace w' =
         [EvCopyFile local_cached local_final; EvMkdir out_dir].
Proof.
  apply (mkdir_failure_aborts_the_job node (env true) local_image
           local_filepath local_options
           (world_unwritable 1000 ∅ out_dir EACCES)
           (record (EvCopyFile local_cached local_final)
              (world_unwritable 1000 ∅ out_dir EACCES))
           EACCES).
  - vm_compute. reflexivity.
  - vm_compute. reflexivity.
Defined.

Lemma service_failure_writes_nothing_witness :
  exists w',
    generateImageInternal without_service (env true) local_image
      local_filepath local_options (world_without_out_dir 1000 ∅)
    = (Throw (ForeignError "Could not find the image service"), w')
    /\ files w' = ∅
    /\ out_dir ∈ dirs w'
    /\ dirs w' =
       list_to_set
         [out_dir; "file:///site/dist/"; "file:///site/"; "file:///"]
       ∪ {[cache_dir]}
    /\ trace w' =
         [EvCopyFile local_cached local_final; EvMkdir out_dir;
          EvGetService].
Proof.
  apply (service_failure_writes_nothing without_service (env true)
           local_image local_filepath local_options
           (world_without_out_dir 1000 ∅)
           (record (EvCopyFile local_cached local_final)
              (world_without_out_dir 1000 ∅))
           (ForeignError "Could not find the image service")).
  - vm_compute. reflexivity.
  - vm_compute. reflexivity.
  - reflexivity.
Defined.

Lemma final_write_failure_leaves_the_cache_entry_witness :
  (exists w',
     generateImageInternal node (env true) local_image local_filepath
       local_options (world_unwritable 1000 ∅ local_final ENOSPC)
     = (Throw (FileError ENOSPC "write"), w')
     /\ files w' =
        <[local_final := []]>
          (<[local_cached := rev (data local_image)]> ∅)
     /\ trace w' =
          [EvCopyFile local_cached local_final; EvMkdir out_dir;
           EvGetService;
           EvTransform (data local_image) (serviceOptions local_options);
           EvWriteFile local_cached (rev (data local_image));
           EvWriteFile local_final (rev (data local_image))])
  /\ (exists w',
        generateImageInternal node (env true) local_image local_filepath
          local_options (world_unwritable 1000 ∅ local_final EACCES)
        = (Throw (SystemError EACCES "open" local_final), w')
        /\ files w' = <[local_cached := rev (data local_image)]> ∅
        /\ trace w' =
             [EvCopyFile local_cached local_final; EvMkdir out_dir;
              EvGetService;
              EvTransform (data local_image) (serviceOptions local_options);
              EvWriteFile local_cached (rev (data local_image));
              EvWriteFile local_final (rev (data local_image))]).
Proof.
  split.
  - apply (final_write_failure_leaves_the_cache_entry node (env true)
             local_image local_filepath local_options
             (world_unwritable 1000 ∅ local_final ENOSPC)
             (record (EvCopyFile local_cached local_final)
                (world_unwritable 1000 ∅ local_final ENOSPC))
             reversing (rev (data local_image)) ENOSPC).
    + vm_compute. reflexivity.
    + reflexivity.
    + vm_compute. reflexivity.
    + vm_compute. reflexivity.
    + apply elem_of_union_r, elem_of_union_l. now apply elem_of_singleton.
    + reflexivity.
    + reflexivity.
    + vm_compute. reflexivity.
  - apply (final_write_failure_leaves_the_cache_entry node (env true)
             local_image local_filepath local_options
             (world_unwritable 1000 ∅ local_final EACCES)
             (record (EvCopyFile local_cached local_final)
                (world_unwritable 1000 ∅ local_final EACCES))
             reversing (rev (data local_image)) EACCES).
    + vm_compute. reflexivity.
    + reflexivity.
    + vm_compute. reflexivity.
    + vm_compute. reflexivity.
    + apply elem_of_union_r, elem_of_union_l. now apply elem_of_singleton.
    + reflexivity.
    + reflexivity.
    + vm_compute. reflexivity.
Defined.

Lemma cache_key_is_the_base_name_witness :
  cachedFileURL_of node (env true) ("/_astro" ++ "/" ++ "cat_Z2.webp")
    remote_options
  = cachedFileURL_of node (env true) ("/blog/_astro" ++ "/" ++ "cat_Z2.webp")
      remote_options
  /\ cacheFile ("/_astro" ++ "/" ++ "cat_Z2.webp") true = "cat_Z2.webp"
  /\ cacheFile ("/_astro" ++ "/" ++ "cat_Z2.webp") false
     = "cat_Z2.webp" ++ ".json".
Proof.
  apply (cache_key_is_the_base_name node (env true) "/_astro" "/blog/_astro"
           "cat_Z2.webp" remote_options remote_options).
  - reflexivity.
  - discriminate.
  - reflexivity.
Defined.

Lemma transform_is_invoked_at_most_once_witness :
  count is_transform_call
    (trace (snd (generateImageInternal node (env true) local_image
                   local_filepath local_options (world 1000 ∅))))
  = S (count is_transform_call (trace (world 1000 ∅))).
Proof.
  apply (transform_is_invoked_at_most_once node (env true) local_image
           local_filepath local_options (world 1000 ∅)
           (snd (generateImageInternal node (env true) local_image
                   local_filepath local_options (world 1000 ∅)))
           (Ok (GenerationDataUncached 0 0))).
  vm_compute. reflexivity.
Defined.

Lemma without_caching_every_run_transforms_witness :
  exists w1 w2,
    generateImageInternal node (env false) local_image local_filepath
      local_options (world 1000 ∅)
    = (Ok (GenerationDataUncached (kilobytes (data local_image))
             (kilobytes (rev (data local_image)))), w1)
    /\ files w1 = <[local_final := rev (data local_image)]> ∅
    /\ generateImageInternal node (env false) big_image local_filepath
         local_options w1
       = (Ok (GenerationDataUncached (kilobytes (data big_image))
                (kilobytes (rev (data big_image)))), w2)
    /\ files w2 = <[local_final := rev (data big_image)]> ∅
    /\ count is_transform_call (trace w2)
       = S (S (count is_transform_call (trace (world 1000 ∅)))).
Proof.
  apply (without_caching_every_run_transforms node (env false) local_image
           big_image local_filepath local_options (world 1000 ∅) reversing
           (rev (data local_image)) (rev (data big_image))).
  - reflexivity.
  - vm_compute. discriminate.
  - vm_compute. reflexivity.
  - vm_compute. reflexivity.
  - vm_compute. reflexivity.
  - vm_compute. reflexivity.
  - reflexivity.
  - reflexivity.
  - reflexivity.
Defined.

Lemma entry_without_data_is_fatal_until_it_expires_witness :
  (exists message,
     generateImageInternal node (env true) remote_png remote_filepath
       remote_options (world_with_remote_text 1000 entry_without_data)
     = (Throw (cacheReadError (TypeError message)),
        record (EvReadFile remote_cached)
          (world_with_remote_text 1000 entry_without_data)))
  /\ generateImageInternal node (env true) remote_png remote_filepath
       remote_options (world_with_remote_text 5000 entry_without_data)
     = regenerate node (env true) remote_png remote_options false
         remote_cached remote_final
         (record (EvReadFile remote_cached)
            (world_with_remote_text 5000 entry_without_data)).
Proof.
  split.
  - apply (entry_without_data_is_fatal_until_it_expires node (env true)
             remote_png remote_filepath remote_options
             (world_with_remote_text 1000 entry_without_data)
             (utf8_encode entry_without_data)
             (JSON.JObj [("expires", JSON.JNum 5000 0)]) 5000 0 5000 None).
    + reflexivity.
    + vm_compute. reflexivity.
    + vm_compute. reflexivity.
    + vm_compute. reflexivity.
    + reflexivity.
    + reflexivity.
    + vm_compute. discriminate.
    + reflexivity.
    + exact I.
  - apply (entry_without_data_is_fatal_until_it_expires node (env true)
             remote_png remote_filepath remote_options
             (world_with_remote_text 5000 entry_without_data)
             (utf8_encode entry_without_data)
             (JSON.JObj [("expires", JSON.JNum 5000 0)]) 5000 0 5000 None).
    + reflexivity.
    + vm_compute. reflexivity.
    + vm_compute. reflexivity.
    + vm_compute. reflexivity.
    + reflexivity.
    + reflexivity.
    + vm_compute. discriminate.
    + reflexivity.
    + exact I.
Defined.

Lemma failed_cache_write_spoils_the_next_run_witness :
  exists w1 r2 w2,
    generateImageInternal node (env true) local_image local_filepath
      local_options (world_unwritable 1000 ∅ local_cached ENOSPC)
    = (Ok (GenerationDataUncached (kilobytes (data local_image))
             (kilobytes (rev (data local_image)))), w1)
    /\ files w1 !! local_final = Some (rev (data local_image))
    /\ files w1 !! local_cached = Some []
    /\ generateImageInternal node (env true) big_image local_filepath
         local_options w1 = (r2, w2)
    /\ r2 = Ok GenerationDataCached /\ files w2 !! local_final = Some [].
Proof.
  apply (failed_cache_write_spoils_the_next_run node (env true) local_image
           big_image local_filepath local_options
           (world_unwritable 1000 ∅ local_cached ENOSPC)
           (record (EvCopyFile local_cached local_final)
              (world_unwritable 1000 ∅ local_cached ENOSPC))
           reversing (rev (data local_image)) ENOSPC).
  - vm_compute. reflexivity.
  - reflexivity.
  - vm_compute. reflexivity.
  - vm_compute. reflexivity.
  - vm_compute. reflexivity.
  - reflexivity.
  - apply elem_of_union_r, elem_of_union_l. now apply elem_of_singleton.
  - vm_compute. reflexivity.
  - vm_compute. discriminate.
  - reflexivity.
  - reflexivity.
Defined.
